(** * Clear Voice Studio: correction engine, transcription hook and worker

    A shallow embedding of the algorithmic core of the repository:
    - [src/lib/correctionEngine.ts]: the rule-based rewriting pipeline
      [applyCorrections], with the JavaScript regular expressions it uses
      run by a small backtracking matcher;
    - [src/hooks/useTranscribe.ts]: the transcription hook, in the
      record-then-decode variant and in the streaming variant;
    - [src/worker.ts]: the message listener of the inference worker.

    Part I holds the definitions, Part II the properties. *)

From Stdlib Require Import String Ascii.
From Stdlib Require Import List NArith ZArith Bool Lia.
From Stdlib Require Import Floats.SpecFloat.
Import ListNotations.

Set Implicit Arguments.

(* ################################################################# *)
(** * Part I: the model *)

(* ================================================================= *)
(** ** JavaScript strings *)

(** A JavaScript string is a sequence of UTF-16 code units. *)
Module JsString.

Definition char := N.
Definition jsstring := list char.

(** ASCII literals of the source, as code units. *)
Definition str (s : string) : jsstring :=
  map N_of_ascii (list_ascii_of_string s).

Definition chr (a : ascii) : char := N_of_ascii a.

(** The double quote, which the template literals of the source embed. *)
Definition dquote : char := 34%N.

(** [\s] and [String.prototype.trim] share one set: the ECMAScript
    WhiteSpace and LineTerminator code points. *)
Definition isSpace (c : char) : bool :=
  ((9 <=? c) && (c <=? 13) || (c =? 32) || (c =? 160) || (c =? 0x1680)
   || (0x2000 <=? c) && (c <=? 0x200a) || (c =? 0x2028) || (c =? 0x2029)
   || (c =? 0x202f) || (c =? 0x205f) || (c =? 0x3000) || (c =? 0xfeff))%N.

Definition isLower (c : char) : bool := ((97 <=? c) && (c <=? 122))%N.
Definition isUpper (c : char) : bool := ((65 <=? c) && (c <=? 90))%N.
Definition isDigit (c : char) : bool := ((48 <=? c) && (c <=? 57))%N.

(** [\w] is [[A-Za-z0-9_]]. *)
Definition isWord (c : char) : bool :=
  isLower c || isUpper c || isDigit c || (c =? 95)%N.

(** [toUpperCase] on one code unit.  Every call site of the source applies
    it to a character that a pattern has just matched against [[a-z]] or
    against an ASCII word, so only the ASCII mapping is needed. *)
Definition toUpperCase (c : char) : char :=
  if isLower c then (c - 32)%N else c.

(** Canonicalisation of the [i] flag (without the [u] flag).  ECMAScript
    never folds a code unit of 128 or more onto an ASCII one, and every
    comparison of the patterns below has an ASCII side (a literal of the
    pattern, or a capture of [\w+]), so the ASCII folding decides them. *)
Definition canonicalize (c : char) : char := toUpperCase c.

Definition char_eqb (ignoreCase : bool) (a b : char) : bool :=
  if ignoreCase then (canonicalize a =? canonicalize b)%N else (a =? b)%N.

Fixpoint trimStart (s : jsstring) : jsstring :=
  match s with
  | c :: s' => if isSpace c then trimStart s' else s
  | [] => []
  end.

Definition trimEnd (s : jsstring) : jsstring := rev (trimStart (rev s)).

Definition trim (s : jsstring) : jsstring := trimEnd (trimStart s).

(** [s.charAt(0).toUpperCase() + s.slice(1)] *)
Definition capitalize (s : jsstring) : jsstring :=
  match s with
  | c :: s' => toUpperCase c :: s'
  | [] => []
  end.

End JsString.

(* ================================================================= *)
(** ** Regular expressions *)

(** The fragment of ECMAScript regular expressions that the source uses,
    with the backtracking semantics of the language definition: a matcher
    takes a continuation and returns the first success in priority order. *)
Module Regex.
Import JsString.

(** A pattern character: a literal (compared through [canonicalize] under
    the [i] flag) or a class.  The classes of the source that occur under
    the [i] flag ([\s], [\w]) are closed under case folding. *)
Inductive atom : Type :=
| Lit (c : char)
| Cls (p : char -> bool).

Inductive regex : Type :=
| Eps
| Atom (a : atom)
| Rep (lo : nat) (hi : option nat) (a : atom)   (* greedy [a{lo,hi}] *)
| Seq (r1 r2 : regex)
| Alt (r1 r2 : regex)
| Grp (n : nat) (r : regex)                     (* capturing group *)
| Ref (n : nat)                                 (* backreference *)
| WordB                                         (* [\b] *)
| Bol                                           (* [^], no [m] flag *)
| Eol.                                          (* [$], no [m] flag *)

Definition captures := list (nat * jsstring).

(** A matcher state: the input already passed (most recent first), the
    input ahead, and the captures so far. *)
Record mstate : Type := MState {
  before : list char;
  after : list char;
  caps : captures
}.

Fixpoint getcap (n : nat) (cs : captures) : option jsstring :=
  match cs with
  | (m, t) :: cs' => if Nat.eqb n m then Some t else getcap n cs'
  | [] => None
  end.

Definition atomb (ic : bool) (a : atom) (c : char) : bool :=
  match a with
  | Lit l => char_eqb ic l c
  | Cls p => p c
  end.

Definition isWordAt (l : list char) : bool :=
  match l with
  | c :: _ => isWord c
  | [] => false
  end.

(** [\b] holds where exactly one side is a word character. *)
Definition wordBoundary (st : mstate) : bool :=
  xorb (isWordAt (before st)) (isWordAt (after st)).

(** Greedy repetition of one pattern character: one more iteration is
    tried first, the continuation only when that fails and the lower
    bound is met. *)
Fixpoint repeatMatcher (ic : bool) (a : atom) (lo : nat) (hi : option nat)
    (k : mstate -> option mstate) (pre rest : list char) (cs : captures)
    {struct rest} : option mstate :=
  let stop := if Nat.eqb lo 0 then k (MState pre rest cs) else None in
  match hi with
  | Some 0 => stop
  | _ =>
    match rest with
    | c :: rest' =>
      if atomb ic a c then
        match repeatMatcher ic a (pred lo) (option_map pred hi) k
                (c :: pre) rest' cs with
        | Some s => Some s
        | None => stop
        end
      else stop
    | [] => stop
    end
  end.

(** Consume the text [t] of a backreference. *)
Fixpoint eat (ic : bool) (t : jsstring) (pre rest : list char)
  : option (list char * list char) :=
  match t with
  | [] => Some (pre, rest)
  | x :: t' =>
    match rest with
    | c :: rest' => if char_eqb ic x c then eat ic t' (c :: pre) rest' else None
    | [] => None
    end
  end.

(** The text consumed between two states of one run. *)
Definition consumed (st st' : mstate) : jsstring :=
  firstn (length (after st) - length (after st')) (after st).

Fixpoint run (ic : bool) (r : regex) (k : mstate -> option mstate)
    (st : mstate) : option mstate :=
  match r with
  | Eps => k st
  | Atom a =>
    match after st with
    | c :: rest =>
      if atomb ic a c then k (MState (c :: before st) rest (caps st)) else None
    | [] => None
    end
  | Rep lo hi a => repeatMatcher ic a lo hi k (before st) (after st) (caps st)
  | Seq r1 r2 => run ic r1 (run ic r2 k) st
  | Alt r1 r2 =>
    match run ic r1 k st with
    | Some s => Some s
    | None => run ic r2 k st
    end
  | Grp n r =>
    run ic r
      (fun st' => k (MState (before st') (after st')
                       ((n, consumed st st') :: caps st')))
      st
  | Ref n =>
    match getcap n (caps st) with
    | None => k st
    | Some t =>
      match eat ic t (before st) (after st) with
      | Some (pre, rest) => k (MState pre rest (caps st))
      | None => None
      end
    end
  | WordB => if wordBoundary st then k st else None
  | Bol => match before st with [] => k st | _ => None end
  | Eol => match after st with [] => k st | _ => None end
  end.

(** A compiled pattern: its body and its [i] flag. *)
Record pattern : Type := Pattern {
  body : regex;
  ignoreCase : bool
}.

(** What [exec] returns: the index of the match, the matched text
    ([match[0]]) and the captures. *)
Record MatchResult : Type := MkMatch {
  index : nat;
  text : jsstring;
  groups : captures
}.

(** [$n] and the [pn] arguments of a replacer: the capture, or the empty
    string when the group did not take part. *)
Definition group (n : nat) (m : MatchResult) : jsstring :=
  match getcap n (groups m) with
  | Some t => t
  | None => []
  end.

(** One attempt at one position: [pre] is the input before the position
    (most recent first), [rest] the input from it, [i] its index. *)
Definition execAt (p : pattern) (pre rest : list char) (i : nat)
  : option MatchResult :=
  match run (ignoreCase p) (body p) Some (MState pre rest []) with
  | Some st => Some (MkMatch i (consumed (MState pre rest []) st) (caps st))
  | None => None
  end.

(** The first match at or after a position, as [exec] finds it, moving
    right one code unit at a time. *)
Fixpoint searchFrom (p : pattern) (pre rest : list char) (i : nat)
  : option MatchResult :=
  match execAt p pre rest i with
  | Some m => Some m
  | None =>
    match rest with
    | c :: rest' => searchFrom p (c :: pre) rest' (S i)
    | [] => None
    end
  end.

(** [pattern.test(s)] for a pattern without the [g] flag. *)
Definition test (p : pattern) (s : jsstring) : bool :=
  match searchFrom p [] s 0 with
  | Some _ => true
  | None => false
  end.

(** All matches of a [g] pattern, left to right and not overlapping: after
    a match the search resumes at its end, one code unit further when the
    match is empty.  [skip] counts the code units of the last match that
    are still to be passed. *)
Fixpoint matchesFrom (p : pattern) (skip : nat) (pre rest : list char)
    (i : nat) : list MatchResult :=
  match rest with
  | [] =>
    match skip with
    | 0 => match execAt p pre [] i with Some m => [m] | None => [] end
    | S _ => []
    end
  | c :: rest' =>
    match skip with
    | S k => matchesFrom p k (c :: pre) rest' (S i)
    | 0 =>
      match execAt p pre rest i with
      | Some m => m :: matchesFrom p (pred (length (text m))) (c :: pre) rest' (S i)
      | None => matchesFrom p 0 (c :: pre) rest' (S i)
      end
    end
  end.

(** [s.matchAll(p)], collected. *)
Definition matchAll (p : pattern) (s : jsstring) : list MatchResult :=
  matchesFrom p 0 [] s 0.

(** [s.replace(p, f)] for a [g] pattern: each match gives way to what the
    replacer returns for it, the text between matches is kept.  The
    replacer also returns what it records (the [changes.push] calls of the
    source), collected in match order. *)
Fixpoint replaceFrom (A : Type) (p : pattern)
    (f : MatchResult -> jsstring * list A)
    (skip : nat) (pre rest : list char) (i : nat) : jsstring * list A :=
  match rest with
  | [] =>
    match skip with
    | 0 => match execAt p pre [] i with Some m => f m | None => ([], []) end
    | S _ => ([], [])
    end
  | c :: rest' =>
    match skip with
    | S k => replaceFrom p f k (c :: pre) rest' (S i)
    | 0 =>
      match execAt p pre rest i with
      | Some m =>
        let (out, rec) := f m in
        match length (text m) with
        | 0 =>
          let (out', rec') := replaceFrom p f 0 (c :: pre) rest' (S i) in
          (out ++ c :: out', rec ++ rec')
        | S k =>
          let (out', rec') := replaceFrom p f k (c :: pre) rest' (S i) in
          (out ++ out', rec ++ rec')
        end
      | None =>
        let (out', rec') := replaceFrom p f 0 (c :: pre) rest' (S i) in
        (c :: out', rec')
      end
    end
  end.

Definition replaceWith (A : Type) (p : pattern)
    (f : MatchResult -> jsstring * list A) (s : jsstring) : jsstring * list A :=
  replaceFrom p f 0 [] s 0.

(** [s.replace(p, template)], the template given as a function of the
    match. *)
Definition replaceAll (p : pattern) (f : MatchResult -> jsstring)
    (s : jsstring) : jsstring :=
  fst (replaceWith p (fun m => (f m, @nil unit)) s).

(** [s.split(/[...]/)] for a pattern that is one character class: the
    segments between the separators, empty ones included. *)
Fixpoint splitOn (sep : char -> bool) (cur : jsstring) (s : jsstring)
  : list jsstring :=
  match s with
  | [] => [rev cur]
  | c :: s' => if sep c then rev cur :: splitOn sep [] s'
               else splitOn sep (c :: cur) s'
  end.

Definition split (sep : char -> bool) (s : jsstring) : list jsstring :=
  splitOn sep [] s.

(** Pattern syntax helpers. *)
Definition lit (a : ascii) : regex := Atom (Lit (chr a)).

Definition lits (s : string) : regex :=
  fold_right (fun a r => Seq (lit a) r) Eps (list_ascii_of_string s).

Definition oneOf (s : string) (c : char) : bool :=
  existsb (N.eqb c) (str s).

End Regex.

(* ================================================================= *)
(** ** The correction engine ([src/lib/correctionEngine.ts]) *)

Module CorrectionEngine.
Import JsString Regex.

Arguments str s%_string.
Arguments chr a%_char.
Arguments lit a%_char.
Arguments lits s%_string.
Arguments oneOf s%_string c.

Inductive ChangeType : Type :=
| punctuation | filler | casing | spacing | boundary.

Record Change : Type := MkChange {
  type : ChangeType;
  description : jsstring;
  position : nat
}.

Record CorrectionResult : Type := MkCorrectionResult {
  original : jsstring;
  corrected : jsstring;
  changes : list Change
}.

(** A JavaScript [number]. *)
Definition number := spec_float.

Definition ws : regex := Atom (Cls isSpace).
Definition optComma : regex := Rep 0 (Some 1) (Lit (chr ",")).
Definition some (a : ascii) : regex := Rep 1 None (Lit (N_of_ascii a)).
Arguments some a%_char.

(** [FILLER_PATTERNS], each with the flags [gi]. *)
Definition FILLER_PATTERNS : list pattern :=
  [ (* /\b(um+|uh+|er+|ah+|like,?\s)/gi *)
    Pattern (Seq WordB
              (Grp 1 (Alt (Seq (lit "u") (some "m"))
                     (Alt (Seq (lit "u") (some "h"))
                     (Alt (Seq (lit "e") (some "r"))
                     (Alt (Seq (lit "a") (some "h"))
                          (Seq (lits "like") (Seq optComma ws)))))))) true;
    (* /\b(you know,?\s)/gi *)
    Pattern (Seq WordB (Grp 1 (Seq (lits "you know") (Seq optComma ws)))) true;
    (* /\b(basically,?\s)/gi *)
    Pattern (Seq WordB (Grp 1 (Seq (lits "basically") (Seq optComma ws)))) true;
    (* /\b(literally,?\s)/gi *)
    Pattern (Seq WordB (Grp 1 (Seq (lits "literally") (Seq optComma ws)))) true;
    (* /\b(actually,?\s)/gi *)
    Pattern (Seq WordB (Grp 1 (Seq (lits "actually") (Seq optComma ws)))) true;
    (* /\b(sort of|kind of)\s/gi *)
    Pattern (Seq WordB
              (Seq (Grp 1 (Alt (lits "sort of") (lits "kind of"))) ws)) true;
    (* /\b(I mean,?\s)/gi *)
    Pattern (Seq WordB (Grp 1 (Seq (lits "I mean") (Seq optComma ws)))) true ].

Definition BOUNDARY_TRIGGERS : list string :=
  [ "however"; "therefore"; "moreover"; "furthermore"; "additionally";
    "consequently"; "nevertheless"; "meanwhile"; "subsequently";
    "in addition"; "as a result"; "on the other hand"; "in conclusion";
    "first"; "second"; "third"; "finally"; "next"; "then"; "also";
    "but"; "and then"; "so then"; "after that" ]%string.

(** Step 1, one pattern: a Change per match, found in the current
    [result], then every match removed. *)
Definition fillerChange (m : MatchResult) : Change :=
  MkChange filler
    (str "Removed filler: " ++ dquote :: trim (text m) ++ [dquote])
    (index m).

Definition removeFiller (acc : jsstring * list Change) (p : pattern)
  : jsstring * list Change :=
  let (result, changes) := acc in
  (replaceAll p (fun _ => []) result,
   changes ++ map fillerChange (matchAll p result)).

Definition removeFillers (text : jsstring) : jsstring * list Change :=
  fold_left removeFiller FILLER_PATTERNS (text, []).

(** Step 2: [/\s{2,}/g]. *)
Definition multiSpace : pattern := Pattern (Rep 2 None (Cls isSpace)) false.

Definition spacingChange (m : MatchResult) : Change :=
  MkChange spacing (str "Fixed multiple spaces") (index m).

Definition fixSpaces (result : jsstring) : jsstring * list Change :=
  (replaceAll multiSpace (fun _ => str " ") result,
   map spacingChange (matchAll multiSpace result)).

(** Step 3, [inferSentenceBoundaries]. *)

(** [new RegExp(`(\\s)(${trigger})\\s`, 'gi')] *)
Definition triggerPattern (trigger : string) : pattern :=
  Pattern (Seq (Grp 1 ws) (Seq (Grp 2 (lits trigger)) ws)) true.

(** [/[.!?,;:]/.test(result[beforeIndex])]; an index past the end reads
    [undefined], which the test turns into the text "undefined". *)
Definition punctuatedAt (result : jsstring) (beforeIndex : nat) : bool :=
  match nth_error result beforeIndex with
  | Some c => oneOf ".!?,;:" c
  | None => false
  end.

(** The replacer of one trigger pass; [result] is the string the pass
    runs on. *)
Definition breakBefore (result : jsstring) (m : MatchResult)
  : jsstring * list Change :=
  let word := group 2 m in
  let offset := index m in
  match offset with
  | S beforeIndex =>
    if negb (punctuatedAt result beforeIndex) then
      (str ". " ++ capitalize word ++ str " ",
       [MkChange boundary
          (str "Added period before " ++ dquote :: word ++ [dquote]) offset])
    else (text m, [])
  | 0 => (text m, [])
  end.

Definition applyTrigger (acc : jsstring * list Change) (trigger : string)
  : jsstring * list Change :=
  let (result, changes) := acc in
  let (result', pushed) :=
    replaceWith (triggerPattern trigger) (breakBefore result) result in
  (result', changes ++ pushed).

Definition longSegment (i : nat) (segment : jsstring) : list Change :=
  if 100 <? length segment then
    [MkChange boundary
       (str "Long sentence detected - may need manual review") i]
  else [].

Fixpoint forEachIndexed (A B : Type) (f : nat -> A -> list B) (i : nat)
    (l : list A) : list B :=
  match l with
  | [] => []
  | x :: l' => f i x ++ forEachIndexed f (S i) l'
  end.

Definition inferSentenceBoundaries (text : jsstring)
  : jsstring * list Change :=
  let (result, changes) := fold_left applyTrigger BOUNDARY_TRIGGERS (text, []) in
  let segments := split (oneOf ".!?") result in
  (result, changes ++ forEachIndexed longSegment 0 segments).

(** Step 4: [/\.\s+([a-z])/g]; the replacer records the variable
    [position] of [applyCorrections]. *)
Definition afterPeriod : pattern :=
  Pattern (Seq (lit ".") (Seq (Rep 1 None (Cls isSpace))
                              (Grp 1 (Atom (Cls isLower))))) false.

Definition capitalizeAfterPeriod (position : nat) (m : MatchResult)
  : jsstring * list Change :=
  (str ". " ++ map toUpperCase (group 1 m),
   [MkChange casing (str "Capitalized after period") position]).

(** Step 5: [/^[a-z]/]. *)
Definition startsLower : pattern :=
  Pattern (Seq Bol (Atom (Cls isLower))) false.

Definition capitalizeFirst (result : jsstring) : jsstring * list Change :=
  if (0 <? length result) && test startsLower result then
    (capitalize result,
     [MkChange casing (str "Capitalized first letter") 0])
  else (result, []).

(** Step 6: [/\bi\b/g]. *)
Definition standaloneI : pattern :=
  Pattern (Seq WordB (Seq (lit "i") WordB)) false.

(** Step 7: [/[.!?]$/]. *)
Definition endsSentence : pattern :=
  Pattern (Seq (Atom (Cls (oneOf ".!?"))) Eol) false.

Definition addEndingPeriod (result : jsstring) : jsstring * list Change :=
  if (0 <? length result) && negb (test endsSentence (trim result)) then
    (trim result ++ str ".",
     [MkChange punctuation (str "Added ending period") (length result)])
  else (result, []).

(** Step 8, [fixCommonArtifacts]; it receives [changes] and records
    nothing. *)
Definition wordPattern (w : string) : pattern :=
  Pattern (Seq WordB (Seq (lits w) WordB)) true.

(** [/\b(\w+)\s+\1\b/gi] *)
Definition repeatedWord : pattern :=
  Pattern (Seq WordB
            (Seq (Grp 1 (Rep 1 None (Cls isWord)))
                 (Seq (Rep 1 None (Cls isSpace)) (Seq (Ref 1) WordB)))) true.

(** [/\s+([,.])/g] *)
Definition spaceBeforeMark : pattern :=
  Pattern (Seq (Rep 1 None (Cls isSpace)) (Grp 1 (Atom (Cls (oneOf ",."))))) false.

(** [/([,.])\s{2,}/g] *)
Definition spacesAfterMark : pattern :=
  Pattern (Seq (Grp 1 (Atom (Cls (oneOf ",.")))) (Rep 2 None (Cls isSpace))) false.

Definition fixCommonArtifacts (text : jsstring) : jsstring :=
  let result := text in
  let result := replaceAll (wordPattern "gonna") (fun _ => str "going to") result in
  let result := replaceAll (wordPattern "wanna") (fun _ => str "want to") result in
  let result := replaceAll (wordPattern "gotta") (fun _ => str "got to") result in
  let result := replaceAll repeatedWord (group 1) result in
  let result := replaceAll spaceBeforeMark (group 1) result in
  let result := replaceAll spacesAfterMark (fun m => group 1 m ++ str " ") result in
  result.

(** The result of steps 1 to 6, which step 7 inspects. *)
Definition beforePunctuation (text : jsstring) : jsstring * list Change :=
  let position := 0 in
  let '(result, c1) := removeFillers text in
  let '(result, c2) := fixSpaces result in
  let '(result, c3) := inferSentenceBoundaries result in
  let '(result, c4) := replaceWith afterPeriod (capitalizeAfterPeriod position) result in
  let '(result, c5) := capitalizeFirst result in
  let result := replaceAll standaloneI (fun _ => str "I") result in
  (result, c1 ++ c2 ++ c3 ++ c4 ++ c5).

(** [applyCorrections(text, similarities = [])] *)
Definition applyCorrections (text : jsstring) (similarities : list number)
  : CorrectionResult :=
  let '(result, changes) := beforePunctuation text in
  let '(result, c7) := addEndingPeriod result in
  let result := fixCommonArtifacts result in
  MkCorrectionResult text (trim result) (changes ++ c7).

End CorrectionEngine.

(* ================================================================= *)
(** ** JavaScript numbers *)

(** A [number] is an IEEE 754 binary64 value, computed with the
    operations of [SpecFloat]; a [Float32Array] element is a binary32
    value, rounded on every store. *)
Module Float.

Definition number := spec_float.

Definition prec : Z := 53.
Definition emax : Z := 1024.

Definition ofZ (z : Z) : number := binary_normalize prec emax z 0 false.
Definition ofNat (n : nat) : number := ofZ (Z.of_nat n).

Definition zero : number := S754_zero false.
Definition one : number := ofZ 1.

Definition mul : number -> number -> number := SFmul prec emax.
Definition div : number -> number -> number := SFdiv prec emax.
Definition add : number -> number -> number := SFadd prec emax.
Definition sqrt : number -> number := SFsqrt prec emax.
Definition abs : number -> number := SFabs.

(** [a > b] and [a === b] *)
Definition gt (a b : number) : bool := SFltb b a.
Definition strictEq (a b : number) : bool := SFeqb a b.

(** [Number.isFinite] *)
Definition isFinite (x : number) : bool :=
  match x with
  | S754_zero _ | S754_finite _ _ _ => true
  | S754_infinity _ | S754_nan => false
  end.

(** Truthiness of a number: neither zero nor NaN. *)
Definition truthy (x : number) : bool :=
  match x with
  | S754_zero _ | S754_nan => false
  | S754_infinity _ | S754_finite _ _ _ => true
  end.

(** The literal [0.95]: the binary64 value nearest to 95/100. *)
Definition lit_0_95 : number := div (ofZ 95) (ofZ 100).

(** A store into a [Float32Array]: round to binary32, read back as a
    binary64 value. *)
Definition fround (x : number) : number :=
  match x with
  | S754_finite s m e =>
    match binary_round 24 128 s m e with
    | S754_finite s' m' e' => binary_round prec emax s' m' e'
    | y => y
    end
  | _ => x
  end.

Definition Float32Array := list number.

End Float.

(* ================================================================= *)
(** ** What the hook and the worker exchange *)

Module Protocol.
Import JsString Float.

(** A segment of a transcription output, with its [text] property when it
    has one. *)
Record Segment : Type := MkSegment { segText : option jsstring }.

(** The [data] of a [complete] message, as the hook tells the shapes
    apart: an object that is not an array (with its [text] property when
    it has one), an array of segments, or anything else. *)
Inductive Output : Type :=
| Single (text : option jsstring)
| Segments (l : list Segment)
| Other.

(** The [data] of a [download] message. *)
Record Progress : Type := MkProgress {
  status : jsstring;
  progress : number
}.

(** The [data] of an [error] message: a string, or something else. *)
Inductive ErrorData : Type :=
| Reason (s : jsstring)
| NoReason.

(** Messages from the worker to the hook. *)
Inductive WorkerEvent : Type :=
| download (data : Progress)
| ready
| complete (data : Output)
| error (data : ErrorData).

(** Messages from the hook to the worker: [event.data] with its fields
    [type], [audio] and [language]. *)
Record Request : Type := MkRequest {
  reqType : jsstring;
  audio : option Float32Array;
  language : option jsstring
}.

Definition configure : Request := MkRequest (str "configure") None None.

Definition transcribe (a : Float32Array) : Request :=
  MkRequest (str "transcribe") (Some a) (Some (str "english")).

Definition isTranscribe (r : Request) : bool :=
  if list_eq_dec N.eq_dec (reqType r) (str "transcribe") then true else false.

End Protocol.

(* ================================================================= *)
(** ** What the two variants of the hook share *)

Module HookCommon.
Import JsString Float Protocol.

Module Log.
Inductive LogType : Type := info | error | success.
End Log.

(** An entry of the debug log.  Number formatting ([toFixed]) is not
    rendered: [message] is the text of the template and [values] the
    numbers that fill it.  The timestamp and the optional [data] are left
    out. *)
Record DebugLog : Type := MkLog {
  message : jsstring;
  values : list number;
  type : Log.LogType
}.

(** The [useState] cells of the hook. *)
Record View : Type := MkView {
  isModelLoading : bool;
  isModelLoaded : bool;
  isRecording : bool;
  isTranscribing : bool;
  transcription : jsstring;
  progress : number;
  error : option jsstring;
  logs : list DebugLog
}.

Definition initialView : View :=
  MkView false false false false [] zero None [].

(** [l.slice(-n)] *)
Definition lastn (A : Type) (n : nat) (l : list A) : list A :=
  skipn (length l - n) l.

(** [setLogs(prev => [...prev, entry].slice(-50))] *)
Definition addLog (msg : string) (vals : list number) (t : Log.LogType)
    (v : View) : View :=
  MkView (isModelLoading v) (isModelLoaded v) (isRecording v)
    (isTranscribing v) (transcription v) (progress v) (error v)
    (lastn 50 (logs v ++ [MkLog (str msg) vals t])).

Definition setIsModelLoading (b : bool) (v : View) : View :=
  MkView b (isModelLoaded v) (isRecording v)
    (isTranscribing v) (transcription v) (progress v) (error v) (logs v).

Definition setIsModelLoaded (b : bool) (v : View) : View :=
  MkView (isModelLoading v) b (isRecording v)
    (isTranscribing v) (transcription v) (progress v) (error v) (logs v).

Definition setIsRecording (b : bool) (v : View) : View :=
  MkView (isModelLoading v) (isModelLoaded v) b
    (isTranscribing v) (transcription v) (progress v) (error v) (logs v).

Definition setIsTranscribing (b : bool) (v : View) : View :=
  MkView (isModelLoading v) (isModelLoaded v) (isRecording v)
    b (transcription v) (progress v) (error v) (logs v).

(** [setTranscription], given an updater of the previous value. *)
Definition setTranscription (f : jsstring -> jsstring) (v : View) : View :=
  MkView (isModelLoading v) (isModelLoaded v) (isRecording v)
    (isTranscribing v) (f (transcription v)) (progress v) (error v) (logs v).

Definition setProgress (p : number) (v : View) : View :=
  MkView (isModelLoading v) (isModelLoaded v) (isRecording v)
    (isTranscribing v) (transcription v) p (error v) (logs v).

Definition setError (e : option jsstring) (v : View) : View :=
  MkView (isModelLoading v) (isModelLoaded v) (isRecording v)
    (isTranscribing v) (transcription v) (progress v) e (logs v).

Definition setLogs (l : list DebugLog) (v : View) : View :=
  MkView (isModelLoading v) (isModelLoaded v) (isRecording v)
    (isTranscribing v) (transcription v) (progress v) (error v) l.

(** [Math.round]: the nearest integer, ties towards positive infinity. *)
Definition Math_round (x : number) : number :=
  match x with
  | S754_finite s m e =>
    if (0 <=? e)%Z then x
    else
      let v := if s then Z.neg m else Z.pos m in
      let r := Z.shiftr (v + Z.shiftl 1 (- e - 1)) (- e) in
      if (r =? 0)%Z then S754_zero s else ofZ r
  | _ => x
  end.

(** [a.join(' ')]: an element that is [undefined] counts as the empty
    string. *)
Fixpoint join (sep : jsstring) (l : list (option jsstring)) : jsstring :=
  match l with
  | [] => []
  | x :: l' =>
    let t := match x with Some t => t | None => [] end in
    match l' with
    | [] => t
    | _ :: _ => t ++ sep ++ join sep l'
    end
  end.

(** Truthiness of a string. *)
Definition nonEmpty (s : jsstring) : bool :=
  match s with [] => false | _ :: _ => true end.

Definition isProgress (s : jsstring) : bool :=
  if list_eq_dec N.eq_dec s (str "progress") then true else false.

(** The cases of [onmessage] that the two variants have in common. *)
Definition onDownload (data : Progress) (v : View) : View :=
  if isProgress (status data) && truthy (Protocol.progress data)
  then setProgress (Math_round (Protocol.progress data)) v
  else v.

Definition onReady (v : View) : View :=
  setProgress (ofZ 100)
    (setIsModelLoaded true
      (setIsModelLoading false
        (addLog "Whisper model loaded and ready" [] Log.success v))).

Definition onError (data : ErrorData) (v : View) : View :=
  setError
    (Some match data with
          | Reason s => s
          | NoReason => str "Worker error occurred"
          end)
    (setIsTranscribing false
      (setIsModelLoading false
        (addLog "Worker reported error" [] Log.error v))).

(** The running maximum of [Math.abs] over a buffer. *)
Fixpoint peakFrom (peak : number) (data : Float32Array) : number :=
  match data with
  | [] => peak
  | x :: data' =>
    let abs := Float.abs x in
    peakFrom (if gt abs peak then abs else peak) data'
  end.

(** [sumSquared += x * x] over a buffer. *)
Fixpoint sumSquaredFrom (sumSquared : number) (data : Float32Array) : number :=
  match data with
  | [] => sumSquared
  | x :: data' => sumSquaredFrom (add sumSquared (mul x x)) data'
  end.

(** [normalized[i] = data[i] * gain], stored into a [Float32Array]. *)
Definition applyGain (gain : number) (data : Float32Array) : Float32Array :=
  map (fun x => fround (mul x gain)) data.

End HookCommon.

(* ================================================================= *)
(** ** The hook that records, then decodes ([src/hooks/useTranscribe.ts]) *)

Module TranscribeHook.
Import JsString Float Protocol HookCommon.

Record Hook : Type := MkHook {
  view : View;
  (** [workerRef.current] is set *)
  worker : bool;
  (** what [postMessage] has sent to the worker, oldest first *)
  posted : list Request
}.

Definition onView (f : View -> View) (st : Hook) : Hook :=
  MkHook (f (view st)) (worker st) (posted st).

Definition postMessage (r : Request) (st : Hook) : Hook :=
  MkHook (view st) (worker st) (posted st ++ [r]).

(** The state once the effect that creates the worker has run. *)
Definition mounted : Hook :=
  postMessage configure
    (onView (setIsModelLoading true)
      (onView (addLog "Initializing worker thread..." [] Log.info)
        (MkHook initialView true []))).

(** The updater of both [complete] branches:
    [prev => prev + (prev ? ' ' : '') + text.trim()]. *)
Definition appendText (text : jsstring) (prev : jsstring) : jsstring :=
  let space := if nonEmpty prev then str " " else [] in
  prev ++ space ++ trim text.

Definition onComplete (data : Output) (v : View) : View :=
  let v := setIsTranscribing false
             (addLog "Transcription completed" [] Log.success v) in
  match data with
  | Single (Some text) =>
    if nonEmpty text then setTranscription (appendText text) v else v
  | Single None => v
  | Segments l =>
    let text := join (str " ") (map segText l) in
    setTranscription (appendText text) v
  | Other => v
  end.

(** [workerRef.current.onmessage] *)
Definition onmessage (ev : WorkerEvent) (st : Hook) : Hook :=
  match ev with
  | download data => onView (onDownload data) st
  | ready => onView onReady st
  | complete data => onView (onComplete data) st
  | Protocol.error data => onView (onError data) st
  end.

(** What [normalizeAudio] returns. *)
Record Normalized : Type := MkNormalized {
  normalizedData : Float32Array;
  peak : number;
  gain : number
}.

(** [normalizeAudio(audioData)], with the entries it adds to the log. *)
Definition normalizeAudio (audioData : Float32Array) (v : View)
  : Normalized * View :=
  let peak := peakFrom zero audioData in
  let sumSquared := sumSquaredFrom zero audioData in
  let rms := sqrt (div sumSquared (ofNat (length audioData))) in
  let targetLevel := lit_0_95 in
  let gain := one in
  if negb (isFinite peak) || strictEq peak zero then
    (MkNormalized audioData peak gain,
     addLog "Audio peak is zero or invalid." [] Log.error v)
  else
    let gain := div targetLevel peak in
    (MkNormalized (applyGain gain audioData) peak gain,
     addLog "Normalizing: Peak=, RMS= -> Gain=x" [peak; rms; gain] Log.info v).

(** The part of [processAudio] that follows the decoding of the blob:
    normalise the first channel and post it. *)
Definition sendDecoded (rawData : Float32Array) (st : Hook) : Hook :=
  let (n, v) := normalizeAudio rawData (view st) in
  postMessage (transcribe (normalizedData n))
    (MkHook
       (addLog "Sending  samples to worker" [ofNat (length (normalizedData n))]
          Log.info v)
       (worker st) (posted st)).

Definition resetTranscription (st : Hook) : Hook :=
  onView (fun v => setLogs [] (setError None (setTranscription (fun _ => []) v))) st.

End TranscribeHook.

(* ================================================================= *)
(** ** The hook that streams chunks (the second [useTranscribe]) *)

Module StreamingHook.
Import JsString Float Protocol HookCommon.

Definition CHUNK_DURATION_SEC : nat := 4.

Record Hook : Type := MkHook {
  view : View;
  (** [workerRef.current] is set *)
  worker : bool;
  (** what [postMessage] has sent to the worker, oldest first *)
  posted : list Request;
  (** [mediaStreamRef.current] is set *)
  mediaStream : bool;
  (** the sample rate of [audioContextRef.current], when it is set *)
  audioContext : option nat;
  (** [audioBufferRef.current] *)
  audioBuffer : Float32Array;
  (** the [isModelLoaded] that [onaudioprocess] sees: the one of the
      render in which [startRecording] was created *)
  loadedAtStart : bool;
  (** the chunks whose offline rendering has started and not settled *)
  rendering : list Float32Array
}.

Definition onView (f : View -> View) (st : Hook) : Hook :=
  MkHook (f (view st)) (worker st) (posted st) (mediaStream st)
    (audioContext st) (audioBuffer st) (loadedAtStart st) (rendering st).

Definition postMessage (r : Request) (st : Hook) : Hook :=
  MkHook (view st) (worker st) (posted st ++ [r]) (mediaStream st)
    (audioContext st) (audioBuffer st) (loadedAtStart st) (rendering st).

Definition setAudioBuffer (b : Float32Array) (st : Hook) : Hook :=
  MkHook (view st) (worker st) (posted st) (mediaStream st)
    (audioContext st) b (loadedAtStart st) (rendering st).

Definition setRendering (l : list Float32Array) (st : Hook) : Hook :=
  MkHook (view st) (worker st) (posted st) (mediaStream st)
    (audioContext st) (audioBuffer st) (loadedAtStart st) l.

(** The state once the effect that creates the worker has run. *)
Definition mounted : Hook :=
  postMessage configure
    (onView (setIsModelLoading true)
      (onView (addLog "Initializing worker thread..." [] Log.info)
        (MkHook initialView true [] false None [] false []))).

Definition onComplete (data : Output) (v : View) : View :=
  let v := setIsTranscribing false
             (addLog "Transcription completed" [] Log.success v) in
  match data with
  | Single (Some text) =>
    if nonEmpty text then setTranscription (fun _ => trim text) v else v
  | Single None => v
  | Segments l =>
    let text := join (str " ") (map segText l) in
    setTranscription (fun _ => trim text) v
  | Other => v
  end.

(** [workerRef.current.onmessage] *)
Definition onmessage (ev : WorkerEvent) (st : Hook) : Hook :=
  match ev with
  | download data => onView (onDownload data) st
  | ready => onView onReady st
  | complete data => onView (onComplete data) st
  | Protocol.error data => onView (onError data) st
  end.

(** [normalizeAndSendAudio(audioData)] up to its [await]: the guard, then
    the start of the offline rendering.  [loaded] is the [isModelLoaded]
    of the closure that makes the call. *)
Definition normalizeAndSendAudio (loaded : bool) (audioData : Float32Array)
    (st : Hook) : Hook :=
  if negb (worker st) || negb loaded then
    onView (addLog "Cannot process: Worker not ready" [] Log.error) st
  else setRendering (rendering st ++ [audioData]) st.

(** The normalization of the resampled data. *)
Definition normalize (resampledData : Float32Array) : Float32Array :=
  let peak := peakFrom zero resampledData in
  let gain := if gt peak zero then div lit_0_95 peak else one in
  applyGain gain resampledData.

(** [normalizeAndSendAudio] after its [await]: the rendering has settled
    with [resampledData], or has thrown ([None]).  A worker released in
    the meantime makes [postMessage] throw into the same [catch]. *)
Definition afterRendering (outcome : option Float32Array) (st : Hook) : Hook :=
  match outcome with
  | Some resampledData =>
    let normalized := normalize resampledData in
    let st := onView (setIsTranscribing true) st in
    let st := onView (addLog "Sending chunk to worker:  samples (s)"
                        [ofNat (length normalized);
                         div (ofNat (length normalized)) (ofZ 16000)]
                        Log.info) st in
    if worker st then postMessage (transcribe normalized) st
    else onView (addLog "Error preparing audio chunk" [] Log.error) st
  | None => onView (addLog "Error preparing audio chunk" [] Log.error) st
  end.

(** [scriptNode.onaudioprocess], for the context created with
    [sampleRate]. *)
Definition onaudioprocess (sampleRate : nat) (inputData : Float32Array)
    (st : Hook) : Hook :=
  let st := setAudioBuffer (audioBuffer st ++ inputData) st in
  let threshold := sampleRate * CHUNK_DURATION_SEC in
  if threshold <=? length (audioBuffer st) then
    let chunkToSend := audioBuffer st in
    let st := setAudioBuffer [] st in
    normalizeAndSendAudio (loadedAtStart st) chunkToSend st
  else st.

(** [startRecording]; [granted] is the sample rate of the new audio
    context when [getUserMedia] resolves, [None] when it rejects. *)
Definition startRecording (granted : option nat) (st : Hook) : Hook :=
  let st := onView (setTranscription (fun _ => [])) st in
  let st := onView (setError None) st in
  let st := setAudioBuffer [] st in
  match granted with
  | Some sampleRate =>
    onView (setIsRecording true)
      (onView (addLog "Microphone access granted & streaming started" []
                 Log.success)
        (MkHook (view st) (worker st) (posted st) true (Some sampleRate)
           (audioBuffer st) (isModelLoaded (view st)) (rendering st)))
  | None =>
    onView (addLog "Microphone access failed" [] Log.error)
      (onView (setError (Some (str "Could not access microphone"))) st)
  end.

(** [stopRecording] *)
Definition stopRecording (st : Hook) : Hook :=
  if mediaStream st then
    let st :=
      if 0 <? length (audioBuffer st) then
        let st := onView (addLog "Flushing remaining audio buffer..." []
                            Log.info) st in
        let st := normalizeAndSendAudio (isModelLoaded (view st))
                    (audioBuffer st) st in
        setAudioBuffer [] st
      else st in
    onView (addLog "Recording stopped" [] Log.info)
      (onView (setIsRecording false)
        (MkHook (view st) (worker st) (posted st) false None
           (audioBuffer st) (loadedAtStart st) (rendering st)))
  else st.

Definition resetTranscription (st : Hook) : Hook :=
  onView (fun v => setLogs [] (setError None (setTranscription (fun _ => []) v))) st.

(** What can happen to the hook once it is mounted. *)
Inductive Event : Type :=
| WorkerMessage (ev : WorkerEvent)
| StartRecording (granted : option nat)
| AudioProcess (inputData : Float32Array)
| StopRecording
| Rendered (i : nat) (outcome : option Float32Array)
| ResetTranscription.

(** Take the [i]-th element out of a list. *)
Fixpoint takeOut (A : Type) (i : nat) (l : list A) : option (A * list A) :=
  match l, i with
  | [], _ => None
  | x :: l', 0 => Some (x, l')
  | x :: l', S j =>
    match takeOut j l' with
    | Some (y, r) => Some (y, x :: r)
    | None => None
    end
  end.

(** One event.  The audio callback fires only while an audio context
    exists; [Rendered i] settles the [i]-th pending rendering. *)
Definition step (e : Event) (st : Hook) : Hook :=
  match e with
  | WorkerMessage ev => onmessage ev st
  | StartRecording granted => startRecording granted st
  | AudioProcess inputData =>
    match audioContext st with
    | Some sampleRate => onaudioprocess sampleRate inputData st
    | None => st
    end
  | StopRecording => stopRecording st
  | Rendered i outcome =>
    match takeOut i (rendering st) with
    | Some (_, rest) => afterRendering outcome (setRendering rest st)
    | None => st
    end
  | ResetTranscription => resetTranscription st
  end.

Definition run (t : list Event) : Hook := fold_left (fun st e => step e st) t mounted.

(** Requests sent and answers received along a trace. *)
Definition sent (st : Hook) : nat := length (filter isTranscribe (posted st)).

Definition isAnswer (e : Event) : bool :=
  match e with
  | WorkerMessage (complete _) | WorkerMessage (Protocol.error _) => true
  | _ => false
  end.

Definition answered (t : list Event) : nat := length (filter isAnswer t).

(** The transcribe requests that are outstanding after a trace. *)
Definition outstanding (t : list Event) : nat := sent (run t) - answered t.

End StreamingHook.

(* ================================================================= *)
(** ** The inference worker ([src/worker.ts]) *)

Module Worker.
Import JsString Float Protocol.

(** A thrown value, as the [catch] blocks of the listener use it: they
    read [(error as Error).message] and post it as the [data] of an
    [error] message.  What is thrown need not be an [Error]:
    - [ErrorObject]: an [Error], or any object whose [message] is a
      string;
    - [OtherMessage]: a value whose [message] is no string but can be
      posted, [undefined] for a thrown string, number or boolean and for
      an object without the property;
    - [Unclonable]: an object whose [message] the structured clone of
      [postMessage] refuses (a function, a symbol);
    - [Nullish]: [null] or [undefined], on which reading [message] throws
      a [TypeError]. *)
Inductive Thrown : Type :=
| ErrorObject (message : jsstring)
| OtherMessage
| Unclonable
| Nullish.

(** How a computation ends: with a value, or with an exception on its way
    up. *)
Inductive Completion (A : Type) : Type :=
| Normal (a : A)
| Throw (e : Thrown).
Arguments Normal {A} a.
Arguments Throw {A} e.

Section Listener.

(** The inference engine, an external collaborator. *)
Variable Pipeline : Type.

(** What [pipeline(...)] does when awaited: the data it hands to the
    progress callback, then an instance or an exception. *)
Variable pipeline : list Progress * Completion Pipeline.

(** What an instance does when called on samples and a language. *)
Variable call : Pipeline -> Float32Array -> jsstring -> Completion Output.

(** Whether the structured clone of [postMessage] accepts an output; it
    throws a [DataCloneError] otherwise. *)
Variable cloneable : Output -> bool.

(** The messages of the [DataCloneError] of [postMessage] and of the
    [TypeError] of a property read on [null] or [undefined]; their texts
    are the engine's. *)
Variable dataCloneMessage : jsstring.
Variable typeErrorMessage : jsstring.

Definition dataCloneError : Thrown := ErrorObject dataCloneMessage.
Definition typeError : Thrown := ErrorObject typeErrorMessage.

(** The worker: [PipelineSingleton.instance], and what it has posted to
    the main thread, oldest first. *)
Record State : Type := MkState {
  instance : option Pipeline;
  outbox : list WorkerEvent
}.

(** Computations of the worker: state passing, with exceptions. *)
Definition M (A : Type) : Type := State -> Completion A * State.

Definition ret (A : Type) (a : A) : M A := fun st => (Normal a, st).

Definition bind (A B : Type) (m : M A) (f : A -> M B) : M B :=
  fun st =>
    match m st with
    | (Normal a, st') => f a st'
    | (Throw e, st') => (Throw e, st')
    end.

Definition throw (A : Type) (e : Thrown) : M A := fun st => (Throw e, st).

(** [try { body } catch (error) { handler(error) }] *)
Definition tryCatch (A : Type) (body : M A) (handler : Thrown -> M A) : M A :=
  fun st =>
    match body st with
    | (Normal a, st') => (Normal a, st')
    | (Throw e, st') => handler e st'
    end.

Notation "x <- m ;; f" := (bind m (fun x => f))
  (at level 61, m at next level, right associativity).
Notation "m ;;; f" := (bind m (fun _ => f))
  (at level 61, right associativity).

(** [self.postMessage(msg)] *)
Definition postMessage (msg : WorkerEvent) : M unit :=
  fun st =>
    match msg with
    | complete data =>
      if cloneable data then (Normal tt, MkState (instance st) (outbox st ++ [msg]))
      else (Throw dataCloneError, st)
    | _ => (Normal tt, MkState (instance st) (outbox st ++ [msg]))
    end.

Fixpoint forEach (A : Type) (f : A -> M unit) (l : list A) : M unit :=
  match l with
  | [] => ret tt
  | x :: l' => f x ;;; forEach f l'
  end.

(** [PipelineSingleton.getInstance(progress_callback)] *)
Definition getInstance (progress_callback : option (Progress -> M unit))
  : M Pipeline :=
  fun st =>
    match instance st with
    | None =>
      (match progress_callback with
       | Some cb => forEach cb (fst pipeline)
       | None => ret tt
       end ;;;
       fun st' =>
         match snd pipeline with
         | Normal p => (Normal p, MkState (Some p) (outbox st'))
         | Throw e => (Throw e, st')
         end) st
    | Some p => (Normal p, st)
    end.

(** [self.postMessage({ type: 'error', data: (error as Error).message })]:
    the [message] is read first, then the object is posted. *)
Definition report (e : Thrown) : M unit :=
  match e with
  | ErrorObject message => postMessage (error (Reason message))
  | OtherMessage => postMessage (error NoReason)
  | Unclonable => throw unit dataCloneError
  | Nullish => throw unit typeError
  end.

Definition hasType (ev : Request) (t : string) : bool :=
  if list_eq_dec N.eq_dec (reqType ev) (str t) then true else false.

(** The listener of ["message"]: the body of the [async] function, run to
    its end.  [Throw] as its completion is a rejection that nothing
    handles: an exception that leaves the worker. *)
Definition listener (ev : Request) : M unit :=
  if hasType ev "configure" then
    tryCatch
      (_ <- getInstance (Some (fun data => postMessage (download data))) ;;
       postMessage ready)
      (fun error => report error)
  else if hasType ev "transcribe" then
    match audio ev with
    | None => postMessage (error (Reason (str "No audio data provided")))
    | Some audio =>
      tryCatch
        (transcriber <- getInstance None ;;
         output <- (fun st =>
                      (call transcriber audio
                         match language ev with
                         | Some l => if HookCommon.nonEmpty l then l else str "english"
                         | None => str "english"
                         end, st)) ;;
         postMessage (complete output))
        (fun error => report error)
    end
  else ret tt.

End Listener.

End Worker.

(* ================================================================= *)
(** ** Vocabulary of the properties *)

Module Vocabulary.
Import JsString Regex CorrectionEngine.

(** What a pattern may consume, read off its syntax: from the input
    [t ++ post] that follows [pre] (most recent first), with captures
    [cs], the pattern [r] can consume [t] and leave the captures [cs']. *)
Fixpoint Sem (ic : bool) (r : regex) (pre : list char) (t : jsstring)
    (post : list char) (cs cs' : captures) : Prop :=
  match r with
  | Eps => t = [] /\ cs' = cs
  | Atom a => exists c, t = [c] /\ atomb ic a c = true /\ cs' = cs
  | Rep lo hi a =>
    Forall (fun c => atomb ic a c = true) t /\ lo <= length t /\
    match hi with Some h => length t <= h | None => True end /\ cs' = cs
  | Seq r1 r2 =>
    exists t1 t2 cs1,
      t = t1 ++ t2 /\ Sem ic r1 pre t1 (t2 ++ post) cs cs1 /\
      Sem ic r2 (rev t1 ++ pre) t2 post cs1 cs'
  | Alt r1 r2 => Sem ic r1 pre t post cs cs' \/ Sem ic r2 pre t post cs cs'
  | Grp n r => exists cs1, Sem ic r pre t post cs cs1 /\ cs' = (n, t) :: cs1
  | Ref n =>
    match getcap n cs with
    | None => t = []
    | Some u => Forall2 (fun x c => char_eqb ic x c = true) u t
    end /\ cs' = cs
  | WordB => t = [] /\ cs' = cs /\ xorb (isWordAt pre) (isWordAt post) = true
  | Bol => t = [] /\ cs' = cs /\ pre = []
  | Eol => t = [] /\ cs' = cs /\ post = []
  end.


Definition matchesAtb (p : pattern) (s : jsstring) (i : nat) : bool :=
  match execAt p (rev (firstn i s)) (skipn i s) i with
  | Some _ => true
  | None => false
  end.

Definition lastChar (s : jsstring) : option char := hd_error (rev s).

Definition lastNonSpace (s : jsstring) : option char :=
  find (fun c => negb (isSpace c)) (rev s).

(** How a string ends once trailing white space is set aside: with one of
    [.!?] ([Some true]), with another character ([Some false]), or not at
    all ([None]). *)
Definition ending (s : jsstring) : option bool :=
  option_map (oneOf ".!?") (lastNonSpace s).

(** The string ends in ['.'], ['!'] or ['?']. *)
Definition endsWithMark (s : jsstring) : Prop :=
  exists c, lastChar s = Some c /\ oneOf ".!?" c = true.





(** A buffer of zeros, of either sign. *)
Definition allZero (data : Float.Float32Array) : bool :=
  forallb (fun x => match x with S754_zero _ => true | _ => false end) data.

Definition isErrorLog (l : HookCommon.DebugLog) : bool :=
  match HookCommon.type l with
  | HookCommon.Log.error => true
  | _ => false
  end.

(** At most one transcribe request is outstanding at every point of a
    trace of the streaming hook. *)
Definition oneAtATime (t : list StreamingHook.Event) : Prop :=
  forall p q, t = p ++ q -> StreamingHook.outstanding p <= 1.

(** A progress report of the model download. *)
Definition isDownload (ev : Protocol.WorkerEvent) : bool :=
  match ev with Protocol.download _ => true | _ => false end.

(** *** Numbers *)

(** An element of a [Float32Array]: a store leaves it as it is. *)
Definition isFloat32 (x : spec_float) : Prop := Float.fround x = x.

(** What a rounding to the format of precision [prec] with exponents
    below [emax] returns, once the mantissa [m2] has been chosen at the
    exponent [e0] of the format: the mantissa [2 ^ prec] loses its last
    digit, and an exponent out of range gives an infinity. *)
Definition finish (prec emax : Z) (s : bool) (m2 e0 : Z) : spec_float :=
  (if m2 =? 0 then S754_zero s
   else if m2 =? 2 ^ prec then
     if e0 + 1 <=? emax - prec
     then S754_finite s (Z.to_pos (2 ^ (prec - 1))) (e0 + 1)
     else S754_infinity s
   else
     if e0 <=? emax - prec then S754_finite s (Z.to_pos m2) e0
     else S754_infinity s)%Z.

(** The magnitude of a number in units of [2 ^ -1074], the smallest
    positive binary64 value; NaN lies below every magnitude, the
    infinities above those of the binary32 values. *)
Definition mag (x : spec_float) : Z :=
  match x with
  | S754_zero _ => 0
  | S754_finite _ m e => Z.pos m * 2 ^ (e + 1074)
  | S754_infinity _ => 2 ^ 1300
  | S754_nan => -1
  end%Z.

(** The shape of a binary32 value read as a binary64 value: a mantissa
    of 53 digits, an exponent between those of [2 ^ -149] and of the
    largest binary32 value. *)
Definition stored (x : spec_float) : Prop :=
  match x with
  | S754_finite _ m e => Z.pos (digits2_pos m) = 53 /\ -201 <= e <= 75
  | _ => True
  end%Z.

(** The absolute value of such a value, NaN apart. *)
Definition level (x : spec_float) : Prop :=
  match x with
  | S754_zero s | S754_infinity s => s = false
  | S754_finite s m e =>
    s = false /\ Z.pos (digits2_pos m) = 53 /\ -201 <= e <= 75
  | S754_nan => False
  end%Z.

(** A stored value, not an infinity, of magnitude [bound] at most. *)
Definition below (bound : Z) (x : spec_float) : Prop :=
  match x with
  | S754_infinity _ => False
  | _ => stored x /\ (mag x <= bound)%Z
  end.

End Vocabulary.

(* ================================================================= *)
(** ** Similarity of embeddings ([src/lib/correctionEngine.ts]) *)

Module Similarity.
Import Float.

(** The loop of [cosineSimilarity]: [dotProduct], [normA] and [normB]
    after the elements of [a] and [b], taken in step. *)
Fixpoint accumulate (a b : list number) (dotProduct normA normB : number)
  : number * number * number :=
  match a, b with
  | x :: a', y :: b' =>
    accumulate a' b' (add dotProduct (mul x y)) (add normA (mul x x))
      (add normB (mul y y))
  | _, _ => (dotProduct, normA, normB)
  end.

(** [cosineSimilarity(a, b)] *)
Definition cosineSimilarity (a b : list number) : number :=
  if negb (length a =? length b) then zero
  else
    let '(dotProduct, normA, normB) := accumulate a b zero zero zero in
    let denominator := mul (sqrt normA) (sqrt normB) in
    if strictEq denominator zero then zero else div dotProduct denominator.

End Similarity.

(* ================================================================= *)
(** ** Sentences ([src/lib/correctionEngine.ts]) *)

Module Sentences.
Import JsString Regex.

(** The look-behind [(?<=[.!?])]: the character before the position is
    one of the three marks. *)
Definition afterMark (pre : list char) : bool :=
  match pre with
  | c :: _ => oneOf ".!?" c
  | [] => false
  end.

(** [\s+] *)
Definition gap : pattern := Pattern (Rep 1 None (Cls isSpace)) false.

(** [/(?<=[.!?])\s+/] tried at one position: [pre] holds the characters
    before it, most recent first. *)
Definition gapAt (pre rest : list char) (i : nat) : option MatchResult :=
  if afterMark pre then execAt gap pre rest i else None.

(** The loop of [String.prototype.split] for a separator without groups,
    tried at every position [q] from the start [p] of the current piece:
    [cur] holds the piece so far (most recent first), [skip] the code
    units of the last separator that are still to be passed.  A match that
    ends at [p] moves [q] one code unit on; any other match closes the
    piece and starts the next one at its end. *)
Fixpoint splitFrom (sep : list char -> list char -> nat -> option MatchResult)
    (skip : nat) (cur pre rest : list char) (i : nat) : list jsstring :=
  match rest with
  | [] => [rev cur]
  | c :: rest' =>
    match skip with
    | S k => splitFrom sep k cur (c :: pre) rest' (S i)
    | 0 =>
      match sep pre rest i with
      | Some m =>
        match length (text m) with
        | 0 =>
          match cur with
          | [] => splitFrom sep 0 [c] (c :: pre) rest' (S i)
          | _ :: _ => rev cur :: splitFrom sep 0 [c] (c :: pre) rest' (S i)
          end
        | S k => rev cur :: splitFrom sep k [] (c :: pre) rest' (S i)
        end
      | None => splitFrom sep 0 (c :: cur) (c :: pre) rest' (S i)
      end
    end
  end.

(** [s.split(separator)]; the empty string gives no piece when the
    separator matches it, and itself otherwise. *)
Definition splitBy (sep : list char -> list char -> nat -> option MatchResult)
    (s : jsstring) : list jsstring :=
  match s with
  | [] => match sep [] [] 0 with Some _ => [] | None => [[]] end
  | _ :: _ => splitFrom sep 0 [] [] s 0
  end.

(** [splitIntoSentences(text)] *)
Definition splitIntoSentences (text : jsstring) : list jsstring :=
  filter (fun s => 0 <? length (trim s)) (splitBy gapAt text).

End Sentences.

(* ================================================================= *)
(** ** Vocabulary of the further properties *)

Module Notions.
Import JsString Regex CorrectionEngine Float Protocol HookCommon StreamingHook.

(** No two neighbours of the string are a [bad] pair. *)
Fixpoint noPair (bad : char -> char -> bool) (s : jsstring) : bool :=
  match s with
  | a :: t =>
    match t with
    | b :: _ => negb (bad a b) && noPair bad t
    | [] => true
    end
  | [] => true
  end.

(** The last character of [x] and the first of [y] are no [bad] pair. *)
Definition okAt (bad : char -> char -> bool) (x y : list char) : bool :=
  match rev x, y with
  | a :: _, b :: _ => negb (bad a b)
  | _, _ => true
  end.

(** No white space next to white space. *)
Definition noDoubleSpace : jsstring -> bool :=
  noPair (fun a b => isSpace a && isSpace b).

(** No white space right before a comma or a period. *)
Definition noSpaceBeforeMark : jsstring -> bool :=
  noPair (fun a b => isSpace a && oneOf ",." b).

(** The first character is white space. *)
Definition isSpaceAt (l : list char) : bool :=
  match l with
  | c :: _ => isSpace c
  | [] => false
  end.

(** The first character is a comma or a period. *)
Definition isMarkAt (l : list char) : bool :=
  match l with
  | c :: _ => oneOf ",." c
  | [] => false
  end.

(** The characters of a text that are not white space. *)
Definition ink (s : jsstring) : jsstring := filter (fun c => negb (isSpace c)) s.

(** A replacement [r] of a matched text [t] that cannot bring white space
    next to white space: neither is empty, [r] has no such pair when [t]
    has none, and [r] starts or ends with white space only where [t]
    does. *)
Definition safe (t r : jsstring) : Prop :=
  t <> [] /\ r <> [] /\
  (noDoubleSpace t = true -> noDoubleSpace r = true) /\
  (isSpaceAt r = true -> isSpaceAt t = true) /\
  (isSpaceAt (rev r) = true -> isSpaceAt (rev t) = true).

(** Every text that the pattern can consume holds a character that is
    not white space. *)
Fixpoint solid (ic : bool) (r : regex) : Prop :=
  match r with
  | Atom a => forall c, atomb ic a c = true -> isSpace c = false
  | Rep lo _ a => 1 <= lo /\ forall c, atomb ic a c = true -> isSpace c = false
  | Seq r1 r2 => solid ic r1 \/ solid ic r2
  | Alt r1 r2 => solid ic r1 /\ solid ic r2
  | Grp _ r => solid ic r
  | _ => False
  end.

(** The input [tail] does not go on with the pattern character [a]. *)
Definition stops (ic : bool) (a : atom) (tail : list char) : Prop :=
  match tail with
  | d :: _ => atomb ic a d = false
  | [] => True
  end.

(** A buffer whose samples are zeros and NaN. *)
Definition zeroOrNaN (data : Float32Array) : bool :=
  forallb (fun x => match x with S754_zero _ | S754_nan => true | _ => false end) data.

(** What the gain 0 makes of a sample. *)
Definition silenced (x : spec_float) : spec_float :=
  match x with
  | S754_zero s | S754_finite s _ _ => S754_zero s
  | _ => S754_nan
  end.

(** The samples of a rendering that settles with a result. *)
Definition settled (e : Event) : option Float32Array :=
  match e with
  | Rendered _ (Some r) => Some r
  | _ => None
  end.

(** The state of a hook that has had no [ready] message. *)
Definition cold (st : Hook) : Prop :=
  isModelLoaded (view st) = false /\ loadedAtStart st = false /\
  rendering st = [] /\ posted st = [configure].


(** A thrown value with a string as its [message]: an [Error]. *)
Definition hasMessage (e : Worker.Thrown) : Prop :=
  match e with
  | Worker.ErrorObject _ => True
  | _ => False
  end.

(** A computation that ends normally or throws a value that is [P]. *)
Definition failsWith (A : Type) (P : Worker.Thrown -> Prop)
    (c : Worker.Completion A) : Prop :=
  match c with
  | Worker.Normal _ => True
  | Worker.Throw e => P e
  end.

End Notions.

(* ################################################################# *)
(** * Part II: properties *)

Unset Implicit Arguments.

(* ================================================================= *)
(** ** Strings *)

Module JsStringFacts.
Import JsString Vocabulary.

Lemma lastNonSpace_app (x y : jsstring) :
  lastNonSpace (x ++ y) =
  match lastNonSpace y with
  | Some c => Some c
  | None => lastNonSpace x
  end.
Proof.
  unfold lastNonSpace. rewrite rev_app_distr.
  induction (rev y) as [|c l IH]; simpl; [reflexivity|].
  destruct (negb (isSpace c)); [reflexivity|exact IH].
Qed.

Lemma ending_app (x y : jsstring) :
  ending (x ++ y) =
  match ending y with
  | Some b => Some b
  | None => ending x
  end.
Proof.
  unfold ending. rewrite lastNonSpace_app.
  destruct (lastNonSpace y); reflexivity.
Qed.

Lemma ending_nil : ending [] = None.
Proof. reflexivity. Qed.

Lemma ending_spaces (s : jsstring) :
  Forall (fun c => isSpace c = true) s -> ending s = None.
Proof.
  induction 1 as [|c s Hc _ IH]; [reflexivity|].
  change (c :: s) with ([c] ++ s). rewrite ending_app, IH.
  unfold ending, lastNonSpace. simpl. rewrite Hc. reflexivity.
Qed.

Lemma ending_single (c : char) :
  isSpace c = false -> ending [c] = Some (Regex.oneOf ".!?" c).
Proof.
  intros H. unfold ending, lastNonSpace. simpl. rewrite H. reflexivity.
Qed.

Lemma ending_snoc (s : jsstring) (c : char) :
  isSpace c = false -> ending (s ++ [c]) = Some (Regex.oneOf ".!?" c).
Proof. intros H. rewrite ending_app, ending_single; auto. Qed.

Lemma find_trimStart (l : jsstring) :
  hd_error (trimStart l) = find (fun c => negb (isSpace c)) l.
Proof.
  induction l as [|c l IH]; simpl; [reflexivity|].
  destruct (isSpace c); simpl; auto.
Qed.

Lemma lastChar_trimEnd (s : jsstring) : lastChar (trimEnd s) = lastNonSpace s.
Proof.
  unfold lastChar, trimEnd, lastNonSpace.
  rewrite rev_involutive. apply find_trimStart.
Qed.

Lemma trimStart_split (s : jsstring) :
  exists w, s = w ++ trimStart s /\ Forall (fun c => isSpace c = true) w.
Proof.
  induction s as [|c s (w & Hs & Hw)]; simpl.
  - exists []. split; [reflexivity|constructor].
  - destruct (isSpace c) eqn:E.
    + exists (c :: w). split; [simpl; congruence|constructor; assumption].
    + exists []. split; [reflexivity|constructor].
Qed.

Lemma lastNonSpace_spaces (w : jsstring) :
  Forall (fun c => isSpace c = true) w -> lastNonSpace w = None.
Proof.
  induction 1 as [|c s Hc _ IH]; [reflexivity|].
  change (c :: s) with ([c] ++ s). rewrite lastNonSpace_app, IH.
  unfold lastNonSpace. simpl. rewrite Hc. reflexivity.
Qed.

Lemma lastNonSpace_trimStart (s : jsstring) :
  lastNonSpace (trimStart s) = lastNonSpace s.
Proof.
  destruct (trimStart_split s) as (w & Hs & Hw).
  rewrite Hs at 2. rewrite lastNonSpace_app.
  destruct (lastNonSpace (trimStart s)); [reflexivity|].
  symmetry. apply lastNonSpace_spaces, Hw.
Qed.

(** The last character of the trimmed string is the last character of the
    string that is not white space. *)
Lemma lastChar_trim (s : jsstring) : lastChar (trim s) = lastNonSpace s.
Proof.
  unfold trim. rewrite lastChar_trimEnd. apply lastNonSpace_trimStart.
Qed.

Lemma lastChar_snoc (s : jsstring) (c : char) : lastChar (s ++ [c]) = Some c.
Proof. unfold lastChar. rewrite rev_app_distr. reflexivity. Qed.

Lemma lastChar_nil_iff (s : jsstring) : lastChar s = None <-> s = [].
Proof.
  unfold lastChar. split.
  - destruct s as [|c s] using rev_ind; [reflexivity|].
    rewrite rev_app_distr. discriminate.
  - intros ->. reflexivity.
Qed.

Lemma trimEnd_split (s : jsstring) :
  exists w, s = trimEnd s ++ w /\ Forall (fun c => isSpace c = true) w.
Proof.
  unfold trimEnd. destruct (trimStart_split (rev s)) as (w & Hs & Hw).
  exists (rev w). split.
  - rewrite <- rev_app_distr, <- Hs, rev_involutive. reflexivity.
  - apply Forall_rev, Hw.
Qed.

End JsStringFacts.

(* ================================================================= *)
(** ** The matcher *)

Module RegexFacts.
Import JsString Regex Vocabulary JsStringFacts.

Lemma consumed_app (pre t post : list char) (cs cs' : captures) (pre' : list char) :
  consumed (MState pre (t ++ post) cs) (MState pre' post cs') = t.
Proof.
  unfold consumed. simpl. rewrite length_app.
  replace (length t + length post - length post) with (length t) by lia.
  rewrite firstn_app, Nat.sub_diag, firstn_all. simpl. apply app_nil_r.
Qed.

Lemma repeatMatcher_sound (ic : bool) (a : atom) (k : mstate -> option mstate)
    (cs : captures) (stf : mstate) :
  forall rest lo hi pre,
    repeatMatcher ic a lo hi k pre rest cs = Some stf ->
    exists t post,
      rest = t ++ post /\
      Forall (fun c => atomb ic a c = true) t /\
      lo <= length t /\
      match hi with Some h => length t <= h | None => True end /\
      k (MState (rev t ++ pre) post cs) = Some stf.
Proof.
  assert (Hstop : forall lo (hi : option nat) pre rest,
    (if Nat.eqb lo 0 then k (MState pre rest cs) else None) = Some stf ->
    exists t post,
      rest = t ++ post /\
      Forall (fun c => atomb ic a c = true) t /\
      lo <= length t /\
      match hi with Some h => length t <= h | None => True end /\
      k (MState (rev t ++ pre) post cs) = Some stf).
  { intros lo hi pre rest H. destruct (Nat.eqb lo 0) eqn:E; [|discriminate].
    apply Nat.eqb_eq in E. subst lo. exists [], rest. simpl.
    repeat split; auto. destruct hi; simpl; auto with arith. }
  induction rest as [|c rest IH]; intros lo hi pre H.
  - simpl in H. apply (Hstop lo hi). destruct hi as [[|h]|]; exact H.
  - simpl in H.
    assert (Hmore :
      (if atomb ic a c then
         match repeatMatcher ic a (pred lo) (option_map pred hi) k (c :: pre) rest cs with
         | Some s => Some s
         | None => if Nat.eqb lo 0 then k (MState pre (c :: rest) cs) else None
         end
       else if Nat.eqb lo 0 then k (MState pre (c :: rest) cs) else None) = Some stf ->
      hi <> Some 0 ->
      exists t post,
        c :: rest = t ++ post /\
        Forall (fun c => atomb ic a c = true) t /\
        lo <= length t /\
        match hi with Some h => length t <= h | None => True end /\
        k (MState (rev t ++ pre) post cs) = Some stf).
    { intros H' Hhi. destruct (atomb ic a c) eqn:Ea; [|apply (Hstop lo hi); exact H'].
      destruct (repeatMatcher ic a (pred lo) (option_map pred hi) k (c :: pre) rest cs)
        as [s|] eqn:Er; [|apply (Hstop lo hi); exact H'].
      injection H' as ->.
      destruct (IH _ _ _ Er) as (t & post & Hr & Ht & Hlo & Hh & Hk).
      exists (c :: t), post. simpl. rewrite <- app_assoc. simpl.
      repeat split; auto.
      - congruence.
      - lia.
      - destruct hi as [[|h]|]; simpl in *; auto; [congruence|lia]. }
    destruct hi as [[|h]|].
    + apply (Hstop lo (Some 0)). exact H.
    + apply Hmore; [exact H|discriminate].
    + apply Hmore; [exact H|discriminate].
Qed.

Lemma eat_sound (ic : bool) :
  forall u pre rest pre' rest',
    eat ic u pre rest = Some (pre', rest') ->
    exists t, rest = t ++ rest' /\ pre' = rev t ++ pre /\
              Forall2 (fun x c => char_eqb ic x c = true) u t.
Proof.
  induction u as [|x u IH]; intros pre rest pre' rest' H; simpl in H.
  - injection H as <- <-. exists []. repeat split. constructor.
  - destruct rest as [|c rest]; [discriminate|].
    destruct (char_eqb ic x c) eqn:E; [|discriminate].
    destruct (IH _ _ _ _ H) as (t & Hr & Hp & Hf).
    exists (c :: t). simpl. rewrite <- app_assoc. simpl.
    repeat split; [congruence|assumption|]. constructor; assumption.
Qed.

(** Soundness of the matcher: a run that succeeds has consumed a text
    that the pattern allows, and has handed the state after it to the
    continuation. *)
Lemma run_sound (ic : bool) :
  forall r k pre s cs stf,
    run ic r k (MState pre s cs) = Some stf ->
    exists t post cs',
      s = t ++ post /\ Sem ic r pre t post cs cs' /\
      k (MState (rev t ++ pre) post cs') = Some stf.
Proof.
  induction r as [|a|lo hi a|r1 IH1 r2 IH2|r1 IH1 r2 IH2|n r IH|n| | |];
    intros k pre s cs stf H; simpl in H.
  - exists [], s, cs. simpl. repeat split; auto.
  - destruct s as [|c s]; [discriminate|].
    destruct (atomb ic a c) eqn:E; [|discriminate].
    exists [c], s, cs. simpl. repeat split; eauto.
  - destruct (repeatMatcher_sound _ _ _ _ _ _ _ _ _ H)
      as (t & post & Hs & Ht & Hlo & Hhi & Hk).
    exists t, post, cs. simpl. repeat split; auto.
  - destruct (IH1 _ _ _ _ _ H) as (t1 & post1 & cs1 & Hs1 & Hm1 & H1).
    destruct (IH2 _ _ _ _ _ H1) as (t2 & post & cs' & Hs2 & Hm2 & H2).
    subst post1. exists (t1 ++ t2), post, cs'. split; [|split].
    + rewrite <- app_assoc. exact Hs1.
    + simpl. exists t1, t2, cs1. auto.
    + rewrite rev_app_distr, <- app_assoc. exact H2.
  - destruct (run ic r1 k (MState pre s cs)) as [st|] eqn:E.
    + injection H as ->.
      destruct (IH1 _ _ _ _ _ E) as (t & post & cs' & Hs & Hm & Hk).
      exists t, post, cs'. simpl. repeat split; auto.
    + destruct (IH2 _ _ _ _ _ H) as (t & post & cs' & Hs & Hm & Hk).
      exists t, post, cs'. simpl. repeat split; auto.
  - destruct (IH _ _ _ _ _ H) as (t & post & cs1 & Hs & Hm & Hk).
    simpl in Hk. subst s. rewrite consumed_app in Hk.
    exists t, post, ((n, t) :: cs1). simpl. eauto.
  - destruct (getcap n cs) as [u|] eqn:E.
    + destruct (eat ic u pre s) as [[pre' rest']|] eqn:Ee; [|discriminate].
      destruct (eat_sound _ _ _ _ _ _ Ee) as (t & Hs & Hp & Hf).
      subst pre'. exists t, rest', cs. simpl. rewrite E. repeat split; auto.
    + exists [], s, cs. simpl. rewrite E. repeat split; auto.
  - unfold wordBoundary in H. simpl in H.
    destruct (xorb (isWordAt pre) (isWordAt s)) eqn:E; [|discriminate].
    exists [], s, cs. simpl. repeat split; auto.
  - destruct pre; [|discriminate]. exists [], s, cs. simpl. repeat split; auto.
  - destruct s; [|discriminate]. exists [], [], cs. simpl. repeat split; auto.
Qed.

(** A match found at a position: its text starts the input there and is
    one that the pattern allows. *)
Lemma execAt_sound (p : pattern) (pre rest : list char) (i : nat) (m : MatchResult) :
  execAt p pre rest i = Some m ->
  index m = i /\
  exists post,
    rest = text m ++ post /\
    Sem (ignoreCase p) (body p) pre (text m) post [] (groups m).
Proof.
  unfold execAt. intros H.
  destruct (run (ignoreCase p) (body p) Some (MState pre rest [])) as [st|] eqn:E;
    [|discriminate].
  injection H as <-. simpl. split; [reflexivity|].
  destruct (run_sound _ _ _ _ _ _ _ E) as (t & post & cs' & Hs & Hm & Hk).
  injection Hk as <-. subst rest. rewrite consumed_app. simpl. eauto.
Qed.

Lemma execAt_text_length (p : pattern) (pre rest : list char) (i : nat) (m : MatchResult) :
  execAt p pre rest i = Some m -> length (text m) <= length rest.
Proof.
  intros H. destruct (execAt_sound _ _ _ _ _ H) as (_ & post & Hr & _).
  rewrite Hr, length_app. lia.
Qed.

Lemma execAt_firstn (p : pattern) (pre rest : list char) (i : nat) (m : MatchResult) :
  execAt p pre rest i = Some m -> firstn (length (text m)) rest = text m.
Proof.
  intros H. destruct (execAt_sound _ _ _ _ _ H) as (_ & post & Hr & _).
  rewrite Hr, firstn_app, Nat.sub_diag, firstn_all. simpl.
  apply app_nil_r.
Qed.

End RegexFacts.

(* ================================================================= *)
(** ** Searching and replacing *)

Module ScanFacts.
Import JsString Regex Vocabulary JsStringFacts RegexFacts.

Section Replace.
Variable A : Type.
Variable p : pattern.
Variable f : MatchResult -> jsstring * list A.

(** A replacer that keeps the ending of every match keeps the ending of
    the string. *)
Hypothesis f_ending :
  forall pre rest i m,
    execAt p pre rest i = Some m -> ending (fst (f m)) = ending (text m).

Lemma replaceFrom_ending :
  forall rest skip pre i,
    skip <= length rest ->
    ending (fst (replaceFrom p f skip pre rest i)) = ending (skipn skip rest).
Proof.
  induction rest as [|c rest IH]; intros skip pre i Hskip; simpl in Hskip.
  - assert (skip = 0) by lia. subst skip. simpl.
    destruct (execAt p pre [] i) as [m|] eqn:E; [|reflexivity].
    rewrite (f_ending _ _ _ _ E).
    pose proof (execAt_text_length _ _ _ _ _ E) as Hl. simpl in Hl.
    destruct (text m); [reflexivity|simpl in Hl; lia].
  - destruct skip as [|k]; simpl.
    + destruct (execAt p pre (c :: rest) i) as [m|] eqn:E.
      * pose proof (f_ending _ _ _ _ E) as He.
        pose proof (execAt_text_length _ _ _ _ _ E) as Hl. simpl in Hl.
        pose proof (execAt_firstn _ _ _ _ _ E) as Hf.
        destruct (f m) as [out rec]. simpl in He.
        destruct (length (text m)) as [|k] eqn:El.
        -- destruct (replaceFrom p f 0 (c :: pre) rest (S i)) as [out' rec'] eqn:Er.
           simpl. rewrite ending_app.
           pose proof (IH 0 (c :: pre) (S i) (Nat.le_0_l _)) as IH0.
           rewrite Er in IH0. simpl in IH0.
           change (c :: out') with ([c] ++ out').
           change (c :: rest) with ([c] ++ rest).
           rewrite !ending_app, IH0.
           destruct (text m); [|discriminate]. rewrite He. simpl.
           destruct (ending rest); [reflexivity|]. destruct (ending [c]); reflexivity.
        -- destruct (replaceFrom p f k (c :: pre) rest (S i)) as [out' rec'] eqn:Er.
           simpl. rewrite ending_app.
           assert (Hk : k <= length rest) by lia.
           pose proof (IH k (c :: pre) (S i) Hk) as IHk.
           rewrite Er in IHk. simpl in IHk.
           assert (Hsplit : c :: rest = text m ++ skipn k rest).
           { rewrite <- Hf. symmetry. apply (firstn_skipn (S k) (c :: rest)). }
           rewrite IHk, He, Hsplit, ending_app. reflexivity.
      * destruct (replaceFrom p f 0 (c :: pre) rest (S i)) as [out' rec'] eqn:Er.
        simpl.
        pose proof (IH 0 (c :: pre) (S i) (Nat.le_0_l _)) as IH0.
        rewrite Er in IH0. simpl in IH0.
        change (c :: out') with ([c] ++ out').
        change (c :: rest) with ([c] ++ rest).
        rewrite !ending_app, IH0. reflexivity.
    + apply IH. lia.
Qed.

Lemma replaceWith_ending (s : jsstring) :
  ending (fst (replaceWith p f s)) = ending s.
Proof. unfold replaceWith. apply (replaceFrom_ending s 0 [] 0). lia. Qed.


End Replace.





(** The match that [test] finds is a match of the pattern somewhere in
    the string. *)
Lemma searchFrom_sound (p : pattern) :
  forall rest pre i m,
    searchFrom p pre rest i = Some m ->
    exists a b, rest = a ++ b /\ execAt p (rev a ++ pre) b (i + length a) = Some m.
Proof.
  induction rest as [|c rest IH]; intros pre i m H; simpl in H.
  - destruct (execAt p pre [] i) as [m'|] eqn:E; [|discriminate].
    injection H as <-. exists [], []. simpl. rewrite Nat.add_0_r. auto.
  - destruct (execAt p pre (c :: rest) i) as [m'|] eqn:E.
    + injection H as <-. exists [], (c :: rest). simpl. rewrite Nat.add_0_r. auto.
    + destruct (IH _ _ _ H) as (a & b & Hr & He).
      exists (c :: a), b. simpl. rewrite <- app_assoc. simpl.
      replace (i + S (length a)) with (S i + length a) by lia.
      split; [congruence|assumption].
Qed.

End ScanFacts.

(* ================================================================= *)
(** ** Character classes *)

Module CharFacts.
Import JsString Regex Vocabulary JsStringFacts.

Lemma isSpace_spec (c : char) :
  isSpace c = true ->
  (9 <= c <= 13 \/ c = 32 \/ c = 160 \/ c = 5760 \/ 8192 <= c <= 8202 \/
   c = 8232 \/ c = 8233 \/ c = 8239 \/ c = 8287 \/ c = 12288 \/ c = 65279)%N.
Proof.
  unfold isSpace.
  rewrite !orb_true_iff, !andb_true_iff, !N.leb_le, !N.eqb_eq. tauto.
Qed.

Lemma isLower_spec (c : char) : isLower c = true <-> (97 <= c <= 122)%N.
Proof. unfold isLower. rewrite andb_true_iff, !N.leb_le. tauto. Qed.

Lemma isWord_spec (c : char) :
  isWord c = true <->
  (97 <= c <= 122 \/ 65 <= c <= 90 \/ 48 <= c <= 57 \/ c = 95)%N.
Proof.
  unfold isWord, isLower, isUpper, isDigit.
  rewrite !orb_true_iff, !andb_true_iff, !N.leb_le, !N.eqb_eq. tauto.
Qed.

Lemma isMark_spec (c : char) :
  oneOf ".!?" c = true <-> (c = 46 \/ c = 33 \/ c = 63)%N.
Proof.
  unfold oneOf. simpl. rewrite !orb_true_iff, !N.eqb_eq. intuition discriminate.
Qed.

Lemma isCommaDot_spec (c : char) :
  oneOf ",." c = true <-> (c = 44 \/ c = 46)%N.
Proof.
  unfold oneOf. simpl. rewrite !orb_true_iff, !N.eqb_eq. intuition discriminate.
Qed.

(** Under the [i] flag two characters agree when they are equal or are
    the two cases of one ASCII letter. *)
Lemma char_eqb_ic_spec (x c : char) :
  char_eqb true x c = true ->
  (x = c \/ (97 <= x <= 122 /\ c = x - 32) \/ (97 <= c <= 122 /\ x = c - 32))%N.
Proof.
  unfold char_eqb, canonicalize, toUpperCase. rewrite N.eqb_eq.
  destruct (isLower x) eqn:Ex; destruct (isLower c) eqn:Ec; intros H.
  - apply isLower_spec in Ex, Ec. left. lia.
  - apply isLower_spec in Ex. right. left. split; [exact Ex|congruence].
  - apply isLower_spec in Ec. right. right. split; [exact Ec|congruence].
  - left. exact H.
Qed.

Lemma isWord_ic (x c : char) :
  char_eqb true x c = true -> isWord x = true -> isWord c = true.
Proof.
  intros H Hx. apply char_eqb_ic_spec in H. apply isWord_spec in Hx.
  apply isWord_spec. lia.
Qed.

Lemma word_not_space (c : char) : isWord c = true -> isSpace c = false.
Proof.
  intros H. apply isWord_spec in H. apply not_true_iff_false. intros Hs.
  apply isSpace_spec in Hs. lia.
Qed.

Lemma word_not_mark (c : char) : isWord c = true -> oneOf ".!?" c = false.
Proof.
  intros H. apply isWord_spec in H. apply not_true_iff_false. intros Hs.
  apply isMark_spec in Hs. lia.
Qed.

Lemma commaDot_not_space (c : char) : oneOf ",." c = true -> isSpace c = false.
Proof.
  intros H. apply isCommaDot_spec in H. apply not_true_iff_false. intros Hs.
  apply isSpace_spec in Hs. lia.
Qed.

Lemma mark_not_space (c : char) : oneOf ".!?" c = true -> isSpace c = false.
Proof.
  intros H. apply isMark_spec in H. apply not_true_iff_false. intros Hs.
  apply isSpace_spec in Hs. lia.
Qed.

(** A text that ends in a word character ends in no mark. *)
Lemma ending_word (t : jsstring) (c : char) :
  isWord c = true -> ending (t ++ [c]) = Some false.
Proof.
  intros H. rewrite ending_snoc by (apply word_not_space, H).
  rewrite (word_not_mark _ H). reflexivity.
Qed.

End CharFacts.

(* ================================================================= *)
(** ** The patterns of step 7 and step 8 *)

Module ArtifactFacts.
Import JsString Regex CorrectionEngine Vocabulary.
Import JsStringFacts RegexFacts ScanFacts CharFacts.

Lemma Sem_lits (ic : bool) :
  forall l pre t post cs cs',
    Sem ic (fold_right (fun a r => Seq (lit a) r) Eps l) pre t post cs cs' ->
    Forall2 (fun x c => char_eqb ic x c = true) (map N_of_ascii l) t /\ cs' = cs.
Proof.
  induction l as [|a l IH]; intros pre t post cs cs' H; simpl in H.
  - destruct H as (-> & ->). split; [constructor|reflexivity].
  - destruct H as (t1 & t2 & cs1 & -> & (c & -> & Hc & ->) & H2).
    destruct (IH _ _ _ _ _ H2) as (Hf & ->).
    split; [|reflexivity]. simpl. constructor; assumption.
Qed.

Lemma Forall2_last (A B : Type) (R : A -> B -> Prop) (u : list A) (x : A) (t : list B) :
  Forall2 R (u ++ [x]) t -> exists t' c, t = t' ++ [c] /\ R x c.
Proof.
  intros H. apply Forall2_app_inv_l in H.
  destruct H as (t1 & t2 & _ & H2 & ->).
  inversion H2 as [|? c ? l' Hr Hnil]; subst. inversion Hnil; subst.
  exists t1, c. auto.
Qed.

(** The text of a match of [/\bword\b/gi], for a word that ends in a
    lower-case letter, ends in a letter. *)
Lemma wordPattern_ending (w : string) (u : jsstring) (x : char) (rep : jsstring) :
  str w = u ++ [x] -> isLower x = true -> ending rep = Some false ->
  forall pre rest i m,
    execAt (wordPattern w) pre rest i = Some m ->
    ending (fst (rep, @nil unit)) = ending (text m).
Proof.
  intros Hw Hx Hrep pre rest i m H.
  destruct (execAt_sound _ _ _ _ _ H) as (_ & post & _ & Hs).
  cbn [wordPattern body ignoreCase Sem] in Hs.
  destruct Hs as (t1 & t2 & cs1 & Ht & (-> & -> & _) & t3 & t4 & cs2 & -> & Hl & (-> & _)).
  apply Sem_lits in Hl. destruct Hl as (Hf & _).
  change (map N_of_ascii (list_ascii_of_string w)) with (str w) in Hf.
  rewrite Hw in Hf. apply Forall2_last in Hf. destruct Hf as (t' & c & -> & Hc).
  simpl. rewrite Ht, app_nil_r. simpl. rewrite Hrep. symmetry.
  apply ending_word. apply (isWord_ic x c Hc).
  unfold isWord. rewrite Hx. reflexivity.
Qed.

(** The text of a match of [/\b(\w+)\s+\1\b/gi] and its first group both
    end in a word character. *)
Lemma repeatedWord_ending :
  forall pre rest i m,
    execAt repeatedWord pre rest i = Some m ->
    ending (fst (group 1 m, @nil unit)) = ending (text m).
Proof.
  intros pre rest i m H.
  destruct (execAt_sound _ _ _ _ _ H) as (_ & post & _ & Hs).
  cbn [repeatedWord body ignoreCase Sem] in Hs.
  destruct Hs as (t0 & tA & cs0 & Ht & (-> & -> & _) &
                  W & tB & csG & -> & (cs1 & (HW & HWlen & _ & ->) & ->) &
                  S & tC & csS & -> & (HS & _ & _ & ->) &
                  W' & tD & csR & -> & (HR & ->) & (-> & Hg & _)).
  cbn [getcap Nat.eqb] in HR.
  unfold group. rewrite Hg, Ht. cbn [getcap Nat.eqb fst]. rewrite app_nil_r.
  destruct W as [|x0 W0] using rev_ind; [simpl in HWlen; lia|]. clear IHW0.
  apply Forall_app in HW. destruct HW as (_ & Hx).
  apply Forall_inv in Hx. cbn [atomb] in Hx.
  apply Forall2_last in HR. destruct HR as (t' & c & -> & Hc).
  rewrite ending_word by exact Hx.
  rewrite !app_assoc. rewrite ending_word; [reflexivity|].
  apply (isWord_ic x0 c Hc Hx).
Qed.

(** The text of a match of [/\s+([,.])/g] ends in the mark that its first
    group holds. *)
Lemma spaceBeforeMark_ending :
  forall pre rest i m,
    execAt spaceBeforeMark pre rest i = Some m ->
    ending (fst (group 1 m, @nil unit)) = ending (text m).
Proof.
  intros pre rest i m H.
  destruct (execAt_sound _ _ _ _ _ H) as (_ & post & _ & Hs).
  cbn [spaceBeforeMark body ignoreCase Sem] in Hs.
  destruct Hs as (S & t2 & cs1 & Ht & (HS & _ & _ & ->) &
                  cs2 & (c & -> & Hc & ->) & Hg).
  cbn [atomb] in Hc.
  unfold group. rewrite Hg, Ht. cbn [getcap Nat.eqb fst].
  rewrite ending_snoc by (apply commaDot_not_space, Hc).
  apply ending_single, commaDot_not_space, Hc.
Qed.

(** The text of a match of [/([,.])\s{2,}/g] is its mark, then white
    space. *)
Lemma spacesAfterMark_ending :
  forall pre rest i m,
    execAt spacesAfterMark pre rest i = Some m ->
    ending (fst (group 1 m ++ str " ", @nil unit)) = ending (text m).
Proof.
  intros pre rest i m H.
  destruct (execAt_sound _ _ _ _ _ H) as (_ & post & _ & Hs).
  cbn [spacesAfterMark body ignoreCase Sem] in Hs.
  destruct Hs as (t1 & S & cs1 & Ht &
                  (cs2 & (c & -> & Hc & ->) & ->) & (HS & _ & _ & Hg)).
  cbn [atomb] in Hc.
  unfold group. rewrite Hg, Ht. cbn [getcap Nat.eqb fst].
  rewrite !ending_app, (ending_spaces S HS). reflexivity.
Qed.

(** Step 8 keeps the ending of its input. *)
Lemma fixCommonArtifacts_ending (s : jsstring) :
  ending (fixCommonArtifacts s) = ending s.
Proof.
  unfold fixCommonArtifacts, replaceAll.
  rewrite (replaceWith_ending _ _ _ spacesAfterMark_ending).
  rewrite (replaceWith_ending _ _ _ spaceBeforeMark_ending).
  rewrite (replaceWith_ending _ _ _ repeatedWord_ending).
  rewrite (replaceWith_ending _ _ _
             (wordPattern_ending "gotta" (str "gott") 97%N (str "got to")
                eq_refl eq_refl eq_refl)).
  rewrite (replaceWith_ending _ _ _
             (wordPattern_ending "wanna" (str "wann") 97%N (str "want to")
                eq_refl eq_refl eq_refl)).
  rewrite (replaceWith_ending _ _ _
             (wordPattern_ending "gonna" (str "gonn") 97%N (str "going to")
                eq_refl eq_refl eq_refl)).
  reflexivity.
Qed.

(** A string that passes [/[.!?]$/] ends in one of the three marks. *)
Lemma endsSentence_sound (s : jsstring) :
  test endsSentence s = true -> endsWithMark s.
Proof.
  unfold test. destruct (searchFrom endsSentence [] s 0) as [m|] eqn:E;
    [intros _|discriminate].
  destruct (searchFrom_sound _ _ _ _ _ E) as (a & b & -> & He).
  destruct (execAt_sound _ _ _ _ _ He) as (_ & post & Hb & Hs).
  cbn [endsSentence body ignoreCase Sem] in Hs.
  destruct Hs as (t1 & t2 & cs1 & Ht & (c & -> & Hc & _) & (-> & _ & ->)).
  cbn [atomb] in Hc. rewrite Ht in Hb. subst b.
  exists c. split; [apply lastChar_snoc|exact Hc].
Qed.

Lemma endsWithMark_ending (s : jsstring) :
  endsWithMark (trim s) <-> ending s = Some true.
Proof.
  unfold endsWithMark, ending. rewrite lastChar_trim. split.
  - intros (c & -> & Hc). simpl. rewrite Hc. reflexivity.
  - destruct (lastNonSpace s) as [c|]; [|discriminate].
    simpl. intros H. injection H as H. exists c. auto.
Qed.

End ArtifactFacts.

(* ================================================================= *)
(** ** The correction engine *)

Module CorrectionFacts.
Import JsString Regex CorrectionEngine Vocabulary.
Import JsStringFacts RegexFacts ScanFacts CharFacts ArtifactFacts.

(** [applyCorrections] in terms of the result of steps 1 to 6. *)
Lemma applyCorrections_unfold (text : jsstring) (similarities : list number) :
  applyCorrections text similarities =
  MkCorrectionResult text
    (trim (fixCommonArtifacts (fst (addEndingPeriod (fst (beforePunctuation text))))))
    (snd (beforePunctuation text) ++
     snd (addEndingPeriod (fst (beforePunctuation text)))).
Proof.
  unfold applyCorrections. destruct (beforePunctuation text) as [result changes].
  simpl. destruct (addEndingPeriod result) as [result' c7]. reflexivity.
Qed.

(** C6. For every input text whose corrected output is non-empty, the
    corrected output ends in ['.'], ['!'] or ['?']; and when the result of
    steps 1 to 6 does not end in one of these after trimming, step 7
    appends ['.'] to the trimmed result and records a punctuation Change. *)
Theorem applyCorrections_ends_sentence
    (text : jsstring) (similarities : list number) :
  corrected (applyCorrections text similarities) <> [] ->
  endsWithMark (corrected (applyCorrections text similarities)) /\
  (let result := fst (beforePunctuation text) in
   ~ endsWithMark (trim result) ->
   fst (addEndingPeriod result) = trim result ++ str "." /\
   In (MkChange punctuation (str "Added ending period") (length result))
      (changes (applyCorrections text similarities))).
Proof.
  rewrite applyCorrections_unfold. cbn [corrected changes].
  set (result := fst (beforePunctuation text)). intros Hne.
  assert (Hlen : (0 <? length result) = true).
  { destruct result as [|c r] eqn:E; [|reflexivity].
    exfalso. apply Hne. reflexivity. }
  split.
  - apply endsWithMark_ending. rewrite fixCommonArtifacts_ending.
    unfold addEndingPeriod. rewrite Hlen. cbn [andb].
    destruct (test endsSentence (trim result)) eqn:Et; cbn [negb fst].
    + apply endsWithMark_ending, endsSentence_sound, Et.
    + apply ending_snoc. reflexivity.
  - intros Hno. unfold addEndingPeriod. rewrite Hlen. cbn [andb].
    destruct (test endsSentence (trim result)) eqn:Et.
    + exfalso. apply Hno, endsSentence_sound, Et.
    + cbn [negb fst snd]. split; [reflexivity|].
      apply in_or_app. right. left. reflexivity.
Qed.

Lemma applyCorrections_ends_sentence_witness :
  corrected (applyCorrections (str "hi there") []) <> [] /\
  endsWithMark (corrected (applyCorrections (str "hi there") [])).
Proof.
  assert (H : corrected (applyCorrections (str "hi there") []) <> [])
    by (vm_compute; discriminate).
  split; [exact H|].
  exact (proj1 (applyCorrections_ends_sentence (str "hi there") [] H)).
Defined.

(** C9. [applyCorrections("")] is [{original: "", corrected: "",
    changes: []}]: nothing is recorded and no period is inserted. *)
Theorem applyCorrections_empty :
  applyCorrections [] [] = MkCorrectionResult [] [] [].
Proof. vm_compute. reflexivity. Qed.

(** C10. The result of [applyCorrections] does not depend on its second
    argument. *)
Theorem applyCorrections_ignores_similarities
    (text : jsstring) (s1 s2 : list number) :
  applyCorrections text s1 = applyCorrections text s2.
Proof. reflexivity. Qed.

(** The example of the specification: the filler goes, "gonna" is
    expanded and a period is added; the result starts with the space that
    the filler leaves, so its first letter is not capitalized. *)
Example applyCorrections_gonna :
  applyCorrections (str "um so I think gonna work") [] =
  MkCorrectionResult (str "um so I think gonna work")
    (str "so I think going to work.")
    [MkChange filler (str "Removed filler: " ++ dquote :: str "um" ++ [dquote]) 0;
     MkChange punctuation (str "Added ending period") 22].
Proof. vm_compute. reflexivity. Qed.

(** C7, at the input ["we go go go"]: the third "go" stays a repetition of
    the second in the corrected output. *)
Theorem repeated_word_survives :
  corrected (applyCorrections (str "we go go go") []) = str "We go go." /\
  matchAll repeatedWord (str "We go go.") <> [].
Proof. split; vm_compute; [reflexivity|discriminate]. Qed.





(** The string that a filler pass leaves does not depend on the Changes
    gathered so far. *)
Lemma removeFillers_fst (ps : list pattern) (s : jsstring) (acc acc' : list Change) :
  fst (fold_left removeFiller ps (s, acc)) = fst (fold_left removeFiller ps (s, acc')).
Proof.
  revert s acc acc'. induction ps as [|p ps IH]; intros s acc acc'; simpl; auto.
Qed.


Lemma applyTrigger_fst (ts : list string) (s : jsstring) (acc acc' : list Change) :
  fst (fold_left applyTrigger ts (s, acc)) = fst (fold_left applyTrigger ts (s, acc')).
Proof.
  revert s acc acc'. induction ts as [|t ts IH]; intros s acc acc'; simpl; auto.
  destruct (replaceWith (triggerPattern t) (breakBefore s) s). apply IH.
Qed.








(** C4, the variable [position]: a Change "Capitalized after period"
    records 0 wherever the period stands. *)
Example after_period_position :
  changes (applyCorrections (str "Go. now") []) =
  [MkChange casing (str "Capitalized after period") 0;
   MkChange punctuation (str "Added ending period") 7].
Proof. vm_compute. reflexivity. Qed.

End CorrectionFacts.

(* ================================================================= *)
(** ** Rounding *)

(** Multiplications, divisions and stores round.  The lemmas of this
    module read the rounding of [SpecFloat] as a truncation of the
    mantissa followed by a choice between the truncated mantissa and its
    successor, and follow a sample through the gain. *)
Module FloatFacts.
Import Float HookCommon Vocabulary.
Local Open Scope Z_scope.

(** *** Digits *)

Lemma digits2_pos_size (m : positive) : digits2_pos m = Pos.size m.
Proof. induction m; simpl; congruence. Qed.

Lemma digits2_bounds (m : positive) :
  2 ^ (Z.pos (digits2_pos m) - 1) <= Z.pos m < 2 ^ Z.pos (digits2_pos m).
Proof.
  rewrite digits2_pos_size. split.
  - pose proof (Pos.size_le m) as H.
    assert (H' : Z.pos (2 ^ Pos.size m) <= Z.pos m~0) by exact H.
    rewrite Pos2Z.inj_pow, Pos2Z.inj_xO in H'.
    assert (E : 2 ^ Z.pos (Pos.size m) = 2 * 2 ^ (Z.pos (Pos.size m) - 1)).
    { rewrite <- Z.pow_succ_r by lia. f_equal. lia. }
    lia.
  - pose proof (Pos.size_gt m) as H.
    assert (H' : Z.pos m < Z.pos (2 ^ Pos.size m)) by exact H.
    rewrite Pos2Z.inj_pow in H'. exact H'.
Qed.

(** The number of digits is determined by the power of two bounds. *)
Lemma digits2_unique (m : positive) (d : Z) :
  2 ^ (d - 1) <= Z.pos m < 2 ^ d -> Z.pos (digits2_pos m) = d.
Proof.
  intros [Hlo Hhi]. pose proof (digits2_bounds m) as [Hlo' Hhi'].
  assert (Hd : 0 < d).
  { destruct (Z_lt_le_dec 0 d) as [H|H]; [exact H|].
    exfalso. assert (2 ^ d <= 1).
    { destruct (Z.eq_dec d 0) as [->|Hn]; [simpl; lia|].
      rewrite Z.pow_neg_r by lia. lia. }
    lia. }
  destruct (Z.lt_trichotomy (Z.pos (digits2_pos m)) d) as [H|[H|H]]; [|exact H|].
  - exfalso. assert (2 ^ Z.pos (digits2_pos m) <= 2 ^ (d - 1))
      by (apply Z.pow_le_mono_r; lia). lia.
  - exfalso. assert (2 ^ d <= 2 ^ (Z.pos (digits2_pos m) - 1))
      by (apply Z.pow_le_mono_r; lia). lia.
Qed.

(** *** Shifting right *)

Lemma iter_pos_iter (A : Type) (f : A -> A) (p : positive) (x : A) :
  iter_pos f p x = Pos.iter f x p.
Proof.
  revert x. induction p as [p IH|p IH|]; intros x; simpl.
  - rewrite !IH, !Pos.iter_swap. reflexivity.
  - rewrite !IH. reflexivity.
  - reflexivity.
Qed.

Lemma shr_1_spec (mrs : shr_record) :
  0 <= shr_m mrs ->
  shr_1 mrs =
  {| shr_m := shr_m mrs / 2; shr_r := Z.odd (shr_m mrs);
     shr_s := shr_r mrs || shr_s mrs |}.
Proof.
  destruct mrs as [m r s]. simpl. intros Hm.
  destruct m as [|[p|p|]|p]; try lia; simpl; f_equal.
  - rewrite Pos2Z.inj_xI. apply (Z.div_unique _ 2 _ 1); lia.
  - rewrite Pos2Z.inj_xO. apply (Z.div_unique _ 2 _ 0); lia.
Qed.

Lemma iter_shr_spec (m : Z) (r s : bool) (p : positive) :
  0 <= m ->
  shr_m (Pos.iter shr_1 {| shr_m := m; shr_r := r; shr_s := s |} p) = m / 2 ^ Z.pos p /\
  shr_r (Pos.iter shr_1 {| shr_m := m; shr_r := r; shr_s := s |} p) =
    Z.testbit m (Z.pos p - 1).
Proof.
  intros Hm. induction p as [|p IH] using Pos.peano_ind.
  - cbn [Pos.iter]. rewrite shr_1_spec by (simpl; lia). simpl. split.
    + reflexivity.
    + symmetry. apply Z.bit0_odd.
  - rewrite Pos.iter_succ. destruct IH as (IHm & IHr).
    assert (Hpos : 0 <= m / 2 ^ Z.pos p) by (apply Z.div_pos; lia).
    rewrite shr_1_spec by (rewrite IHm; exact Hpos). cbn [shr_m shr_r shr_s].
    rewrite IHm. split.
    + rewrite Pos2Z.inj_succ, Z.pow_succ_r by lia.
      rewrite Z.div_div by lia. f_equal. lia.
    + rewrite Pos2Z.inj_succ. replace (Z.succ (Z.pos p) - 1) with (Z.pos p) by lia.
      rewrite Z.testbit_odd, Z.shiftr_div_pow2 by lia. reflexivity.
Qed.

(** Rounding to nearest keeps the truncated mantissa or adds one to it. *)
Lemma round_nearest_even_cases (m : Z) (l : location) :
  round_nearest_even m l = m \/ round_nearest_even m l = m + 1.
Proof.
  destruct l as [|[| |]]; simpl; auto. destruct (Z.even m); auto.
Qed.

Lemma round_nearest_even_down (mrs : shr_record) :
  shr_r mrs = false ->
  round_nearest_even (shr_m mrs) (loc_of_shr_record mrs) = shr_m mrs.
Proof. destruct mrs as [m r [|]]; simpl; intros ->; reflexivity. Qed.

Lemma shr_nonpos (mrs : shr_record) (e n : Z) :
  n <= 0 -> shr mrs e n = (mrs, e).
Proof. destruct n; simpl; [reflexivity|lia|reflexivity]. Qed.

Lemma shr_pos (m : Z) (r s : bool) (e n : Z) :
  0 <= m -> 0 < n ->
  exists mrs',
    shr {| shr_m := m; shr_r := r; shr_s := s |} e n = (mrs', e + n) /\
    shr_m mrs' = m / 2 ^ n /\ shr_r mrs' = Z.testbit m (n - 1).
Proof.
  intros Hm Hn. destruct n as [|p|p]; try lia. simpl.
  eexists. split; [reflexivity|]. rewrite iter_pos_iter.
  apply iter_shr_spec, Hm.
Qed.

Lemma shr_record_of_loc_m (m : Z) (l : location) :
  exists r s, shr_record_of_loc m l = {| shr_m := m; shr_r := r; shr_s := s |} /\
              (l = loc_Exact -> r = false /\ s = false).
Proof.
  destruct l as [|[| |]]; simpl; eexists; eexists; split; try reflexivity;
    try discriminate. auto.
Qed.

Lemma iter_xO (m d : positive) : Z.pos (Pos.iter xO m d) = Z.pos m * 2 ^ Z.pos d.
Proof.
  induction d as [|d IH] using Pos.peano_ind.
  - cbn [Pos.iter]. rewrite Pos2Z.inj_xO. change (2 ^ 1) with 2. lia.
  - rewrite Pos.iter_succ, Pos2Z.inj_xO, IH, Pos2Z.inj_succ, Z.pow_succ_r by lia.
    lia.
Qed.

Lemma digits2_shift (m : positive) (k : Z) (mz : positive) :
  0 <= k -> Z.pos mz = Z.pos m * 2 ^ k ->
  Z.pos (digits2_pos mz) = Z.pos (digits2_pos m) + k.
Proof.
  intros Hk E. apply digits2_unique. rewrite E.
  pose proof (digits2_bounds m) as [Hlo Hhi].
  assert (Hp : 0 < 2 ^ k) by (apply Z.pow_pos_nonneg; lia).
  replace (Z.pos (digits2_pos m) + k - 1) with (Z.pos (digits2_pos m) - 1 + k) by lia.
  rewrite !Z.pow_add_r by lia. split; nia.
Qed.

Section Rounding.

Variables prec emax : Z.
Hypothesis prec_pos : 0 < prec.


Lemma fexp_ge_emin (x : Z) :
  SpecFloat.emin prec emax <= SpecFloat.fexp prec emax x.
Proof. unfold SpecFloat.fexp. lia. Qed.

Lemma fexp_ge (x : Z) : x - prec <= SpecFloat.fexp prec emax x.
Proof. unfold SpecFloat.fexp. lia. Qed.

(** The second truncation of [binary_round_aux]: a mantissa below
    [2 ^ prec] at an exponent of the format stays; the mantissa
    [2 ^ prec] loses its last digit. *)
Lemma shr_fexp_small (m2 e0 : Z) :
  0 <= m2 < 2 ^ prec -> (SpecFloat.emin prec emax) <= e0 ->
  shr_fexp prec emax m2 e0 loc_Exact =
  ({| shr_m := m2; shr_r := false; shr_s := false |}, e0).
Proof.
  intros Hm He. unfold shr_fexp. simpl shr_record_of_loc.
  apply shr_nonpos.
  assert (Hd : Zdigits2 m2 <= prec).
  { destruct m2 as [|p|p]; simpl; try lia.
    pose proof (digits2_bounds p) as [Hlo _].
    destruct (Z_le_gt_dec (Z.pos (digits2_pos p)) prec) as [H|H]; [exact H|].
    exfalso. assert (2 ^ prec <= 2 ^ (Z.pos (digits2_pos p) - 1))
      by (apply Z.pow_le_mono_r; lia). lia. }
  unfold SpecFloat.fexp. lia.
Qed.

Lemma shr_fexp_carry (e0 : Z) :
  (SpecFloat.emin prec emax) <= e0 ->
  shr_fexp prec emax (2 ^ prec) e0 loc_Exact =
  ({| shr_m := 2 ^ (prec - 1); shr_r := false; shr_s := false |}, e0 + 1).
Proof.
  intros He. unfold shr_fexp. simpl shr_record_of_loc.
  assert (Hp : 0 < 2 ^ prec) by (apply Z.pow_pos_nonneg; lia).
  assert (Hd : Zdigits2 (2 ^ prec) = prec + 1).
  { destruct (2 ^ prec) as [|p|p] eqn:E; try lia. simpl.
    apply digits2_unique. rewrite <- E.
    replace (prec + 1 - 1) with prec by lia. split; [lia|].
    apply Z.pow_lt_mono_r; lia. }
  rewrite Hd.
  replace (SpecFloat.fexp prec emax (prec + 1 + e0) - e0) with 1
    by (unfold SpecFloat.fexp; lia).
  unfold shr. cbn [iter_pos]. f_equal.
  rewrite shr_1_spec by (simpl; lia). cbn [shr_m shr_r shr_s orb].
  assert (E : 2 ^ prec = 2 * 2 ^ (prec - 1)).
  { rewrite <- Z.pow_succ_r by lia. f_equal. lia. }
  f_equal.
  - rewrite E. rewrite Z.mul_comm, Z.div_mul by lia. reflexivity.
  - rewrite E, Z.odd_mul. reflexivity.
Qed.

(** The structure of [binary_round_aux] on a mantissa with enough
    digits: it truncates the mantissa to the exponent of the format, and
    keeps the truncated mantissa or adds one to it. *)
Lemma binary_round_aux_spec (s : bool) (m : positive) (e : Z) (l : location) :
  let e0 := (SpecFloat.fexp prec emax) (Z.pos (digits2_pos m) + e) in
  let n := e0 - e in
  let m1 := Z.pos m / 2 ^ n in
  e <= e0 ->
  exists m2,
    (m2 = m1 \/ m2 = m1 + 1) /\
    (l = loc_Exact -> n = 0 -> m2 = m1) /\
    (l = loc_Exact -> 0 < n -> Z.testbit (Z.pos m) (n - 1) = false -> m2 = m1) /\
    0 <= m1 < 2 ^ prec /\
    binary_round_aux prec emax s (Z.pos m) e l = finish prec emax s m2 e0.
Proof.
  intros e0 n m1 He.
  pose proof (digits2_bounds m) as [Hlo Hhi].
  assert (Hn : 0 <= n) by (unfold n; lia).
  assert (Hm1 : 0 <= m1 < 2 ^ prec).
  { unfold m1. split; [apply Z.div_pos; [lia|apply Z.pow_pos_nonneg; lia]|].
    apply Z.div_lt_upper_bound; [apply Z.pow_pos_nonneg; lia|].
    rewrite <- Z.pow_add_r by lia.
    apply Z.lt_le_trans with (1 := Hhi). apply Z.pow_le_mono_r; [lia|].
    pose proof (fexp_ge (Z.pos (digits2_pos m) + e)). unfold n, e0. lia. }
  assert (He0 : (SpecFloat.emin prec emax) <= e0) by apply fexp_ge_emin.
  unfold binary_round_aux, shr_fexp. fold e0. simpl Zdigits2. fold e0. fold n.
  destruct (shr_record_of_loc_m (Z.pos m) l) as (r0 & s0 & -> & Hex).
  assert (Hfin : forall m2, 0 <= m2 <= 2 ^ prec ->
    (let '(mrs'', e'') := shr_fexp prec emax m2 e0 loc_Exact in
     match shr_m mrs'' with
     | 0 => S754_zero s
     | Z.pos m0 => if e'' <=? emax - prec then S754_finite s m0 e'' else S754_infinity s
     | Z.neg _ => S754_nan
     end) = finish prec emax s m2 e0).
  { intros m2 Hm2. unfold finish.
    destruct (Z.eqb_spec m2 (2 ^ prec)) as [->|Hne].
    - rewrite shr_fexp_carry by exact He0. simpl shr_m.
      assert (Hp : 0 < 2 ^ (prec - 1)) by (apply Z.pow_pos_nonneg; lia).
      assert (Hp' : 0 < 2 ^ prec) by (apply Z.pow_pos_nonneg; lia).
      destruct (Z.eqb_spec (2 ^ prec) 0); [lia|].
      destruct (2 ^ (prec - 1)) as [|p|p]; try lia. reflexivity.
    - rewrite shr_fexp_small by lia. simpl shr_m.
      destruct (Z.eqb_spec m2 0) as [->|Hz]; [reflexivity|].
      destruct m2 as [|p|p]; try lia. reflexivity. }
  destruct (Z.eq_dec n 0) as [Hz|Hnz].
  - rewrite shr_nonpos by lia.
    set (m2 := round_nearest_even
                 (shr_m {| shr_m := Z.pos m; shr_r := r0; shr_s := s0 |})
                 (loc_of_shr_record {| shr_m := Z.pos m; shr_r := r0; shr_s := s0 |})).
    assert (E1 : m1 = Z.pos m) by (unfold m1; rewrite Hz; simpl; apply Z.div_1_r).
    assert (Hc : m2 = m1 \/ m2 = m1 + 1).
    { unfold m2. rewrite E1. simpl shr_m. apply round_nearest_even_cases. }
    exists m2. split; [exact Hc|]. split; [|split; [|split]].
    + intros Hl _. destruct (Hex Hl) as (-> & ->). unfold m2. rewrite E1. reflexivity.
    + intros _ Hpos. lia.
    + exact Hm1.
    + replace e with e0 by (unfold n in Hz; lia). apply Hfin. lia.
  - destruct (shr_pos (Z.pos m) r0 s0 e n) as (mrs' & -> & Hm' & Hr'); try lia.
    set (m2 := round_nearest_even (shr_m mrs') (loc_of_shr_record mrs')).
    assert (Hc : m2 = m1 \/ m2 = m1 + 1).
    { unfold m2, m1. rewrite <- Hm'. apply round_nearest_even_cases. }
    exists m2. split; [exact Hc|]. split; [|split; [|split]].
    + intros _ Hz. lia.
    + intros _ _ Hbit. unfold m2, m1. rewrite <- Hm'.
      apply round_nearest_even_down. rewrite Hr'. exact Hbit.
    + exact Hm1.
    + replace (e + n) with e0 by (unfold n; lia). apply Hfin. lia.
Qed.

(** A finite result of [finish] has the value [m2 * 2 ^ e0], written here
    in units of [2 ^ emin]. *)
Lemma finish_value (s s' : bool) (m2 e0 : Z) (mY : positive) (eY : Z) :
  0 <= m2 -> (SpecFloat.emin prec emax) <= e0 ->
  finish prec emax s m2 e0 = S754_finite s' mY eY ->
  s' = s /\ (SpecFloat.emin prec emax) <= eY /\ eY <= emax - prec /\
  Z.pos mY * 2 ^ (eY - (SpecFloat.emin prec emax)) = m2 * 2 ^ (e0 - (SpecFloat.emin prec emax)).
Proof.
  intros Hm He. unfold finish.
  destruct (Z.eqb_spec m2 0) as [Hz|Hz]; [discriminate|].
  destruct (Z.eqb_spec m2 (2 ^ prec)) as [Hc|Hc].
  - destruct (Z.leb_spec (e0 + 1) (emax - prec)) as [Hle|Hgt]; [|discriminate].
    intros H. injection H as <- <- <-.
    assert (Hp : 0 < 2 ^ (prec - 1)) by (apply Z.pow_pos_nonneg; lia).
    rewrite Z2Pos.id by exact Hp. rewrite Hc.
    repeat split; try lia.
    rewrite <- !Z.pow_add_r by lia. f_equal. lia.
  - destruct (Z.leb_spec e0 (emax - prec)) as [Hle|Hgt]; [|discriminate].
    intros H. injection H as <- <- <-.
    rewrite Z2Pos.id by lia. repeat split; lia.
Qed.

Lemma finish_not_nan (s : bool) (m2 e0 : Z) : finish prec emax s m2 e0 <> S754_nan.
Proof.
  unfold finish.
  destruct (m2 =? 0); [discriminate|].
  destruct (m2 =? 2 ^ prec).
  - destruct (e0 + 1 <=? emax - prec); discriminate.
  - destruct (e0 <=? emax - prec); discriminate.
Qed.

Lemma finish_sign (s s' : bool) (m2 e0 : Z) :
  finish prec emax s m2 e0 = S754_zero s' \/ finish prec emax s m2 e0 = S754_infinity s' -> s' = s.
Proof.
  unfold finish.
  destruct (m2 =? 0); [intros [H|H]; congruence|].
  destruct (m2 =? 2 ^ prec).
  - destruct (e0 + 1 <=? emax - prec); intros [H|H]; congruence.
  - destruct (e0 <=? emax - prec); intros [H|H]; congruence.
Qed.

(** A finite result of the rounding is canonical in the format. *)
Lemma finish_canonical (s s' : bool) (m : positive) (e m2 : Z)
    (mY : positive) (eY : Z) :
  let e0 := (SpecFloat.fexp prec emax) (Z.pos (digits2_pos m) + e) in
  let n := e0 - e in
  let m1 := Z.pos m / 2 ^ n in
  e <= e0 -> (m2 = m1 \/ m2 = m1 + 1) ->
  finish prec emax s m2 e0 = S754_finite s' mY eY ->
  canonical_mantissa prec emax mY eY = true.
Proof.
  intros e0 n m1 He Hm2 Hfin.
  pose proof (digits2_bounds m) as [Hlo Hhi].
  set (d := Z.pos (digits2_pos m)) in *.
  assert (Hn : 0 <= n) by (unfold n; lia).
  assert (Hpn : 0 < 2 ^ n) by (apply Z.pow_pos_nonneg; lia).
  assert (Hm1 : 0 <= m1 < 2 ^ prec).
  { unfold m1. split; [apply Z.div_pos; lia|].
    apply Z.div_lt_upper_bound; [exact Hpn|].
    rewrite <- Z.pow_add_r by lia.
    apply Z.lt_le_trans with (1 := Hhi). apply Z.pow_le_mono_r; [lia|].
    pose proof (fexp_ge (d + e)). unfold n, e0. lia. }
  assert (He0 : (SpecFloat.emin prec emax) <= e0) by apply fexp_ge_emin.
  assert (Hnorm : (SpecFloat.emin prec emax) < d + e - prec -> 2 ^ (prec - 1) <= m1).
  { intros Hgt. assert (En : n = d - prec).
    { unfold n, e0, SpecFloat.fexp. lia. }
    unfold m1. apply Z.div_le_lower_bound; [exact Hpn|].
    rewrite Z.mul_comm, <- Z.pow_add_r by lia.
    replace (prec - 1 + n) with (d - 1) by lia. exact Hlo. }
  unfold canonical_mantissa. apply Z.eqb_eq.
  unfold finish in Hfin.
  destruct (Z.eqb_spec m2 0) as [Hz|Hz]; [discriminate|].
  destruct (Z.eqb_spec m2 (2 ^ prec)) as [Hc|Hc].
  - destruct (Z.leb_spec (e0 + 1) (emax - prec)) as [Hle|Hgt]; [|discriminate].
    injection Hfin as _ <- <-.
    assert (Hp : 0 < 2 ^ (prec - 1)) by (apply Z.pow_pos_nonneg; lia).
    assert (Hd : Z.pos (digits2_pos (Z.to_pos (2 ^ (prec - 1)))) = prec).
    { apply digits2_unique. rewrite Z2Pos.id by exact Hp. split; [lia|].
      apply Z.pow_lt_mono_r; lia. }
    rewrite Hd. unfold SpecFloat.fexp. fold (SpecFloat.emin prec emax). lia.
  - destruct (Z.leb_spec e0 (emax - prec)) as [Hle|Hgt]; [|discriminate].
    injection Hfin as _ <- <-.
    assert (Hpos : 0 < m2) by lia.
    pose proof (digits2_bounds (Z.to_pos m2)) as [Hlo2 Hhi2].
    rewrite Z2Pos.id in Hlo2, Hhi2 by exact Hpos.
    set (dm := Z.pos (digits2_pos (Z.to_pos m2))) in *.
    assert (Hdm : dm <= prec).
    { destruct (Z_le_gt_dec dm prec) as [H|H]; [exact H|]. exfalso.
      assert (2 ^ prec <= 2 ^ (dm - 1)) by (apply Z.pow_le_mono_r; lia). lia. }
    destruct (Z_le_gt_dec (d + e - prec) (SpecFloat.emin prec emax)) as [Hsub|Hnrm].
    + unfold e0, SpecFloat.fexp. fold (SpecFloat.emin prec emax). fold d. lia.
    + assert (Hlow : 2 ^ (prec - 1) <= m2) by (specialize (Hnorm ltac:(lia)); lia).
      assert (Edm : dm = prec).
      { destruct (Z.eq_dec dm prec) as [H|H]; [exact H|]. exfalso.
        assert (2 ^ dm <= 2 ^ (prec - 1)) by (apply Z.pow_le_mono_r; lia). lia. }
      rewrite Edm. unfold e0, SpecFloat.fexp. fold (SpecFloat.emin prec emax). fold d. lia.
Qed.

Lemma shl_align_fexp_spec (m : positive) (e : Z) :
  let '(mz, ez) := shl_align m e ((SpecFloat.fexp prec emax) (Z.pos (digits2_pos m) + e)) in
  ez <= (SpecFloat.fexp prec emax) (Z.pos (digits2_pos mz) + ez).
Proof.
  unfold shl_align.
  set (e' := (SpecFloat.fexp prec emax) (Z.pos (digits2_pos m) + e)).
  destruct (e' - e) as [|k|k] eqn:Ek; try (fold e'; lia).
  rewrite (digits2_shift m (Z.pos k) (Pos.iter xO m k)) by (try apply iter_xO; lia).
  replace (Z.pos (digits2_pos m) + Z.pos k + e') with (Z.pos (digits2_pos m) + e) by lia.
  fold e'. lia.
Qed.

(** [binary_round] returns a value of the format, with the sign given. *)
Lemma binary_round_valid (s : bool) (m : positive) (e : Z) :
  match binary_round prec emax s m e with
  | S754_finite s' m' e' =>
      s' = s /\ canonical_mantissa prec emax m' e' = true /\ e' <= emax - prec
  | S754_zero s' | S754_infinity s' => s' = s
  | S754_nan => False
  end.
Proof.
  unfold binary_round.
  pose proof (shl_align_fexp_spec m e) as Hsh.
  destruct (shl_align m e _) as [mz ez].
  destruct (binary_round_aux_spec s mz ez loc_Exact Hsh)
    as (m2 & Hm2 & _ & _ & Hm1 & Hres).
  rewrite Hres.
  destruct (finish prec emax s m2 _) as [s'|s'| |s' m' e'] eqn:Hfin.
  - apply (finish_sign s s' m2 _ (or_introl Hfin)).
  - apply (finish_sign s s' m2 _ (or_intror Hfin)).
  - exact (finish_not_nan _ _ _ Hfin).
  - pose proof (finish_canonical _ _ _ _ _ _ _ Hsh Hm2 Hfin) as Hcan.
    assert (H0 : 0 <= m2) by lia.
    destruct (finish_value _ _ _ _ _ _ H0 (fexp_ge_emin _) Hfin)
      as (Hs & _ & Hle & _).
    auto.
Qed.

End Rounding.

(** *** Binary64 *)

Lemma fexp64 (x : Z) : SpecFloat.fexp 53 1024 x = Z.max (x - 53) (-1074).
Proof. reflexivity. Qed.

Lemma fexp32 (x : Z) : SpecFloat.fexp 24 128 x = Z.max (x - 24) (-149).
Proof. reflexivity. Qed.

Lemma pow2_53 : 2 ^ 53 = 9007199254740992.
Proof. reflexivity. Qed.

Lemma pow2_52 : 2 ^ 52 = 4503599627370496.
Proof. reflexivity. Qed.

Lemma digits53 (m : positive) :
  Z.pos (digits2_pos m) = 53 <-> 2 ^ 52 <= Z.pos m < 2 ^ 53.
Proof.
  split.
  - intros H. pose proof (digits2_bounds m) as B. rewrite H in B. exact B.
  - intros H. apply digits2_unique. exact H.
Qed.

(** The quotient [0.95 / p] for a normal [p] in the binary32 range: a
    normal binary64 value [g] with [p * g] within [2 ^ -52] of 0.95. *)
Lemma div_0_95 (mp : positive) (ep : Z) :
  Z.pos (digits2_pos mp) = 53 -> -201 <= ep <= 75 ->
  exists mg eg,
    SFdiv 53 1024 (S754_finite false 8556839292003942 (-53)) (S754_finite false mp ep) =
      S754_finite false mg eg /\
    Z.pos (digits2_pos mg) = 53 /\
    0 <= eg + ep + 106 <= 2 /\
    8556839292003942 * 2 ^ 53 - 2 ^ 54 < Z.pos mp * Z.pos mg * 2 ^ (eg + ep + 106)
      < 8556839292003942 * 2 ^ 53 + 2 ^ 54.
Proof.
  intros Hd Hep. pose proof (proj1 (digits53 mp) Hd) as Hmp.
  rewrite pow2_52, pow2_53 in Hmp.
  unfold SFdiv, SFdiv_core_binary. cbn [xorb].
  change (Zdigits2 (8556839292003942)) with 53.
  change (Zdigits2 (Z.pos mp)) with (Z.pos (digits2_pos mp)). rewrite Hd.
  rewrite fexp64.
  replace (Z.min (Z.max (53 + -53 - (53 + ep) - 53) (-1074)) (-53 - ep))
    with (-106 - ep) by lia.
  replace (-53 - ep - (-106 - ep)) with 53 by lia.
  change (Z.shiftl (8556839292003942) 53) with (8556839292003942 * 2 ^ 53).
  pose proof (Z_div_mod (8556839292003942 * 2 ^ 53) (Z.pos mp) (eq_refl _)) as Hdiv.
  destruct (Z.div_eucl (8556839292003942 * 2 ^ 53) (Z.pos mp)) as [q r].
  destruct Hdiv as (Hq & Hr).
  assert (Hqlo : 2 ^ 52 <= q).
  { rewrite pow2_52. rewrite pow2_53 in Hq. nia. }
  assert (Hqhi : q < 2 ^ 54).
  { change (2 ^ 54) with 18014398509481984. rewrite pow2_53 in Hq. nia. }
  destruct q as [|q|q]; try (rewrite pow2_52 in Hqlo; lia).
  pose proof (digits2_bounds q) as Hdq.
  assert (Hdq' : Z.pos (digits2_pos q) = 53 \/ Z.pos (digits2_pos q) = 54).
  { destruct (Z.eq_dec (Z.pos (digits2_pos q)) 53) as [E|NE]; [left; exact E|right].
    apply digits2_unique. split; [|exact Hqhi].
    change (54 - 1) with 53.
    destruct (Z_lt_le_dec (Z.pos q) (2 ^ 53)) as [Hlt|Hge]; [|exact Hge].
    exfalso. apply NE. apply digits2_unique. split; [exact Hqlo|exact Hlt]. }
  pose proof (binary_round_aux_spec 53 1024 (eq_refl _) false q (-106 - ep)
                (new_location (Z.pos mp) r)) as Hspec.
  cbv zeta in Hspec. rewrite fexp64 in Hspec.
  set (dq := Z.pos (digits2_pos q)) in *.
  replace (Z.max (dq + (-106 - ep) - 53) (-1074)) with (dq - 159 - ep) in Hspec by lia.
  replace (dq - 159 - ep - (-106 - ep)) with (dq - 53) in Hspec by lia.
  destruct Hspec as (m2 & Hm2 & _ & _ & Hm1 & Hres); [lia|].
  rewrite Hres. unfold finish.
  set (m1 := Z.pos q / 2 ^ (dq - 53)) in *.
  assert (Hm1lo : 2 ^ 52 <= m1).
  { unfold m1. destruct Hdq' as [E|E]; rewrite E.
    - change (2 ^ (53 - 53)) with 1. rewrite Z.div_1_r. exact Hqlo.
    - change (2 ^ (54 - 53)) with 2. apply Z.div_le_lower_bound; [lia|].
      rewrite E in Hdq. change (2 ^ (54 - 1)) with (2 * 2 ^ 52) in Hdq. lia. }
  assert (Hm1q : m1 * 2 ^ (dq - 53) <= Z.pos q < (m1 + 1) * 2 ^ (dq - 53)).
  { assert (Hp : 0 < 2 ^ (dq - 53)) by (apply Z.pow_pos_nonneg; lia).
    unfold m1. pose proof (Z.mul_div_le (Z.pos q) _ Hp).
    pose proof (Z.mul_succ_div_gt (Z.pos q) _ Hp). lia. }
  assert (Hn : 2 ^ (dq - 53) = 1 \/ 2 ^ (dq - 53) = 2).
  { destruct Hdq' as [E|E]; rewrite E; [left|right]; reflexivity. }
  rewrite pow2_52 in Hm1lo. rewrite pow2_53 in Hm1, Hq.
  destruct (Z.eqb_spec m2 0) as [Hz|Hz]; [lia|].
  destruct (Z.eqb_spec m2 (2 ^ 53)) as [Hc|Hc].
  - destruct (Z.leb_spec (dq - 159 - ep + 1) (1024 - 53)) as [Hle|Hgt]; [|lia].
    exists (Z.to_pos (2 ^ (53 - 1))), (dq - 159 - ep + 1).
    split; [reflexivity|]. split; [reflexivity|]. split; [lia|].
    replace (dq - 159 - ep + 1 + ep + 106) with (dq - 53 + 1) by lia.
    rewrite Z.pow_add_r by lia. change (2 ^ 1) with 2.
    change (Z.pos (Z.to_pos (2 ^ (53 - 1)))) with 4503599627370496.
    rewrite pow2_53 in Hc. rewrite pow2_53.
    change (2 ^ 54) with 18014398509481984. nia.
  - destruct (Z.leb_spec (dq - 159 - ep) (1024 - 53)) as [Hle|Hgt]; [|lia].
    exists (Z.to_pos m2), (dq - 159 - ep).
    assert (Hpos : Z.pos (Z.to_pos m2) = m2) by (apply Z2Pos.id; lia).
    split; [reflexivity|]. split.
    + apply digits53. rewrite Hpos, pow2_52, pow2_53. rewrite pow2_53 in Hc. lia.
    + split; [lia|]. rewrite Hpos.
      replace (dq - 159 - ep + ep + 106) with (dq - 53) by lia.
      rewrite pow2_53. change (2 ^ 54) with 18014398509481984. nia.
Qed.

(** The product of a normal [p] and [g = 0.95 / p]: within two units in
    the last place of 0.95. *)
Lemma mul_at_peak (s : bool) (mp : positive) (ep : Z) (mg : positive) (eg : Z) :
  0 <= eg + ep + 106 <= 2 ->
  8556839292003942 * 2 ^ 53 - 2 ^ 54 < Z.pos mp * Z.pos mg * 2 ^ (eg + ep + 106)
    < 8556839292003942 * 2 ^ 53 + 2 ^ 54 ->
  exists m2,
    SFmul 53 1024 (S754_finite s mp ep) (S754_finite false mg eg) =
      S754_finite s (Z.to_pos m2) (-53) /\
    8556839292003942 - 2 <= m2 <= 8556839292003942 + 2.
Proof.
  intros HK Hb. unfold SFmul. rewrite xorb_false_r.
  set (m := (mp * mg)%positive).
  assert (Em : Z.pos m = Z.pos mp * Z.pos mg) by reflexivity.
  rewrite <- Em in Hb.
  set (K := eg + ep + 106) in *.
  assert (HE : ep + eg = K - 106) by (unfold K; lia). rewrite HE.
  change (2 ^ 54) with 18014398509481984 in Hb. rewrite pow2_53 in Hb.
  assert (Hd : Z.pos (digits2_pos m) = 106 - K).
  { apply digits2_unique.
    assert (HK' : K = 0 \/ K = 1 \/ K = 2) by lia.
    destruct HK' as [E|[E|E]]; rewrite E in *; simpl Z.sub; split.
    - change (2 ^ 105) with 40564819207303340847894502572032. simpl Z.pow in Hb. lia.
    - change (2 ^ 106) with 81129638414606681695789005144064. simpl Z.pow in Hb. lia.
    - change (2 ^ 104) with 20282409603651670423947251286016. simpl Z.pow in Hb. lia.
    - change (2 ^ 105) with 40564819207303340847894502572032. simpl Z.pow in Hb. lia.
    - change (2 ^ 103) with 10141204801825835211973625643008. simpl Z.pow in Hb. lia.
    - change (2 ^ 104) with 20282409603651670423947251286016. simpl Z.pow in Hb. lia. }
  pose proof (binary_round_aux_spec 53 1024 (eq_refl _) s m (K - 106) loc_Exact) as Hspec.
  cbv zeta in Hspec. rewrite Hd, fexp64 in Hspec.
  replace (Z.max (106 - K + (K - 106) - 53) (-1074)) with (-53) in Hspec by lia.
  replace (-53 - (K - 106)) with (53 - K) in Hspec by lia.
  destruct Hspec as (m2 & Hm2 & _ & _ & Hm1 & Hres); [lia|].
  rewrite Hres. unfold finish.
  set (m1 := Z.pos m / 2 ^ (53 - K)) in *.
  assert (Hm1q : m1 * 2 ^ (53 - K) <= Z.pos m < (m1 + 1) * 2 ^ (53 - K)).
  { assert (Hp : 0 < 2 ^ (53 - K)) by (apply Z.pow_pos_nonneg; lia).
    unfold m1. pose proof (Z.mul_div_le (Z.pos m) _ Hp).
    pose proof (Z.mul_succ_div_gt (Z.pos m) _ Hp). lia. }
  assert (Hpow : 2 ^ (53 - K) * 2 ^ K = 9007199254740992).
  { rewrite <- Z.pow_add_r by lia. replace (53 - K + K) with 53 by lia. reflexivity. }
  assert (HpK : 0 < 2 ^ K) by (apply Z.pow_pos_nonneg; lia).
  assert (Hm1b : 8556839292003942 - 2 <= m1 <= 8556839292003942 + 1) by nia.
  exists m2. split; [|lia].
  destruct (Z.eqb_spec m2 0) as [Hz|Hz]; [lia|].
  destruct (Z.eqb_spec m2 (2 ^ 53)) as [Hc|Hc]; [rewrite pow2_53 in Hc; lia|].
  reflexivity.
Qed.

(** Stored into a [Float32Array], a binary64 value within two units in
    the last place of 0.95 becomes the binary32 value nearest to 0.95. *)
Lemma fround_near_0_95 (s : bool) (m2 : Z) :
  8556839292003942 - 2 <= m2 <= 8556839292003942 + 2 ->
  fround (S754_finite s (Z.to_pos m2) (-53)) = S754_finite s 8556839184629760 (-53).
Proof.
  intros H.
  assert (E : m2 = 8556839292003942 - 2 \/ m2 = 8556839292003942 - 1 \/ m2 = 8556839292003942 \/
              m2 = 8556839292003942 + 1 \/ m2 = 8556839292003942 + 2) by lia.
  destruct E as [->|[->|[->|[->| ->]]]]; destruct s; vm_compute; reflexivity.
Qed.

(** *** Canonical representations *)

Lemma canonical64 (m : positive) (e : Z) :
  canonical_mantissa 53 1024 m e = true <->
  (Z.pos (digits2_pos m) = 53 /\ -1074 <= e) \/
  (Z.pos (digits2_pos m) < 53 /\ e = -1074).
Proof.
  unfold canonical_mantissa. rewrite Z.eqb_eq, fexp64. lia.
Qed.

Lemma canonical32 (m : positive) (e : Z) :
  canonical_mantissa 24 128 m e = true <->
  (Z.pos (digits2_pos m) = 24 /\ -149 <= e) \/
  (Z.pos (digits2_pos m) < 24 /\ e = -149).
Proof.
  unfold canonical_mantissa. rewrite Z.eqb_eq, fexp32. lia.
Qed.

(** A binary32 value read as a binary64 value: the mantissa is padded to
    53 digits. *)
Lemma widen_spec (s : bool) (m : positive) (e : Z) :
  Z.pos (digits2_pos m) <= 24 -> -149 <= e <= 104 ->
  exists M,
    binary_round 53 1024 s m e =
      S754_finite s M (e + Z.pos (digits2_pos m) - 53) /\
    Z.pos M = Z.pos m * 2 ^ (53 - Z.pos (digits2_pos m)) /\
    Z.pos (digits2_pos M) = 53.
Proof.
  intros Hd He. set (d := Z.pos (digits2_pos m)) in *.
  unfold binary_round. rewrite fexp64. fold d.
  replace (Z.max (d + e - 53) (-1074)) with (d + e - 53) by lia.
  unfold shl_align.
  replace (d + e - 53 - e) with (d - 53) by lia.
  destruct (d - 53) as [|k|k] eqn:Ek; try lia.
  set (M := Pos.iter xO m k).
  assert (EM : Z.pos M = Z.pos m * 2 ^ (53 - d)).
  { unfold M. rewrite iter_xO. f_equal. f_equal. lia. }
  assert (DM : Z.pos (digits2_pos M) = 53).
  { rewrite (digits2_shift m (53 - d) M) by (try exact EM; lia). fold d. lia. }
  pose proof (binary_round_aux_spec 53 1024 (eq_refl _) s M (d + e - 53) loc_Exact)
    as Hspec.
  cbv zeta in Hspec. rewrite DM, fexp64 in Hspec.
  replace (Z.max (53 + (d + e - 53) - 53) (-1074)) with (d + e - 53) in Hspec by lia.
  rewrite Z.sub_diag in Hspec. change (2 ^ 0) with 1 in Hspec.
  rewrite Z.div_1_r in Hspec.
  destruct Hspec as (m2 & _ & Hex & _ & Hm1 & Hres); [lia|].
  rewrite (Hex eq_refl eq_refl) in Hres. rewrite Hres. unfold finish.
  destruct (Z.eqb_spec (Z.pos M) 0) as [Hz|Hz]; [lia|].
  destruct (Z.eqb_spec (Z.pos M) (2 ^ 53)) as [Hc|Hc]; [lia|].
  destruct (Z.leb_spec (d + e - 53) (1024 - 53)) as [Hle|Hgt]; [|lia].
  exists M. replace (e + d - 53) with (d + e - 53) by lia.
  split; [reflexivity|]. split; [exact EM|exact DM].
Qed.

(** *** Stores into a [Float32Array] *)

(** What a store leaves in the array: a finite value has a mantissa of
    53 digits and an exponent in the range of binary32. *)
Lemma fround_shape (s : bool) (m : positive) (e : Z) :
  match fround (S754_finite s m e) with
  | S754_finite s' M E =>
      s' = s /\ Z.pos (digits2_pos M) = 53 /\ -201 <= E <= 75
  | S754_zero s' | S754_infinity s' => s' = s
  | S754_nan => False
  end.
Proof.
  unfold fround.
  pose proof (binary_round_valid 24 128 (eq_refl _) s m e) as Hv.
  destruct (binary_round 24 128 s m e) as [s'|s'| |s' m' e']; try exact Hv.
  destruct Hv as (-> & Hcan & Hle).
  apply canonical32 in Hcan.
  destruct (widen_spec s m' e') as (M & EM & _ & HM); try lia.
  unfold prec, emax. rewrite EM.
  split; [reflexivity|]. split; [exact HM|]. lia.
Qed.

(** The product of a sample by the gain, when the exact product is below
    [(m + 2) * 2 ^ -53], where [m] is the mantissa of the literal 0.95:
    the rounded product is not above that bound. *)
Lemma round64_below (s : bool) (X : positive) (E : Z) :
  53 <= Z.pos (digits2_pos X) -> -1300 <= E ->
  Z.pos X * 2 ^ (E + 1300) < (8556839292003942 + 2) * 2 ^ 1247 ->
  binary_round_aux 53 1024 s (Z.pos X) E loc_Exact = S754_zero s \/
  exists mY eY,
    binary_round_aux 53 1024 s (Z.pos X) E loc_Exact = S754_finite s mY eY /\
    canonical_mantissa 53 1024 mY eY = true /\
    Z.pos mY * 2 ^ (eY + 1074) <= (8556839292003942 + 2) * 2 ^ 1021.
Proof.
  intros Hd HE Hb.
  pose proof (digits2_bounds X) as [Hlo Hhi].
  set (d := Z.pos (digits2_pos X)) in *.
  assert (HdE : d + E <= 0).
  { assert (H1 : 2 ^ (d - 1 + (E + 1300)) < 2 ^ 1300).
    { rewrite Z.pow_add_r by lia.
      assert (Hp : 0 < 2 ^ (E + 1300)) by (apply Z.pow_pos_nonneg; lia).
      apply Z.le_lt_trans with (Z.pos X * 2 ^ (E + 1300)).
      - apply Z.mul_le_mono_nonneg_r; lia.
      - apply Z.lt_trans with (1 := Hb).
        change (2 ^ 1300) with (2 ^ 53 * 2 ^ 1247).
        apply Z.mul_lt_mono_pos_r; [apply Z.pow_pos_nonneg; lia|].
        rewrite pow2_53. lia. }
    apply Z.pow_lt_mono_r_iff in H1; lia. }
  pose proof (binary_round_aux_spec 53 1024 (eq_refl _) s X E loc_Exact) as Hspec.
  cbv zeta in Hspec. fold d in Hspec. rewrite fexp64 in Hspec.
  set (e0 := Z.max (d + E - 53) (-1074)) in *.
  assert (He0 : E <= e0) by (unfold e0; lia).
  destruct (Hspec He0) as (m2 & Hm2 & _ & _ & Hm1 & Hres). clear Hspec.
  rewrite Hres.
  set (n := e0 - E) in *. set (m1 := Z.pos X / 2 ^ n) in *.
  assert (Hn : 0 <= n) by (unfold n; lia).
  assert (Hval : m2 * 2 ^ (e0 + 1074) <= (8556839292003942 + 2) * 2 ^ 1021).
  { set (a := e0 + 1074). set (t := -53 - e0).
    assert (Ha : 0 <= a) by (unfold a, e0; lia).
    assert (Ht : 0 <= t) by (unfold t, e0; lia).
    assert (HN : 0 < 2 ^ n) by (apply Z.pow_pos_nonneg; lia).
    assert (HP : 0 < 2 ^ (E + 1300)) by (apply Z.pow_pos_nonneg; lia).
    assert (HA : 0 < 2 ^ a) by (apply Z.pow_pos_nonneg; lia).
    assert (HT : 0 < 2 ^ t) by (apply Z.pow_pos_nonneg; lia).
    assert (HQ : 0 < 2 ^ 226) by (apply Z.pow_pos_nonneg; lia).
    assert (E1 : 2 ^ n * 2 ^ (E + 1300) = 2 ^ a * 2 ^ 226).
    { rewrite <- !Z.pow_add_r by lia. f_equal. unfold n, a. lia. }
    assert (E2 : 2 ^ 1021 = 2 ^ t * 2 ^ a).
    { rewrite <- Z.pow_add_r by lia. f_equal. unfold t, a. lia. }
    assert (E3 : 2 ^ 1247 = 2 ^ t * (2 ^ a * 2 ^ 226)).
    { rewrite <- !Z.pow_add_r by lia. f_equal. unfold t, a. lia. }
    assert (Hq : m1 * 2 ^ n <= Z.pos X).
    { unfold m1. rewrite Z.mul_comm. apply Z.mul_div_le. exact HN. }
    rewrite E2. rewrite E3 in Hb.
    assert (H1 : m1 * (2 ^ a * 2 ^ 226) < (8556839292003942 + 2) * 2 ^ t * (2 ^ a * 2 ^ 226)).
    { rewrite <- E1. rewrite Z.mul_assoc.
      apply Z.le_lt_trans with (Z.pos X * 2 ^ (E + 1300)).
      - apply Z.mul_le_mono_nonneg_r; lia.
      - rewrite E1. rewrite <- Z.mul_assoc. exact Hb. }
    apply Z.mul_lt_mono_pos_r in H1; [|lia].
    rewrite Z.mul_assoc. apply Z.mul_le_mono_nonneg_r; lia. }
  destruct (finish 53 1024 s m2 e0) as [s'|s'| |s' mY eY] eqn:Hfin.
  - left. f_equal. apply (finish_sign 53 1024 s s' m2 e0). left. exact Hfin.
  - exfalso. unfold finish in Hfin.
    destruct (m2 =? 0); [discriminate|].
    destruct (m2 =? 2 ^ 53).
    + destruct (Z.leb_spec (e0 + 1) (1024 - 53)); [discriminate|lia].
    + destruct (Z.leb_spec e0 (1024 - 53)); [discriminate|lia].
  - exfalso. exact (finish_not_nan _ _ _ _ _ Hfin).
  - right.
    assert (H0 : 0 <= m2) by lia.
    destruct (finish_value 53 1024 (eq_refl _) s s' m2 e0 mY eY H0) as (-> & _ & _ & Hv);
      [unfold e0, SpecFloat.emin; lia|exact Hfin|].
    exists mY, eY. split; [reflexivity|]. split.
    + apply (finish_canonical 53 1024 (eq_refl _) s s X E m2 mY eY).
      * rewrite fexp64. fold d. fold e0. exact He0.
      * rewrite fexp64. fold d. fold e0. fold n. fold m1. exact Hm2.
      * rewrite fexp64. fold d. fold e0. exact Hfin.
    + change (SpecFloat.emin 53 1024) with (-1074) in Hv.
      replace (eY + 1074) with (eY - -1074) by lia.
      rewrite Hv. replace (e0 - -1074) with (e0 + 1074) by lia. exact Hval.
Qed.

Lemma pow2_29 : 2 ^ 29 = 536870912.
Proof. reflexivity. Qed.

Lemma pow2_28 : 2 ^ 28 = 268435456.
Proof. reflexivity. Qed.

(** A binary64 value that is not above [(m + 2) * 2 ^ -53], where [m] is
    the mantissa of the literal 0.95, is stored as
    a binary32 value that is not above the binary32 value nearest to
    0.95. *)
Lemma fround_below (s : bool) (mY : positive) (eY : Z) :
  canonical_mantissa 53 1024 mY eY = true ->
  Z.pos mY * 2 ^ (eY + 1074) <= (8556839292003942 + 2) * 2 ^ 1021 ->
  fround (S754_finite s mY eY) = S754_zero s \/
  exists M E,
    fround (S754_finite s mY eY) = S754_finite s M E /\
    Z.pos M * 2 ^ (E + 1074) <= 8556839184629760 * 2 ^ 1021.
Proof.
  intros Hcan Hb. apply canonical64 in Hcan.
  pose proof (digits2_bounds mY) as [Hlo Hhi].
  set (d := Z.pos (digits2_pos mY)) in *.
  assert (HeY : -1074 <= eY) by lia.
  assert (HdE : d + eY <= 0).
  { assert (H1 : 2 ^ (d - 1 + (eY + 1074)) < 2 ^ 1074).
    { rewrite Z.pow_add_r by lia.
      assert (Hp : 0 < 2 ^ (eY + 1074)) by (apply Z.pow_pos_nonneg; lia).
      apply Z.le_lt_trans with (Z.pos mY * 2 ^ (eY + 1074)).
      - apply Z.mul_le_mono_nonneg_r; lia.
      - apply Z.le_lt_trans with (1 := Hb).
        change (2 ^ 1074) with (2 ^ 53 * 2 ^ 1021).
        apply Z.mul_lt_mono_pos_r; [apply Z.pow_pos_nonneg; lia|].
        rewrite pow2_53. lia. }
    apply Z.pow_lt_mono_r_iff in H1; lia. }
  set (e0 := Z.max (d + eY - 24) (-149)).
  assert (He0 : eY <= e0) by (unfold e0; lia).
  assert (Hsh : shl_align mY eY e0 = (mY, eY)).
  { unfold shl_align. destruct (e0 - eY) eqn:Ek; try reflexivity. lia. }
  pose proof (binary_round_aux_spec 24 128 (eq_refl _) s mY eY loc_Exact) as Hspec.
  cbv zeta in Hspec. fold d in Hspec. rewrite fexp32 in Hspec. fold e0 in Hspec.
  destruct (Hspec He0) as (m2 & Hm2 & _ & Hdown & Hm1 & Hres). clear Hspec.
  assert (Hfr : fround (S754_finite s mY eY) =
                match finish 24 128 s m2 e0 with
                | S754_finite s' m' e' => binary_round 53 1024 s' m' e'
                | y => y
                end).
  { unfold fround. unfold binary_round at 1. fold d. rewrite fexp32. fold e0.
    rewrite Hsh, Hres. reflexivity. }
  rewrite Hfr. clear Hfr.
  set (n := e0 - eY) in *. set (m1 := Z.pos mY / 2 ^ n) in *.
  assert (Hn : 0 <= n) by (unfold n; lia).
  assert (HN : 0 < 2 ^ n) by (apply Z.pow_pos_nonneg; lia).
  assert (Hq : m1 * 2 ^ n <= Z.pos mY).
  { unfold m1. rewrite Z.mul_comm. apply Z.mul_div_le. exact HN. }
  assert (Hval : m2 * 2 ^ (e0 + 1074) <= 8556839184629760 * 2 ^ 1021).
  { destruct (Z.eq_dec (d + eY) 0) as [Hz|Hnz].
    - assert (Ed : d = 53) by lia. assert (EeY : eY = -53) by lia.
      assert (Ee0 : e0 = -24) by (unfold e0; lia).
      assert (En : n = 29) by (unfold n; lia).
      rewrite EeY in Hb. change (-53 + 1074) with 1021 in Hb.
      apply Z.mul_le_mono_pos_r in Hb; [|apply Z.pow_pos_nonneg; lia].
      rewrite En, pow2_29 in Hq.
      assert (Hm1' : m1 <= 15938355) by lia.
      assert (Hm2' : m2 <= 15938355).
      { destruct (Z.eq_dec m1 15938355) as [Em1|Nm1]; [|lia].
        rewrite (Hdown eq_refl); [lia|lia|].
        rewrite En. change (29 - 1) with 28.
        apply Z.testbit_false; [lia|].
        assert (Hr : Z.pos mY / 2 ^ 28 = 2 * m1).
        { symmetry. apply Z.div_unique with (Z.pos mY - 2 ^ 28 * (2 * m1)).
          - left. rewrite pow2_28. lia.
          - lia. }
        rewrite Hr, Z.mul_comm. apply Z.mod_mul. lia. }
      rewrite Ee0. change (-24 + 1074) with (29 + 1021).
      rewrite Z.pow_add_r by lia. rewrite Z.mul_assoc.
      apply Z.mul_le_mono_nonneg_r; [apply Z.pow_nonneg; lia|].
      rewrite pow2_29. lia.
    - set (a := e0 + 1074). set (t := -1 - e0).
      assert (Ha : 0 <= a) by (unfold a, e0; lia).
      assert (Ht : 0 <= t) by (unfold t, e0; lia).
      assert (HA : 0 < 2 ^ a) by (apply Z.pow_pos_nonneg; lia).
      assert (HT : 0 < 2 ^ t) by (apply Z.pow_pos_nonneg; lia).
      assert (HP : 0 < 2 ^ (eY + 1074)) by (apply Z.pow_pos_nonneg; lia).
      assert (E1 : 2 ^ n * 2 ^ (eY + 1074) = 2 ^ a).
      { rewrite <- Z.pow_add_r by lia. f_equal. unfold n, a. lia. }
      assert (E2 : 2 ^ 1073 = 2 ^ t * 2 ^ a).
      { rewrite <- Z.pow_add_r by lia. f_equal. unfold t, a. lia. }
      assert (H1 : m1 * 2 ^ a < 2 ^ t * 2 ^ a).
      { rewrite <- E2, <- E1, Z.mul_assoc.
        apply Z.le_lt_trans with (Z.pos mY * 2 ^ (eY + 1074)).
        - apply Z.mul_le_mono_nonneg_r; lia.
        - apply Z.lt_le_trans with (2 ^ d * 2 ^ (eY + 1074)).
          + apply Z.mul_lt_mono_pos_r; lia.
          + rewrite <- Z.pow_add_r by lia. apply Z.pow_le_mono_r; lia. }
      apply Z.mul_lt_mono_pos_r in H1; [|lia].
      apply Z.le_trans with (2 ^ 1073).
      + rewrite E2. apply Z.mul_le_mono_nonneg_r; lia.
      + change (2 ^ 1073) with (2 ^ 52 * 2 ^ 1021).
        apply Z.mul_le_mono_nonneg_r; [apply Z.pow_nonneg; lia|].
        rewrite pow2_52. lia. }
  destruct (finish 24 128 s m2 e0) as [s'|s'| |s' m' e'] eqn:Hfin.
  - left. f_equal. apply (finish_sign 24 128 s s' m2 e0). left. exact Hfin.
  - exfalso. unfold finish in Hfin.
    destruct (m2 =? 0); [discriminate|].
    destruct (m2 =? 2 ^ 24).
    + destruct (Z.leb_spec (e0 + 1) (128 - 24)); [discriminate|unfold e0 in *; lia].
    + destruct (Z.leb_spec e0 (128 - 24)); [discriminate|unfold e0 in *; lia].
  - exfalso. exact (finish_not_nan _ _ _ _ _ Hfin).
  - right.
    assert (H0 : 0 <= m2) by lia.
    destruct (finish_value 24 128 (eq_refl _) s s' m2 e0 m' e' H0)
      as (-> & Hlo' & Hhi' & Hv); [unfold e0, SpecFloat.emin; lia|exact Hfin|].
    change (SpecFloat.emin 24 128) with (-149) in Hlo', Hv.
    change (128 - 24) with 104 in Hhi'.
    assert (Hc32 : canonical_mantissa 24 128 m' e' = true).
    { apply (finish_canonical 24 128 (eq_refl _) s s mY eY m2 m' e').
      - rewrite fexp32. fold d. fold e0. exact He0.
      - rewrite fexp32. fold d. fold e0. fold n. fold m1. exact Hm2.
      - rewrite fexp32. fold d. fold e0. exact Hfin. }
    apply canonical32 in Hc32.
    destruct (widen_spec s m' e') as (M & EM & HM & _); try lia.
    rewrite EM.
    exists M, (e' + Z.pos (digits2_pos m') - 53). split; [reflexivity|].
    rewrite HM. rewrite <- Z.mul_assoc, <- Z.pow_add_r by lia.
    replace (53 - Z.pos (digits2_pos m') + (e' + Z.pos (digits2_pos m') - 53 + 1074))
      with (e' - -149 + 925) by lia.
    rewrite Z.pow_add_r, Z.mul_assoc, Hv by lia.
    rewrite <- Z.mul_assoc, <- Z.pow_add_r by (unfold e0; lia).
    replace (e0 - -149 + 925) with (e0 + 1074) by lia. exact Hval.
Qed.

(** *** Comparisons *)

Lemma isFloat32_stored (x : number) : isFloat32 x -> stored x.
Proof.
  unfold isFloat32. destruct x as [s|s| |s m e]; simpl stored; auto.
  intros H. pose proof (fround_shape s m e) as Hs. rewrite H in Hs.
  destruct Hs as (_ & Hd & He). auto.
Qed.

Lemma abs_level (x : number) : stored x -> x <> S754_nan -> level (abs x).
Proof. destruct x; simpl; intros; try tauto; congruence. Qed.

Lemma mag_abs (x : number) : mag (abs x) = mag x.
Proof. destruct x; reflexivity. Qed.

Lemma mag_lt_exp (M : positive) (E : Z) (M' : positive) (E' : Z) :
  Z.pos (digits2_pos M) = 53 -> Z.pos (digits2_pos M') = 53 ->
  -1074 <= E < E' ->
  Z.pos M * 2 ^ (E + 1074) < Z.pos M' * 2 ^ (E' + 1074).
Proof.
  intros HM HM' HE.
  pose proof (digits2_bounds M) as [_ Hhi]. rewrite HM in Hhi.
  pose proof (digits2_bounds M') as [Hlo _]. rewrite HM' in Hlo.
  change (53 - 1) with 52 in Hlo.
  assert (Hp : 0 < 2 ^ (E + 1074)) by (apply Z.pow_pos_nonneg; lia).
  assert (Hq : 0 < 2 ^ (E' - E - 1)) by (apply Z.pow_pos_nonneg; lia).
  assert (E1 : 2 ^ (E' + 1074) = 2 * 2 ^ (E' - E - 1) * 2 ^ (E + 1074)).
  { rewrite <- Z.pow_succ_r, <- Z.pow_add_r by lia. f_equal. lia. }
  rewrite E1, pow2_53 in *. rewrite pow2_52 in Hlo.
  rewrite Z.mul_assoc. apply Z.mul_lt_mono_pos_r; [exact Hp|]. nia.
Qed.

Lemma mag_level_range (a : number) : level a -> 0 <= mag a <= 2 ^ 1300.
Proof.
  assert (H0 : 0 < 2 ^ 1300) by (apply Z.pow_pos_nonneg; lia).
  destruct a as [s|s| |s m e]; cbn [mag level]; try lia.
  intros (_ & Hd & He).
  pose proof (digits2_bounds m) as [_ Hhi]. rewrite Hd in Hhi.
  assert (Hp : 0 < 2 ^ (e + 1074)) by (apply Z.pow_pos_nonneg; lia).
  split; [apply Z.mul_nonneg_nonneg; lia|].
  apply Z.le_trans with (2 ^ 53 * 2 ^ (e + 1074)).
  - apply Z.mul_le_mono_nonneg_r; lia.
  - rewrite <- Z.pow_add_r by lia. apply Z.pow_le_mono_r; lia.
Qed.

Lemma mag_finite_lt (s : bool) (m : positive) (e : Z) :
  stored (S754_finite s m e) -> 0 < mag (S754_finite s m e) < 2 ^ 1300.
Proof.
  cbn [stored mag]. intros (Hd & He).
  pose proof (digits2_bounds m) as [_ Hhi]. rewrite Hd in Hhi.
  assert (Hp : 0 < 2 ^ (e + 1074)) by (apply Z.pow_pos_nonneg; lia).
  split; [apply Z.mul_pos_pos; lia|].
  apply Z.lt_le_trans with (2 ^ 53 * 2 ^ (e + 1074)).
  - apply Z.mul_lt_mono_pos_r; lia.
  - rewrite <- Z.pow_add_r by lia. apply Z.pow_le_mono_r; lia.
Qed.

(** On the absolute values that the peak loop compares, [<] is the order
    of the magnitudes. *)
Lemma ltb_mag (a b : number) :
  level a -> level b -> SFltb a b = (mag a <? mag b).
Proof.
  intros Ha Hb.
  destruct a as [sa|sa| |sa ma ea]; destruct b as [sb|sb| |sb mb eb];
    try contradiction.
  - reflexivity.
  - simpl in Hb. subst sb. reflexivity.
  - pose proof (mag_finite_lt sb mb eb (proj2 Hb)) as Hm.
    destruct Hb as (-> & _). unfold SFltb. cbn [SFcompare].
    symmetry. apply Z.ltb_lt. cbn [mag] in *. lia.
  - simpl in Ha. subst sa. reflexivity.
  - simpl in Ha, Hb. subst sa sb. reflexivity.
  - pose proof (mag_finite_lt sb mb eb (proj2 Hb)) as Hm.
    destruct Hb as (-> & _). simpl in Ha. subst sa.
    unfold SFltb. cbn [SFcompare]. symmetry. apply Z.ltb_ge. cbn [mag] in *. lia.
  - pose proof (mag_finite_lt sa ma ea (proj2 Ha)) as Hm.
    destruct Ha as (-> & _). unfold SFltb. cbn [SFcompare].
    symmetry. apply Z.ltb_ge. cbn [mag] in *. lia.
  - pose proof (mag_finite_lt sa ma ea (proj2 Ha)) as Hm.
    destruct Ha as (-> & _). simpl in Hb. subst sb.
    unfold SFltb. cbn [SFcompare]. symmetry. apply Z.ltb_lt. cbn [mag] in *. lia.
  - destruct Ha as (-> & Hda & Hea). destruct Hb as (-> & Hdb & Heb).
    unfold SFltb. cbn [SFcompare mag].
    destruct (Z.compare_spec ea eb) as [Heq|Hlt|Hgt].
    + subst eb. change (Pos.compare_cont Eq ma mb) with (Pos.compare ma mb).
      assert (Hp : 0 < 2 ^ (ea + 1074)) by (apply Z.pow_pos_nonneg; lia).
      destruct (Pos.compare_spec ma mb) as [H|H|H]; symmetry.
      * subst mb. apply Z.ltb_irrefl.
      * apply Z.ltb_lt. apply Z.mul_lt_mono_pos_r; [exact Hp|]. lia.
      * apply Z.ltb_ge. apply Z.mul_le_mono_nonneg_r; lia.
    + symmetry. apply Z.ltb_lt. apply mag_lt_exp; auto; lia.
    + symmetry. apply Z.ltb_ge. apply Z.lt_le_incl. apply mag_lt_exp; auto; lia.
Qed.

Lemma mag_inj (M : positive) (E : Z) (M' : positive) (E' : Z) :
  Z.pos (digits2_pos M) = 53 -> Z.pos (digits2_pos M') = 53 ->
  -1074 <= E -> -1074 <= E' ->
  Z.pos M * 2 ^ (E + 1074) = Z.pos M' * 2 ^ (E' + 1074) ->
  M = M' /\ E = E'.
Proof.
  intros HM HM' HE HE' Heq.
  destruct (Z.lt_total E E') as [H|[H|H]].
  - pose proof (mag_lt_exp M E M' E' HM HM' (conj HE H)). lia.
  - subst E'. split; [|reflexivity].
    assert (Hp : 0 < 2 ^ (E + 1074)) by (apply Z.pow_pos_nonneg; lia).
    apply Z.mul_reg_r in Heq; [|lia]. congruence.
  - pose proof (mag_lt_exp M' E' M E HM' HM (conj HE' H)). lia.
Qed.

(** *** The peak loop *)

Lemma gt_nan (q : number) : gt S754_nan q = false.
Proof. destruct q; reflexivity. Qed.

Lemma peakFrom_spec (data : Float32Array) :
  Forall stored data ->
  forall q, level q ->
  let r := peakFrom q data in
  level r /\ mag q <= mag r /\
  Forall (fun x => mag x <= mag r) data /\
  (r = q \/ exists x, In x data /\ abs x = r).
Proof.
  induction 1 as [|x data Hx Hdata IH]; intros q Hq; cbn [peakFrom].
  - split; [exact Hq|]. split; [lia|]. split; [constructor|]. left. reflexivity.
  - cbv zeta.
    assert (Hcase : (gt (abs x) q = true /\ level (abs x) /\ mag q < mag x) \/
                    (gt (abs x) q = false /\ mag x <= mag q)).
    { destruct (gt (abs x) q) eqn:Hgt.
      - left. split; [reflexivity|].
        assert (Hn : x <> S754_nan).
        { intros ->. simpl abs in Hgt. rewrite gt_nan in Hgt. discriminate. }
        pose proof (abs_level x Hx Hn) as Hl. split; [exact Hl|].
        unfold gt in Hgt. rewrite (ltb_mag q (abs x) Hq Hl), mag_abs in Hgt.
        apply Z.ltb_lt. exact Hgt.
      - right. split; [reflexivity|].
        destruct (mag_level_range q Hq) as [Hq0 _].
        destruct x as [s|s| |s m e]; try (cbn [mag]; lia).
        + assert (Hl : level (abs (S754_infinity s))) by reflexivity.
          unfold gt in Hgt. rewrite (ltb_mag q _ Hq Hl) in Hgt.
          apply Z.ltb_ge in Hgt. exact Hgt.
        + assert (Hl : level (abs (S754_finite s m e))).
          { apply abs_level; [exact Hx|discriminate]. }
          unfold gt in Hgt. rewrite (ltb_mag q _ Hq Hl), mag_abs in Hgt.
          apply Z.ltb_ge in Hgt. exact Hgt. }
    destruct Hcase as [(-> & Hl & Hlt)|(-> & Hle)].
    + destruct (IH (abs x) Hl) as (Hr & Hm & Hall & Hex).
      rewrite mag_abs in Hm.
      split; [exact Hr|]. split; [lia|]. split; [constructor; [lia|exact Hall]|].
      right. destruct Hex as [E|(y & Hy & E)].
      * exists x. split; [left; reflexivity|]. symmetry. exact E.
      * exists y. split; [right; exact Hy|exact E].
    + destruct (IH q Hq) as (Hr & Hm & Hall & Hex).
      split; [exact Hr|]. split; [lia|]. split; [constructor; [lia|exact Hall]|].
      destruct Hex as [E|(y & Hy & E)]; [left; exact E|].
      right. exists y. split; [right; exact Hy|exact E].
Qed.

(** *** The gain *)

Lemma lit_0_95_eq : lit_0_95 = S754_finite false 8556839292003942 (-53).
Proof. vm_compute. reflexivity. Qed.

Lemma fround_0_95 : fround lit_0_95 = S754_finite false 8556839184629760 (-53).
Proof. vm_compute. reflexivity. Qed.

Section Gain.

Variables (mp : positive) (ep : Z) (mg : positive) (eg : Z).
Hypothesis peak_digits : Z.pos (digits2_pos mp) = 53.
Hypothesis peak_exponent : -201 <= ep <= 75.
Hypothesis gain_digits : Z.pos (digits2_pos mg) = 53.
Hypothesis gain_exponent : 0 <= eg + ep + 106 <= 2.
Hypothesis gain_value :
  8556839292003942 * 2 ^ 53 - 2 ^ 54 < Z.pos mp * Z.pos mg * 2 ^ (eg + ep + 106)
    < 8556839292003942 * 2 ^ 53 + 2 ^ 54.

(** The sample at the peak is stored as the binary32 value nearest to
    0.95. *)
Lemma gain_at_peak (s : bool) :
  fround (mul (S754_finite s mp ep) (S754_finite false mg eg)) =
  S754_finite s 8556839184629760 (-53).
Proof.
  destruct (mul_at_peak s mp ep mg eg gain_exponent gain_value) as (m2 & E & Hm2).
  unfold mul, prec, emax. rewrite E. apply fround_near_0_95. exact Hm2.
Qed.

(** No sample is stored above it. *)
Lemma gain_below (x : number) :
  stored x -> mag x <= Z.pos mp * 2 ^ (ep + 1074) ->
  below (8556839184629760 * 2 ^ 1021) (fround (mul x (S754_finite false mg eg))).
Proof.
  intros Hx Hle.
  assert (Hb0 : 0 <= 8556839184629760 * 2 ^ 1021).
  { apply Z.mul_nonneg_nonneg; [lia|apply Z.pow_nonneg; lia]. }
  destruct x as [s|s| |s mx ex].
  - cbn. split; [exact I|exact Hb0].
  - exfalso. cbn [mag] in Hle.
    pose proof (mag_finite_lt false mp ep (conj peak_digits peak_exponent)) as H.
    cbn [mag] in H. lia.
  - cbn. split; [exact I|lia].
  - cbn [stored] in Hx. destruct Hx as (Hdx & Hex). cbn [mag] in Hle.
    unfold mul, prec, emax. cbn [SFmul]. rewrite xorb_false_r.
    set (X := (mx * mg)%positive).
    assert (EX : Z.pos X = Z.pos mx * Z.pos mg) by reflexivity.
    assert (HdX : 53 <= Z.pos (digits2_pos X)).
    { pose proof (digits2_bounds X) as [_ Hhi].
      pose proof (digits2_bounds mg) as [Hlo _]. rewrite gain_digits in Hlo.
      destruct (Z_le_gt_dec 53 (Z.pos (digits2_pos X))) as [H|H]; [exact H|].
      exfalso.
      assert (2 ^ Z.pos (digits2_pos X) <= 2 ^ (53 - 1))
        by (apply Z.pow_le_mono_r; lia).
      assert (Z.pos mg <= Z.pos X) by (rewrite EX; nia). lia. }
    assert (Hbound : Z.pos X * 2 ^ (ex + eg + 1300) < (8556839292003942 + 2) * 2 ^ 1247).
    { set (u := ex + 1074) in *. set (v := ep + 1074) in *.
      set (K := eg + ep + 106) in *. set (w := 120 - ep).
      assert (Hu : 0 <= u) by (unfold u; lia).
      assert (Hv : 0 <= v) by (unfold v; lia).
      assert (Hw : 0 <= w) by (unfold w; lia).
      assert (E1 : 2 ^ (ex + eg + 1300) = 2 ^ u * 2 ^ K * 2 ^ w).
      { rewrite <- !Z.pow_add_r by lia. f_equal. unfold u, K, w. lia. }
      assert (E2 : 2 ^ 1247 = 2 ^ 53 * 2 ^ v * 2 ^ w).
      { rewrite <- !Z.pow_add_r by lia. f_equal. unfold v, w. lia. }
      rewrite E1, E2, EX.
      assert (HU : 0 < 2 ^ u) by (apply Z.pow_pos_nonneg; lia).
      assert (HV : 0 < 2 ^ v) by (apply Z.pow_pos_nonneg; lia).
      assert (HK : 0 < 2 ^ K) by (apply Z.pow_pos_nonneg; lia).
      assert (HW : 0 < 2 ^ w) by (apply Z.pow_pos_nonneg; lia).
      destruct gain_value as [_ Hgv].
      replace (8556839292003942 * 2 ^ 53 + 2 ^ 54) with ((8556839292003942 + 2) * 2 ^ 53) in Hgv
        by (change (2 ^ 54) with (2 * 2 ^ 53); ring).
      rewrite !Z.mul_assoc. apply Z.mul_lt_mono_pos_r; [exact HW|].
      apply Z.le_lt_trans with (Z.pos mp * 2 ^ v * (Z.pos mg * 2 ^ K)).
      - replace (Z.pos mx * Z.pos mg * 2 ^ u * 2 ^ K)
          with (Z.pos mx * 2 ^ u * (Z.pos mg * 2 ^ K)) by ring.
        apply Z.mul_le_mono_nonneg_r; [|exact Hle].
        apply Z.mul_nonneg_nonneg; lia.
      - replace (Z.pos mp * 2 ^ v * (Z.pos mg * 2 ^ K))
          with (Z.pos mp * Z.pos mg * 2 ^ K * 2 ^ v) by ring.
        apply Z.mul_lt_mono_pos_r; [exact HV|exact Hgv]. }
    assert (HE : -1300 <= ex + eg) by lia.
    destruct (round64_below s X (ex + eg) HdX HE Hbound)
      as [Ez|(mY & eY & EY & Hcan & HvY)].
    + rewrite Ez. cbn. split; [exact I|exact Hb0].
    + rewrite EY.
      pose proof (fround_shape s mY eY) as Hshape.
      destruct (fround_below s mY eY Hcan HvY) as [Ez|(M & E & EM & HvM)].
      * rewrite Ez. cbn. split; [exact I|exact Hb0].
      * rewrite EM in *. cbn [below stored mag].
        destruct Hshape as (_ & Hd & He). auto.
Qed.

End Gain.

Lemma below_not_above (y : number) :
  below (8556839184629760 * 2 ^ 1021) y -> gt (abs y) lit_0_95 = false.
Proof.
  intros Hy. rewrite lit_0_95_eq.
  assert (Hl : level (S754_finite false 8556839292003942 (-53))).
  { cbn. repeat split; lia. }
  destruct y as [s|s| |s m e]; try reflexivity; try contradiction.
  cbn [below] in Hy. destruct Hy as (Hs & Hm).
  assert (Hy : level (abs (S754_finite s m e))) by (apply abs_level; [exact Hs|discriminate]).
  unfold gt. rewrite (ltb_mag _ _ Hl Hy), mag_abs. apply Z.ltb_ge.
  apply Z.le_trans with (1 := Hm). cbn [mag]. change (-53 + 1074) with 1021.
  apply Z.mul_le_mono_nonneg_r; [apply Z.pow_nonneg; lia|lia].
Qed.

(** The peak of the normalized samples, computed as the code computes a
    peak, is the binary32 value nearest to 0.95, and no normalized sample
    is above 0.95. *)
Lemma applyGain_peak (data : Float32Array) :
  Forall isFloat32 data ->
  let peak := peakFrom zero data in
  isFinite peak = true -> gt peak zero = true ->
  let normalized := applyGain (div lit_0_95 peak) data in
  peakFrom zero normalized = fround lit_0_95 /\
  Forall (fun y => gt (abs y) lit_0_95 = false) normalized.
Proof.
  intros Hdata. cbv zeta.
  assert (Hst : Forall stored data).
  { apply Forall_impl with (2 := Hdata). exact isFloat32_stored. }
  destruct (peakFrom_spec data Hst zero eq_refl) as (Hl & _ & Hall & Hex).
  destruct (peakFrom zero data) as [sp|sp| |sp mp ep];
    intros Hfin Hpos; try discriminate.
  destruct Hl as (-> & Hdp & Hep).
  destruct Hex as [E|(x & Hx & Ex)]; [discriminate|].
  destruct (div_0_95 mp ep Hdp Hep) as (mg & eg & Eg & Hdg & HK & Hgv).
  assert (Egain : div lit_0_95 (S754_finite false mp ep) = S754_finite false mg eg).
  { rewrite lit_0_95_eq. exact Eg. }
  rewrite Egain.
  set (out := applyGain (S754_finite false mg eg) data).
  assert (Hbelow : Forall (below (8556839184629760 * 2 ^ 1021)) out).
  { unfold out, applyGain. apply Forall_map.
    rewrite Forall_forall in Hall, Hst. apply Forall_forall. intros y Hy.
    apply (gain_below mp ep mg eg Hdp Hep Hdg HK Hgv); [apply Hst, Hy|].
    apply (Hall y Hy). }
  split.
  - assert (Hso : Forall stored out).
    { apply Forall_impl with (2 := Hbelow). intros y. destruct y; cbn; tauto. }
    destruct (peakFrom_spec out Hso zero eq_refl) as (Hl & _ & Hall' & Hex').
    set (r := peakFrom zero out) in *.
    assert (Hin : In (S754_finite (match x with S754_finite s _ _ => s | _ => false end) 8556839184629760 (-53)) out).
    { destruct x as [s|s| |s m e]; try discriminate.
      cbn in Ex. injection Ex as -> ->.
      unfold out, applyGain.
      rewrite <- (gain_at_peak mp ep mg eg HK Hgv s).
      apply in_map with (f := fun x => fround (mul x (S754_finite false mg eg))).
      exact Hx. }
    rewrite Forall_forall in Hall'. apply Hall' in Hin. cbn [mag] in Hin.
    change (-53 + 1074) with 1021 in Hin.
    assert (Hpos32 : 0 < 8556839184629760 * 2 ^ 1021).
    { apply Z.mul_pos_pos; [lia|apply Z.pow_pos_nonneg; lia]. }
    destruct Hex' as [E|(y & Hy & Ey)].
    + rewrite E in Hin. cbn [mag zero] in Hin. lia.
    + rewrite Forall_forall in Hbelow. pose proof (Hbelow y Hy) as Hby.
      rewrite <- Ey in Hin. rewrite mag_abs in Hin.
      rewrite fround_0_95. rewrite <- Ey.
      destruct y as [s|s| |s m e];
        try (exfalso; cbn [below mag] in Hby, Hin; lia).
      cbn [below stored mag] in Hby. destruct Hby as ((Hd & He) & Hm).
      cbn [mag] in Hin.
      destruct (mag_inj m e 8556839184629760 (-53) Hd eq_refl) as (-> & ->); try lia.
      reflexivity.
  - apply Forall_impl with (2 := Hbelow). intros y. apply below_not_above.
Qed.

End FloatFacts.

(* ================================================================= *)
(** ** The transcription hook *)

Module HookFacts.
Import JsString Float Protocol HookCommon Vocabulary.

(** *** The [complete] handler of the two variants *)

(** On the hook that records then decodes, a [complete] event appends:
    the transcript grows by an optional space and the trimmed text. *)
Lemma complete_appends (data : Output) (st : TranscribeHook.Hook) :
  let prev := transcription (TranscribeHook.view st) in
  let next := transcription
                (TranscribeHook.view (TranscribeHook.onmessage (complete data) st)) in
  let space := if nonEmpty prev then str " " else [] in
  next =
  match data with
  | Single (Some text) => if nonEmpty text then prev ++ space ++ trim text else prev
  | Segments l => prev ++ space ++ trim (join (str " ") (map segText l))
  | Single None | Other => prev
  end.
Proof.
  destruct data as [[text|]|l|]; simpl; try reflexivity.
  destruct (nonEmpty text); reflexivity.
Qed.

(** On that hook the previous transcript is a prefix of the new one. *)
Lemma complete_extends (data : Output) (st : TranscribeHook.Hook) :
  exists suffix,
    transcription (TranscribeHook.view (TranscribeHook.onmessage (complete data) st)) =
    transcription (TranscribeHook.view st) ++ suffix.
Proof.
  pose proof (complete_appends data st) as H. cbv zeta in H. rewrite H.
  destruct data as [[text|]|l|].
  - destruct (nonEmpty text); eexists; [reflexivity|symmetry; apply app_nil_r].
  - exists []. symmetry. apply app_nil_r.
  - eexists. reflexivity.
  - exists []. symmetry. apply app_nil_r.
Qed.

(** C2, as amended.  On the hook that records then decodes, a [complete]
    event whose payload is an object with a text that is not empty, or an
    array of segments, extends the transcript: the new transcript is the
    previous one, a single space when the previous one is not empty, and
    the trimmed text (for an array, the texts of the segments joined with
    single spaces, then trimmed); every other payload leaves the
    transcript as it is; so the previous transcript is always a prefix of
    the new one.  On the streaming hook such a payload replaces the
    transcript by the trimmed text of the event alone, and every other
    payload leaves the transcript as it is. *)
Theorem complete_event_transcript (data : Output) :
  (forall st : TranscribeHook.Hook,
     let prev := transcription (TranscribeHook.view st) in
     let next := transcription
                   (TranscribeHook.view
                      (TranscribeHook.onmessage (complete data) st)) in
     let space := if nonEmpty prev then str " " else [] in
     next =
     match data with
     | Single (Some text) => if nonEmpty text then prev ++ space ++ trim text else prev
     | Segments l => prev ++ space ++ trim (join (str " ") (map segText l))
     | Single None | Other => prev
     end /\
     exists suffix, next = prev ++ suffix) /\
  (forall st : StreamingHook.Hook,
     let prev := transcription (StreamingHook.view st) in
     let next := transcription
                   (StreamingHook.view
                      (StreamingHook.onmessage (complete data) st)) in
     next =
     match data with
     | Single (Some text) => if nonEmpty text then trim text else prev
     | Segments l => trim (join (str " ") (map segText l))
     | Single None | Other => prev
     end).
Proof.
  split; intros st; cbv zeta.
  - split; [exact (complete_appends data st)|exact (complete_extends data st)].
  - destruct data as [[text|]|l|]; simpl; try reflexivity.
    destruct (nonEmpty text); reflexivity.
Qed.

(** C2, as stated, fails on the streaming hook: after two [complete]
    events in one recording the transcript is the text of the second
    alone, and the transcript after the first is no prefix of it; the
    claim has the first text, a space, and the second. *)
Lemma streaming_complete_overwrites :
  let first :=
    StreamingHook.run
      [StreamingHook.WorkerMessage ready;
       StreamingHook.StartRecording (Some (48 * 1000));
       StreamingHook.WorkerMessage (complete (Single (Some (str " hello"))))] in
  let second :=
    StreamingHook.onmessage (complete (Single (Some (str " world")))) first in
  transcription (StreamingHook.view first) = str "hello" /\
  transcription (StreamingHook.view second) = str "world" /\
  transcription (StreamingHook.view second) <> str "hello world".
Proof. vm_compute. repeat split. discriminate. Qed.

(** The same events on the hook that records then decodes. *)
Example recording_complete_appends :
  transcription
    (TranscribeHook.view
       (TranscribeHook.onmessage (complete (Single (Some (str " world"))))
          (TranscribeHook.onmessage (complete (Single (Some (str " hello"))))
             (TranscribeHook.onmessage ready TranscribeHook.mounted))))
  = str "hello world".
Proof. vm_compute. reflexivity. Qed.

(** *** Normalization of a silent buffer *)

Lemma one_eq : one = S754_finite false 4503599627370496 (-52).
Proof. vm_compute. reflexivity. Qed.

Lemma peakFrom_zero (data : Float32Array) :
  allZero data = true -> peakFrom zero data = zero.
Proof.
  induction data as [|x data IH]; simpl; intros H; [reflexivity|].
  apply andb_true_iff in H. destruct H as (Hx & Hd).
  destruct x; try discriminate. simpl. exact (IH Hd).
Qed.

Lemma applyGain_one_zero (data : Float32Array) :
  allZero data = true -> applyGain one data = data.
Proof.
  induction data as [|x data IH]; simpl; intros H; [reflexivity|].
  apply andb_true_iff in H. destruct H as (Hx & Hd).
  rewrite (IH Hd). destruct x as [s| | |]; try discriminate.
  rewrite one_eq. simpl. destruct s; reflexivity.
Qed.

(** C5, as amended.  For an all-zero buffer, [normalizeAudio] returns the
    buffer itself with gain 1.0 and peak 0 and adds the error entry "Audio
    peak is zero or invalid." to the log; the streaming hook multiplies by
    the gain 1.0, which leaves the samples as they are, and posts them
    with the entry "Sending chunk to worker" as its only record. *)
Theorem silent_buffer_unchanged (audioData : Float32Array) (v : View) :
  allZero audioData = true ->
  TranscribeHook.normalizeAudio audioData v =
    (TranscribeHook.MkNormalized audioData zero one,
     addLog "Audio peak is zero or invalid." [] Log.error v) /\
  StreamingHook.normalize audioData = audioData /\
  (forall st,
     StreamingHook.worker st = true ->
     StreamingHook.afterRendering (Some audioData) st =
     StreamingHook.postMessage (transcribe audioData)
       (StreamingHook.onView
          (fun v =>
             addLog "Sending chunk to worker:  samples (s)"
               [ofNat (length audioData);
                div (ofNat (length audioData)) (ofZ 16000)]
               Log.info (setIsTranscribing true v))
          st)).
Proof.
  intros H.
  assert (Hn : StreamingHook.normalize audioData = audioData).
  { unfold StreamingHook.normalize. rewrite (peakFrom_zero _ H). simpl.
    apply applyGain_one_zero, H. }
  split; [|split].
  - unfold TranscribeHook.normalizeAudio. rewrite (peakFrom_zero _ H). reflexivity.
  - exact Hn.
  - intros st Hw. unfold StreamingHook.afterRendering. rewrite Hn.
    cbn [StreamingHook.onView StreamingHook.worker]. rewrite Hw. reflexivity.
Qed.

Lemma silent_buffer_unchanged_witness :
  allZero [zero; S754_zero true] = true /\
  StreamingHook.normalize [zero; S754_zero true] = [zero; S754_zero true].
Proof.
  split; [reflexivity|].
  exact (proj1 (proj2 (silent_buffer_unchanged [zero; S754_zero true]
                         initialView eq_refl))).
Defined.

(** C5, on the streaming hook: a silent chunk is normalized and posted,
    and the log gets no entry of type error for it. *)
Lemma streaming_silent_chunk_unflagged :
  let st := StreamingHook.run
              [StreamingHook.WorkerMessage ready;
               StreamingHook.StartRecording (Some (48 * 1000));
               StreamingHook.AudioProcess (repeat zero 4096);
               StreamingHook.StopRecording;
               StreamingHook.Rendered 0 (Some (repeat zero 1366))] in
  StreamingHook.posted st = [configure; transcribe (repeat zero 1366)] /\
  existsb isErrorLog (logs (StreamingHook.view st)) = false.
Proof. vm_compute. split; reflexivity. Qed.

(** *** The normalized peak *)

(** C3.  For every buffer of binary32 samples whose peak is finite and
    above zero, [normalizeAudio] and the normalization of the streaming
    hook return the samples multiplied by the gain [0.95 / peak] and
    stored into a [Float32Array]; the peak of the normalized samples,
    computed as the code computes a peak, is the binary32 value nearest
    to 0.95 (the value [0.95] takes when it is stored), and no normalized
    sample is above 0.95 in absolute value. *)
Theorem normalized_peak (audioData : Float32Array) (v : View) :
  Forall isFloat32 audioData ->
  let peak := peakFrom zero audioData in
  isFinite peak = true -> gt peak zero = true ->
  let gain := div lit_0_95 peak in
  let normalized := applyGain gain audioData in
  fst (TranscribeHook.normalizeAudio audioData v) =
    TranscribeHook.MkNormalized normalized peak gain /\
  StreamingHook.normalize audioData = normalized /\
  peakFrom zero normalized = fround lit_0_95 /\
  Forall (fun y => gt (abs y) lit_0_95 = false) normalized.
Proof.
  intros Hdata. cbv zeta. intros Hfin Hpos.
  destruct (FloatFacts.applyGain_peak audioData Hdata Hfin Hpos) as [Hpeak Hall].
  split; [|split; [|split]].
  - unfold TranscribeHook.normalizeAudio. clear Hpeak Hall. revert Hfin Hpos.
    destruct (peakFrom zero audioData) as [s|s| |s m e];
      intros Hfin Hpos; try discriminate.
    destruct s; reflexivity.
  - unfold StreamingHook.normalize. rewrite Hpos. reflexivity.
  - exact Hpeak.
  - exact Hall.
Qed.

Lemma normalized_peak_witness :
  peakFrom zero
    (applyGain
       (div lit_0_95
          (peakFrom zero [div (ofZ 1) (ofZ 2); div (ofZ (-1)) (ofZ 4)]))
       [div (ofZ 1) (ofZ 2); div (ofZ (-1)) (ofZ 4)]) =
  fround lit_0_95.
Proof.
  exact (proj1 (proj2 (proj2
    (normalized_peak [div (ofZ 1) (ofZ 2); div (ofZ (-1)) (ofZ 4)] initialView
       (Forall_cons _ eq_refl (Forall_cons _ eq_refl (Forall_nil _)))
       eq_refl eq_refl)))).
Defined.

(** The value that 0.95 takes in a [Float32Array] lies below 0.95, by
    less than one part in [2 ^ 24]. *)
Example fround_0_95_below :
  fround lit_0_95 = S754_finite false 8556839184629760 (-53) /\
  lit_0_95 = S754_finite false 8556839292003942 (-53) /\
  gt lit_0_95 (fround lit_0_95) = true.
Proof. vm_compute. repeat split. Qed.

(** C3, on one buffer: the samples 0.5 and -0.25 come out as the binary32
    value nearest to 0.95, which lies below 0.95, and as half of it. *)
Example normalize_half_quarter :
  let half := div (ofZ 1) (ofZ 2) in
  let quarter := div (ofZ (-1)) (ofZ 4) in
  TranscribeHook.normalizedData
    (fst (TranscribeHook.normalizeAudio [half; quarter] initialView)) =
    [S754_finite false 8556839184629760 (-53);
     S754_finite true 8556839184629760 (-54)] /\
  SFcompare (S754_finite false 8556839184629760 (-53)) lit_0_95 = Some Lt.
Proof. vm_compute. split; reflexivity. Qed.

(** *** Dispatch in the streaming hook *)

Import StreamingHook.

Lemma posted_onView (f : View -> View) (st : Hook) :
  posted (onView f st) = posted st.
Proof. reflexivity. Qed.

Lemma lastn_snoc (A : Type) (n : nat) (l : list A) (x : A) :
  lastn (S n) (l ++ [x]) = lastn n l ++ [x].
Proof.
  unfold lastn. rewrite skipn_app, length_app. cbn [length].
  replace (length l + 1 - S n) with (length l - n) by lia.
  replace (length l - n - length l) with 0 by lia.
  reflexivity.
Qed.

Lemma addLog_newest (msg : string) (vals : list number) (t : Log.LogType) (v : View) :
  logs (addLog msg vals t v) = lastn 49 (logs v) ++ [MkLog (str msg) vals t].
Proof. unfold addLog. cbn [logs]. apply lastn_snoc. Qed.

(** C1, as amended.  A chunk is posted as soon as its rendering settles,
    after what has been posted before and whatever of it has been
    answered; a message from the worker posts nothing and starts nothing;
    a chunk that is flushed while the worker is missing or the model is
    not loaded is dropped with an error entry in the log: nothing is
    posted, no rendering is started, and the chunk is not kept in the
    sample buffer, which the flush of [onaudioprocess] and the flush of
    [stopRecording] leave empty. *)
Theorem dispatch_is_immediate (st : Hook) :
  (forall i chunk rest resampledData,
     takeOut i (rendering st) = Some (chunk, rest) ->
     worker st = true ->
     posted (step (Rendered i (Some resampledData)) st) =
       posted st ++ [transcribe (normalize resampledData)] /\
     rendering (step (Rendered i (Some resampledData)) st) = rest) /\
  (forall ev,
     posted (step (WorkerMessage ev) st) = posted st /\
     rendering (step (WorkerMessage ev) st) = rendering st) /\
  (forall loaded audioData,
     worker st && loaded = false ->
     let st' := normalizeAndSendAudio loaded audioData st in
     posted st' = posted st /\ rendering st' = rendering st /\
     audioBuffer st' = audioBuffer st /\
     logs (view st') =
       lastn 49 (logs (view st)) ++
       [MkLog (str "Cannot process: Worker not ready") [] Log.error]) /\
  (forall sampleRate inputData,
     sampleRate * CHUNK_DURATION_SEC <= length (audioBuffer st ++ inputData) ->
     worker st && loadedAtStart st = false ->
     let st' := onaudioprocess sampleRate inputData st in
     audioBuffer st' = [] /\
     posted st' = posted st /\ rendering st' = rendering st /\
     logs (view st') =
       lastn 49 (logs (view st)) ++
       [MkLog (str "Cannot process: Worker not ready") [] Log.error]) /\
  (mediaStream st = true -> audioBuffer st <> [] ->
   worker st && isModelLoaded (view st) = false ->
   let st' := stopRecording st in
   audioBuffer st' = [] /\
   posted st' = posted st /\ rendering st' = rendering st /\
   In (MkLog (str "Cannot process: Worker not ready") [] Log.error)
     (logs (view st'))).
Proof.
  assert (Hdrop : forall loaded audioData s,
            worker s && loaded = false ->
            normalizeAndSendAudio loaded audioData s =
            onView (addLog "Cannot process: Worker not ready" [] Log.error) s).
  { intros loaded audioData s H. unfold normalizeAndSendAudio.
    destruct (worker s); destruct loaded; try discriminate; reflexivity. }
  split; [|split; [|split; [|split]]].
  - intros i chunk rest resampledData Ht Hw. simpl. rewrite Ht.
    unfold afterRendering. simpl. rewrite Hw. split; reflexivity.
  - intros ev. destruct ev; split; reflexivity.
  - intros loaded audioData H. cbv zeta. rewrite (Hdrop _ _ _ H).
    cbn [onView posted rendering audioBuffer view].
    rewrite addLog_newest. repeat split.
  - intros sampleRate inputData Hlen H. cbv zeta. unfold onaudioprocess. cbv zeta.
    cbn [setAudioBuffer audioBuffer loadedAtStart].
    apply Nat.leb_le in Hlen. rewrite Hlen.
    rewrite Hdrop by exact H.
    cbn [onView posted rendering audioBuffer view].
    rewrite addLog_newest. repeat split.
  - intros Hm Hb H. cbv zeta. unfold stopRecording. rewrite Hm.
    destruct (audioBuffer st) as [|x b] eqn:Eb; [contradiction|].
    cbn [length Nat.ltb Nat.leb].
    rewrite Hdrop by exact H.
    cbn [onView setAudioBuffer posted rendering audioBuffer view worker
         loadedAtStart mediaStream audioContext].
    repeat split.
    rewrite addLog_newest. apply in_or_app. left.
    cbn [setIsRecording logs]. unfold addLog at 1. cbn [logs].
    change 49 with (S 48). change 50 with (S 49).
    rewrite lastn_snoc. unfold lastn at 1.
    rewrite length_app. cbn [length].
    assert (Hl : length (lastn 49 (logs (addLog "Flushing remaining audio buffer..." [] Log.info (view st)))) <= 49).
    { unfold lastn. rewrite length_skipn. lia. }
    replace (_ + 1 - S 48) with
      (length (lastn 49 (logs (addLog "Flushing remaining audio buffer..." [] Log.info (view st)))) + 1 - 49) by lia.
    set (L := lastn 49 _) in *.
    destruct (Nat.eq_dec (length L) 49) as [E|E].
    + rewrite E. cbn [Nat.add Nat.sub]. 
      replace (49 + 1 - 49) with 1 by lia.
      destruct L as [|y L]; [discriminate|]. cbn [app skipn].
      apply in_or_app. right. left. reflexivity.
    + replace (length L + 1 - 49) with 0 by lia. cbn [skipn].
      apply in_or_app. right. left. reflexivity.
Qed.

Lemma dispatch_is_immediate_witness :
  let st := run [StartRecording (Some 1)] in
  let st' := onaudioprocess 1 [zero; zero; zero; zero] st in
  audioBuffer st' = [] /\
  posted st' = posted st /\ rendering st' = rendering st /\
  logs (view st') =
    lastn 49 (logs (view st)) ++
    [MkLog (str "Cannot process: Worker not ready") [] Log.error].
Proof.
  exact (proj1 (proj2 (proj2 (proj2
           (dispatch_is_immediate (run [StartRecording (Some 1)])))))
           1 [zero; zero; zero; zero] (le_n 4) eq_refl).
Defined.

(** C1, as stated, fails: after two chunks of four seconds, with no
    message from the worker in between, two requests are outstanding. *)
Lemma two_requests_outstanding :
  ~ oneAtATime
      ([WorkerMessage ready; StartRecording (Some (48 * 1000))] ++
       repeat (AudioProcess (repeat zero 4096)) 47 ++
       [Rendered 0 (Some (repeat zero (64 * 1000 + 171)))] ++
       repeat (AudioProcess (repeat zero 4096)) 47 ++
       [Rendered 0 (Some (repeat zero (64 * 1000 + 171)))]).
Proof.
  intros H. specialize (H _ [] (eq_sym (app_nil_r _))).
  vm_compute in H. lia.
Qed.

End HookFacts.

(* ================================================================= *)
(** ** The worker *)

Module WorkerFacts.
Import JsString Float Protocol Worker Vocabulary Notions.

Section Listener.

Variable Pipeline : Type.
Variable pipeline : list Progress * Completion Pipeline.
Variable call : Pipeline -> Float32Array -> jsstring -> Completion Output.
Variable cloneable : Output -> bool.
Variable dataCloneMessage : jsstring.
Variable typeErrorMessage : jsstring.

Lemma forEach_download (l : list Progress) (st : State Pipeline) :
  forEach (fun data => postMessage cloneable dataCloneMessage (download data)) l st =
  (Normal tt, MkState (instance st) (outbox st ++ map download l)).
Proof.
  revert st. induction l as [|x l IH]; intros st; simpl.
  - unfold ret. rewrite app_nil_r. destruct st; reflexivity.
  - unfold bind. simpl. rewrite IH. simpl. rewrite <- app_assoc. reflexivity.
Qed.

Lemma Forall_download (l : list Progress) :
  Forall (fun ev => isDownload ev = true) (map download l).
Proof. induction l; simpl; constructor; auto. Qed.

(** What the [catch] blocks do with a thrown value. *)
Lemma report_spec (e : Thrown) (st : State Pipeline) :
  report (Pipeline := Pipeline) cloneable dataCloneMessage typeErrorMessage e st =
  match e with
  | ErrorObject m =>
    (Normal tt, MkState (instance st) (outbox st ++ [error (Reason m)]))
  | OtherMessage =>
    (Normal tt, MkState (instance st) (outbox st ++ [error NoReason]))
  | Unclonable => (Throw (ErrorObject dataCloneMessage), st)
  | Nullish => (Throw (ErrorObject typeErrorMessage), st)
  end.
Proof. destruct e; reflexivity. Qed.

(** X20.  When whatever the pipeline and the model throw is an [Error] (a
    value with a string as its [message]), the listener never ends with
    an exception.  For a [configure] or a [transcribe] message what it
    posts then ends with exactly one of [ready], [complete] and [error]
    with a reason string, and it ends with [ready] or [complete] only when
    nothing has failed: a [transcribe] message without audio gives the
    reason "No audio data provided", and a model that fails to load gives
    the message of the exception as the reason. *)
Theorem listener_never_throws (ev : Request) (st : State Pipeline) :
  failsWith hasMessage (snd pipeline) ->
  (forall p a l, failsWith hasMessage (call p a l)) ->
  exists st',
    listener pipeline call cloneable dataCloneMessage typeErrorMessage ev st =
      (Normal tt, st') /\
    ((hasType ev "configure" || hasType ev "transcribe") = true ->
     exists msgs final,
       outbox st' = outbox st ++ msgs ++ [final] /\
       Forall (fun m => isDownload m = true) msgs /\
       match final with
       | ready => hasType ev "configure" = true /\ instance st' <> None
       | complete output =>
         exists p a l,
           instance st' = Some p /\ audio ev = Some a /\
           call p a l = Normal output /\ cloneable output = true
       | error (Reason _) => True
       | _ => False
       end) /\
    (hasType ev "configure" = false -> hasType ev "transcribe" = true ->
     audio ev = None ->
     outbox st' = outbox st ++ [error (Reason (str "No audio data provided"))]) /\
    (forall m, instance st = None -> snd pipeline = Throw (ErrorObject m) ->
     hasType ev "configure" = true \/
     (hasType ev "transcribe" = true /\ audio ev <> None) ->
     exists msgs, outbox st' = outbox st ++ msgs ++ [error (Reason m)]).
Proof.
  intros Hpipe Hcall. unfold listener.
  destruct (hasType ev "configure") eqn:Ec.
  - unfold tryCatch, bind, Worker.getInstance; unfold bind.
    destruct (instance st) as [p|] eqn:Ei.
    + simpl. eexists. split; [reflexivity|]. split; [|split].
      * intros _. exists [], ready. simpl. repeat split; auto. congruence.
      * discriminate.
      * discriminate.
    + rewrite forEach_download. simpl.
      destruct (snd pipeline) as [p|e] eqn:Ep; simpl.
      * eexists. split; [reflexivity|]. split; [|split].
        -- intros _. exists (map download (fst pipeline)), ready. simpl.
           rewrite <- app_assoc. repeat split; auto using Forall_download.
           discriminate.
        -- discriminate.
        -- discriminate.
      * destruct e as [m| | |]; try contradiction. rewrite report_spec. simpl.
        eexists. split; [reflexivity|]. split; [|split].
        -- intros _. exists (map download (fst pipeline)), (error (Reason m)).
           simpl. rewrite <- app_assoc. repeat split; auto using Forall_download.
        -- discriminate.
        -- intros m' _ He' _. injection He' as <-.
           exists (map download (fst pipeline)). simpl.
           rewrite <- app_assoc. reflexivity.
  - destruct (hasType ev "transcribe") eqn:Et.
    + destruct (audio ev) as [a|] eqn:Ea.
      * unfold tryCatch, bind, Worker.getInstance; unfold bind.
        destruct (instance st) as [p|] eqn:Ei.
        -- set (l := match language ev with
                      | Some l => if HookCommon.nonEmpty l then l else str "english"
                      | None => str "english"
                      end).
           pose proof (Hcall p a l) as Hc.
           destruct (call p a l) as [output|e] eqn:Eo.
           ++ simpl. destruct (cloneable output) eqn:Ecl.
              ** eexists. split; [reflexivity|]. split; [|split].
                 --- intros _. exists [], (complete output). simpl.
                     repeat split; auto. exists p, a, l. auto.
                 --- discriminate.
                 --- congruence.
              ** eexists. split; [reflexivity|]. split; [|split].
                 --- intros _. exists [], (error (Reason dataCloneMessage)).
                     simpl. auto.
                 --- discriminate.
                 --- congruence.
           ++ destruct e as [m| | |]; try contradiction. simpl.
              eexists. split; [reflexivity|]. split; [|split].
              ** intros _. exists [], (error (Reason m)). simpl. auto.
              ** discriminate.
              ** congruence.
        -- unfold ret. simpl.
           destruct (snd pipeline) as [p|e] eqn:Ep.
           ++ set (l := match language ev with
                        | Some l => if HookCommon.nonEmpty l then l else str "english"
                        | None => str "english"
                        end).
              pose proof (Hcall p a l) as Hc.
              destruct (call p a l) as [output|e] eqn:Eo.
              ** simpl. destruct (cloneable output) eqn:Ecl.
                 --- eexists. split; [reflexivity|]. split; [|split].
                     +++ intros _. exists [], (complete output). simpl.
                         repeat split; auto. exists p, a, l. auto.
                     +++ discriminate.
                     +++ discriminate.
                 --- eexists. split; [reflexivity|]. split; [|split].
                     +++ intros _. exists [], (error (Reason dataCloneMessage)).
                         simpl. auto.
                     +++ discriminate.
                     +++ discriminate.
              ** destruct e as [m| | |]; try contradiction. simpl.
                 eexists. split; [reflexivity|]. split; [|split].
                 --- intros _. exists [], (error (Reason m)). simpl. auto.
                 --- discriminate.
                 --- discriminate.
           ++ destruct e as [m| | |]; try contradiction. simpl.
              eexists. split; [reflexivity|]. split; [|split].
              ** intros _. exists [], (error (Reason m)). simpl. auto.
              ** discriminate.
              ** intros m' _ He' _. injection He' as <-. exists []. reflexivity.
      * simpl. eexists. split; [reflexivity|]. split; [|split].
        -- intros _. exists [], (error (Reason (str "No audio data provided"))).
           simpl. auto.
        -- reflexivity.
        -- intros e _ _ [H|[_ H]]; [discriminate|congruence].
    + unfold ret. eexists. split; [reflexivity|]. split; [|split].
      * discriminate.
      * discriminate.
      * intros e _ _ [H|[H _]]; discriminate.
Qed.

End Listener.

Lemma listener_never_throws_witness :
  exists st',
    listener (@nil Progress, Throw (ErrorObject (str "offline")))
      (fun (_ : unit) _ _ => Normal Other) (fun _ => true)
      (str "could not be cloned") (str "not an object")
      configure (MkState None []) = (Normal tt, st') /\
    outbox st' = [error (Reason (str "offline"))].
Proof.
  destruct (listener_never_throws unit
              (@nil Progress, Throw (ErrorObject (str "offline")))
              (fun _ _ _ => Normal Other) (fun _ => true)
              (str "could not be cloned") (str "not an object")
              configure (MkState None []) I (fun _ _ _ => I))
    as (st' & E & _ & _ & H).
  exists st'. split; [exact E|].
  destruct (H (str "offline") eq_refl eq_refl (or_introl eq_refl)) as (msgs & Hm).
  cbn in E. injection E as <-. reflexivity.
Defined.

(** C8 fails on thrown values that are no [Error].  When [pipeline()] or
    the transcriber throws [null], the [catch] block throws in turn while
    it reads [message]: the listener ends with that [TypeError] and has
    posted nothing.  When the transcriber throws a value without a
    [message], a string or a number, the [error] that is posted carries
    no reason string. *)
Theorem listener_lets_exception_escape
    (dataCloneMessage typeErrorMessage : jsstring) (samples : Float32Array) :
  let run pipeline call ev st :=
    listener (Pipeline := unit) pipeline call (fun _ => true)
      dataCloneMessage typeErrorMessage ev st in
  run (@nil Progress, Throw Nullish) (fun _ _ _ => Normal Other)
    configure (MkState None []) =
    (Throw (ErrorObject typeErrorMessage), MkState None []) /\
  run (@nil Progress, Normal tt) (fun _ _ _ => Throw Nullish)
    (transcribe samples) (MkState (Some tt) [ready]) =
    (Throw (ErrorObject typeErrorMessage), MkState (Some tt) [ready]) /\
  run (@nil Progress, Normal tt) (fun _ _ _ => Throw OtherMessage)
    (transcribe samples) (MkState (Some tt) [ready]) =
    (Normal tt, MkState (Some tt) [ready; error NoReason]).
Proof. cbv zeta. repeat split. Qed.

End WorkerFacts.

(* ================================================================= *)
(** ** The spacing of the corrected text *)

Module RewriteFacts.
Import JsString Regex CorrectionEngine Vocabulary Notions.
Import JsStringFacts RegexFacts ScanFacts CharFacts ArtifactFacts.

(** *** Neighbours *)

Section Pairs.
Variable bad : char -> char -> bool.

Lemma noPair_cons (a : char) (t : jsstring) :
  noPair bad (a :: t) = okAt bad [a] t && noPair bad t.
Proof. destruct t; reflexivity. Qed.

Lemma okAt_cons (a : char) (x y : list char) :
  x <> [] -> okAt bad (a :: x) y = okAt bad x y.
Proof.
  intros Hx. unfold okAt. cbn [rev].
  destruct (rev x) as [|b l] eqn:E.
  - apply (f_equal (@rev _)) in E. rewrite rev_involutive in E. contradiction.
  - reflexivity.
Qed.

Lemma noPair_app (x y : jsstring) :
  noPair bad (x ++ y) = noPair bad x && noPair bad y && okAt bad x y.
Proof.
  induction x as [|a x IH].
  - cbn [app noPair andb]. unfold okAt. cbn [rev].
    rewrite andb_true_r. reflexivity.
  - destruct x as [|b x].
    + cbn [app]. rewrite noPair_cons. cbn [noPair andb]. apply andb_comm.
    + rewrite (okAt_cons a (b :: x) y) by discriminate.
      change ((a :: b :: x) ++ y) with (a :: (b :: x) ++ y).
      change (noPair bad (a :: (b :: x) ++ y))
        with (negb (bad a b) && noPair bad ((b :: x) ++ y)).
      change (noPair bad (a :: b :: x))
        with (negb (bad a b) && noPair bad (b :: x)).
      rewrite IH, !andb_assoc. reflexivity.
Qed.

Lemma noPair_factor (a s b : jsstring) :
  noPair bad (a ++ s ++ b) = true -> noPair bad s = true.
Proof.
  rewrite !noPair_app, !andb_true_iff. tauto.
Qed.

End Pairs.

(** *** One pass of a replacement *)

Section Pass.
Variable A : Type.
Variable p : pattern.
Variable f : MatchResult -> jsstring * list A.

Lemma replaceFrom_skip :
  forall rest k pre i,
    k <= length rest ->
    replaceFrom p f k pre rest i =
    replaceFrom p f 0 (rev (firstn k rest) ++ pre) (skipn k rest) (k + i).
Proof.
  induction rest as [|c rest IH]; intros k pre i Hk.
  - cbn in Hk. assert (k = 0) by lia. subst k. reflexivity.
  - destruct k as [|k]; [reflexivity|].
    cbn [replaceFrom firstn skipn rev]. cbn [length] in Hk.
    rewrite IH by lia. rewrite <- app_assoc. cbn [app].
    replace (k + S i) with (S k + i) by lia. reflexivity.
Qed.

(** An invariant between the input that is left and the output for it. *)
Variable I : list char -> jsstring -> Prop.

Hypothesis at_end : forall pre i, execAt p pre [] i = None.
Hypothesis I_nil : I [] [].
Hypothesis I_keep :
  forall pre i c rest out,
    execAt p pre (c :: rest) i = None -> I rest out -> I (c :: rest) (c :: out).
Hypothesis I_swap :
  forall pre i rest m tail out,
    execAt p pre rest i = Some m -> rest = text m ++ tail -> text m <> [] ->
    I tail out -> I rest (fst (f m) ++ out).
Hypothesis nonempty :
  forall pre rest i m, execAt p pre rest i = Some m -> text m <> [].

Lemma replaceFrom_invariant :
  forall n rest pre i,
    length rest <= n -> I rest (fst (replaceFrom p f 0 pre rest i)).
Proof.
  induction n as [|n IH]; intros rest pre i Hn.
  - destruct rest; [|cbn in Hn; lia]. cbn. rewrite at_end. exact I_nil.
  - destruct rest as [|c rest].
    + cbn. rewrite at_end. exact I_nil.
    + cbn [replaceFrom]. cbn [length] in Hn.
      destruct (execAt p pre (c :: rest) i) as [m|] eqn:E.
      * pose proof (nonempty _ _ _ _ E) as Hne.
        pose proof (execAt_text_length _ _ _ _ _ E) as Hl. cbn [length] in Hl.
        pose proof (execAt_firstn _ _ _ _ _ E) as Hf.
        destruct (f m) as [out rec] eqn:Ef.
        destruct (length (text m)) as [|k] eqn:El.
        { destruct (text m); [contradiction|discriminate]. }
        rewrite replaceFrom_skip by lia.
        destruct (replaceFrom p f 0 _ (skipn k rest) (k + S i)) as [out' rec'] eqn:Er.
        cbn [fst].
        replace out with (fst (f m)) by (rewrite Ef; reflexivity).
        apply (I_swap pre i (c :: rest) m (skipn k rest) out' E).
        -- rewrite <- Hf. symmetry. apply (firstn_skipn (S k) (c :: rest)).
        -- exact Hne.
        -- replace out' with
             (fst (replaceFrom p f 0 (rev (firstn k rest) ++ c :: pre)
                     (skipn k rest) (k + S i))) by (rewrite Er; reflexivity).
           apply IH. rewrite length_skipn. lia.
      * destruct (replaceFrom p f 0 (c :: pre) rest (S i)) as [out' rec'] eqn:Er.
        cbn [fst]. apply (I_keep pre i c rest out' E).
        replace out' with (fst (replaceFrom p f 0 (c :: pre) rest (S i)))
          by (rewrite Er; reflexivity).
        apply IH. lia.
Qed.

Lemma replaceWith_invariant (s : jsstring) : I s (fst (replaceWith p f s)).
Proof. unfold replaceWith. apply (replaceFrom_invariant (length s)). lia. Qed.

End Pass.

(** A pattern that matches nowhere leaves the string as it is. *)
Lemma replaceFrom_no_match (A : Type) (p : pattern)
    (f : MatchResult -> jsstring * list A) :
  forall rest pre i,
    (forall a b, rest = a ++ b ->
       execAt p (rev a ++ pre) b (i + length a) = None) ->
    replaceFrom p f 0 pre rest i = (rest, []) /\
    matchesFrom p 0 pre rest i = [].
Proof.
  induction rest as [|c rest IH]; intros pre i H.
  - pose proof (H [] [] eq_refl) as H0. cbn in H0. rewrite Nat.add_0_r in H0.
    cbn. rewrite H0. split; reflexivity.
  - pose proof (H [] (c :: rest) eq_refl) as H0. cbn in H0.
    rewrite Nat.add_0_r in H0.
    cbn [replaceFrom matchesFrom]. rewrite H0.
    destruct (IH (c :: pre) (S i)) as [E1 E2].
    { intros a b Hab. specialize (H (c :: a) b). cbn in H.
      rewrite <- app_assoc in H. cbn in H.
      replace (S i + length a) with (i + S (length a)) by lia.
      apply H. rewrite Hab. reflexivity. }
    rewrite E1, E2. split; reflexivity.
Qed.

(** *** Greedy repetition *)

Section Greedy.
Variable ic : bool.
Variable a : atom.

(** Every input is a run of the pattern character, then a rest that does
    not go on with it. *)
Lemma run_split (rest : list char) :
  exists sp tail,
    rest = sp ++ tail /\ Forall (fun c => atomb ic a c = true) sp /\ stops ic a tail.
Proof.
  induction rest as [|c rest (sp & tail & E & Hsp & Ht)].
  - exists [], []. repeat split. constructor.
  - destruct (atomb ic a c) eqn:Ec.
    + exists (c :: sp), tail. rewrite E. repeat split; auto.
    + exists [], (c :: rest). repeat split; auto.
Qed.

(** The longest run is tried first. *)
Lemma repeatMatcher_longest (k : mstate -> option mstate) :
  forall sp tail lo pre cs s,
    Forall (fun c => atomb ic a c = true) sp -> stops ic a tail ->
    lo <= length sp ->
    k (MState (rev sp ++ pre) tail cs) = Some s ->
    repeatMatcher ic a lo None k pre (sp ++ tail) cs = Some s.
Proof.
  induction sp as [|c sp IH]; intros tail lo pre cs s Hsp Ht Hlo Hk.
  - cbn in Hlo. assert (lo = 0) by lia. subst lo. cbn [app rev] in *.
    destruct tail as [|d tail]; cbn [repeatMatcher Nat.eqb]; [exact Hk|].
    cbn [stops] in Ht. rewrite Ht. exact Hk.
  - inversion Hsp as [|? ? Hc Hsp']; subst.
    cbn [app repeatMatcher option_map]. rewrite Hc.
    rewrite (IH tail (pred lo) (c :: pre) cs s); auto.
    + cbn [length] in Hlo. lia.
    + cbn [rev] in Hk. rewrite <- app_assoc in Hk. exact Hk.
Qed.

(** No run that the continuation accepts: no match. *)
Lemma repeatMatcher_none (k : mstate -> option mstate) :
  forall sp tail lo pre cs,
    Forall (fun c => atomb ic a c = true) sp -> stops ic a tail ->
    (forall j, lo <= j <= length sp ->
       k (MState (rev (firstn j sp) ++ pre) (skipn j sp ++ tail) cs) = None) ->
    repeatMatcher ic a lo None k pre (sp ++ tail) cs = None.
Proof.
  induction sp as [|c sp IH]; intros tail lo pre cs Hsp Ht Hk.
  - cbn [app].
    assert (Hstop : (if Nat.eqb lo 0 then k (MState pre tail cs) else None) = None).
    { destruct lo; cbn [Nat.eqb]; [|reflexivity].
      apply (Hk 0). cbn. lia. }
    destruct tail as [|d tail]; cbn [repeatMatcher]; [exact Hstop|].
    cbn [stops] in Ht. rewrite Ht. exact Hstop.
  - inversion Hsp as [|? ? Hc Hsp']; subst.
    cbn [app repeatMatcher option_map]. rewrite Hc.
    rewrite (IH tail (pred lo) (c :: pre) cs); auto.
    + destruct lo; cbn [Nat.eqb]; [|reflexivity].
      apply (Hk 0). cbn. lia.
    + intros j Hj. specialize (Hk (S j)). cbn [firstn skipn rev length] in Hk.
      rewrite <- app_assoc in Hk. apply Hk. lia.
Qed.

End Greedy.

Lemma consumed_run (pre sp tail : list char) (cs cs' : captures) (pre' : list char) :
  consumed (MState pre (sp ++ tail) cs) (MState pre' tail cs') = sp.
Proof. apply consumed_app. Qed.

(** *** The pattern of step 2 *)

Lemma execAt_multiSpace (pre sp tail : list char) (i : nat) :
  Forall (fun c => isSpace c = true) sp -> isSpaceAt tail = false ->
  execAt multiSpace pre (sp ++ tail) i =
  if 2 <=? length sp then Some (MkMatch i sp []) else None.
Proof.
  intros Hsp Ht. unfold execAt. cbn [multiSpace body ignoreCase run before after caps].
  assert (Hst : stops false (Cls isSpace) tail).
  { destruct tail; [exact I|exact Ht]. }
  destruct (Nat.leb_spec 2 (length sp)) as [Hle|Hlt].
  - rewrite (repeatMatcher_longest false (Cls isSpace) Some sp tail 2 pre []
               (MState (rev sp ++ pre) tail [])); auto.
    rewrite consumed_run. reflexivity.
  - rewrite repeatMatcher_none; auto. intros j Hj. lia.
Qed.

Lemma space_split (rest : list char) :
  exists sp tail,
    rest = sp ++ tail /\ Forall (fun c => isSpace c = true) sp /\
    isSpaceAt tail = false.
Proof.
  destruct (run_split false (Cls isSpace) rest) as (sp & tail & E & Hsp & Ht).
  exists sp, tail. repeat split; auto. destruct tail; [reflexivity|exact Ht].
Qed.

Lemma isSpaceAt_run (sp tail : list char) :
  Forall (fun c => isSpace c = true) sp -> sp <> [] -> isSpaceAt (sp ++ tail) = true.
Proof. intros H Hne. destruct H; [contradiction|assumption]. Qed.

Lemma noDoubleSpace_run (sp tail : list char) :
  Forall (fun c => isSpace c = true) sp -> 2 <= length sp ->
  noDoubleSpace (sp ++ tail) = false.
Proof.
  intros H Hl. destruct H as [|a sp Ha H]; [cbn in Hl; lia|].
  destruct H as [|b sp Hb H]; [cbn in Hl; lia|].
  cbn. rewrite Ha, Hb. reflexivity.
Qed.

Lemma multiSpace_at_end (pre : list char) (i : nat) : execAt multiSpace pre [] i = None.
Proof. reflexivity. Qed.

Lemma multiSpace_match (pre rest : list char) (i : nat) (m : MatchResult) :
  execAt multiSpace pre rest i = Some m ->
  exists tail,
    rest = text m ++ tail /\ Forall (fun c => isSpace c = true) (text m) /\
    2 <= length (text m) /\ isSpaceAt tail = false.
Proof.
  intros H. destruct (space_split rest) as (sp & tail & -> & Hsp & Ht).
  rewrite (execAt_multiSpace pre sp tail i Hsp Ht) in H.
  destruct (Nat.leb_spec 2 (length sp)); [|discriminate].
  injection H as <-. exists tail. cbn [text]. auto.
Qed.

Lemma multiSpace_no_match (pre rest : list char) (i : nat) :
  execAt multiSpace pre rest i = None ->
  forall c d tail, rest = c :: d :: tail -> isSpace c && isSpace d = false.
Proof.
  intros H c d tail ->.
  destruct (isSpace c) eqn:Ec; [|reflexivity].
  destruct (isSpace d) eqn:Ed; [|reflexivity]. exfalso.
  destruct (space_split tail) as (sp & tl & -> & Hsp & Ht).
  change (c :: d :: sp ++ tl) with ((c :: d :: sp) ++ tl) in H.
  rewrite (execAt_multiSpace pre (c :: d :: sp) tl i) in H by (auto using Forall_cons).
  cbn in H. discriminate.
Qed.

(** Step 2 leaves no white space next to white space. *)
Lemma fixSpaces_noDoubleSpace (s : jsstring) :
  noDoubleSpace (fst (fixSpaces s)) = true.
Proof.
  unfold fixSpaces, replaceAll. cbn [fst].
  apply (replaceWith_invariant unit multiSpace (fun m => (str " ", @nil unit))
           (fun rest out =>
              noDoubleSpace out = true /\
              (isSpaceAt out = true -> isSpaceAt rest = true))).
  - exact multiSpace_at_end.
  - split; [reflexivity|discriminate].
  - intros pre i c rest out Hn (Hout & Hhd). split; [|exact (fun H => H)].
    unfold noDoubleSpace in *. rewrite noPair_cons, Hout, andb_true_r.
    unfold okAt. cbn [rev app]. destruct out as [|d out]; [reflexivity|].
    destruct rest as [|d' rest].
    + destruct (isSpace c); [|reflexivity]. cbn [andb].
      cbn [isSpaceAt] in Hhd. destruct (isSpace d); [|reflexivity].
      discriminate (Hhd eq_refl).
    + pose proof (multiSpace_no_match _ _ _ Hn c d' rest eq_refl) as Hcd.
      cbn [isSpaceAt] in Hhd.
      destruct (isSpace c); [|reflexivity]. cbn [andb] in *.
      destruct (isSpace d); [|reflexivity].
      rewrite (Hhd eq_refl) in Hcd. discriminate.
  - intros pre i rest m tail out Hm Hr _ (Hout & Hhd).
    destruct (multiSpace_match _ _ _ _ Hm) as (tail' & Hr' & Hsp & Hl & Ht).
    rewrite Hr in Hr'. apply app_inv_head in Hr'. subst tail'.
    cbn [fst str map list_ascii_of_string app].
    split.
    + unfold noDoubleSpace in *. rewrite noPair_cons, Hout, andb_true_r.
      unfold okAt. cbn [rev app]. destruct out as [|d out]; [reflexivity|].
      cbn [isSpaceAt] in Hhd. destruct (isSpace d); [|rewrite andb_false_r; reflexivity].
      rewrite (Hhd eq_refl) in Ht. discriminate.
    + intros _. rewrite Hr. apply isSpaceAt_run; [exact Hsp|].
      destruct (text m); [cbn in Hl; lia|discriminate].
  - intros pre rest i m Hm.
    destruct (multiSpace_match _ _ _ _ Hm) as (_ & _ & _ & Hl & _).
    destruct (text m); [cbn in Hl; lia|discriminate].
Qed.

(** A string without white space next to white space holds no match of
    [/\s{2,}/]. *)
Lemma multiSpace_absent (s : jsstring) :
  noDoubleSpace s = true ->
  forall a b pre i, s = a ++ b -> execAt multiSpace pre b i = None.
Proof.
  intros Hs a b pre i ->.
  destruct (execAt multiSpace pre b i) as [m|] eqn:E; [|reflexivity]. exfalso.
  destruct (multiSpace_match _ _ _ _ E) as (tail & -> & Hsp & Hl & _).
  apply noPair_factor in Hs. fold noDoubleSpace in Hs.
  rewrite <- (app_nil_r (text m)) in Hs.
  rewrite (noDoubleSpace_run (text m) [] Hsp Hl) in Hs. discriminate.
Qed.

Lemma fixSpaces_clean (s : jsstring) :
  noDoubleSpace s = true -> fixSpaces s = (s, []).
Proof.
  intros Hs. unfold fixSpaces, replaceAll, replaceWith, matchAll.
  destruct (replaceFrom_no_match unit multiSpace (fun _ => (str " ", @nil unit)) s [] 0)
    as [E1 E2].
  { intros a b Hab. apply (multiSpace_absent s Hs a b), Hab. }
  rewrite E1, E2. reflexivity.
Qed.

(** *** Replacements that keep white space apart *)

Lemma okAt_spaces (x y : list char) :
  okAt (fun a b => isSpace a && isSpace b) x y =
  negb (isSpaceAt (rev x) && isSpaceAt y).
Proof.
  unfold okAt, isSpaceAt. destruct (rev x) as [|a l]; [reflexivity|].
  destruct y as [|b y]; [rewrite andb_false_r|]; reflexivity.
Qed.

Lemma noDoubleSpace_app (x y : jsstring) :
  noDoubleSpace (x ++ y) =
  noDoubleSpace x && noDoubleSpace y && negb (isSpaceAt (rev x) && isSpaceAt y).
Proof. unfold noDoubleSpace. rewrite noPair_app, okAt_spaces. reflexivity. Qed.

Lemma isSpaceAt_app (x y : list char) : x <> [] -> isSpaceAt (x ++ y) = isSpaceAt x.
Proof. destruct x; [contradiction|reflexivity]. Qed.

Lemma isSpaceAt_rev_app (x y : list char) :
  y <> [] -> isSpaceAt (rev (x ++ y)) = isSpaceAt (rev y).
Proof.
  intros Hy. rewrite rev_app_distr. apply isSpaceAt_app.
  intros E. apply (f_equal (@rev _)) in E. rewrite rev_involutive in E. contradiction.
Qed.

Section SafePass.
Variable A : Type.
Variable p : pattern.
Variable f : MatchResult -> jsstring * list A.
Hypothesis f_safe :
  forall pre rest i m, execAt p pre rest i = Some m -> safe (text m) (fst (f m)).

Lemma replaceWith_noDoubleSpace (s : jsstring) :
  noDoubleSpace s = true -> noDoubleSpace (fst (replaceWith p f s)) = true.
Proof.
  intros Hs.
  refine (proj1 (replaceWith_invariant A p f
           (fun rest out =>
              noDoubleSpace rest = true ->
              noDoubleSpace out = true /\
              (isSpaceAt out = true -> isSpaceAt rest = true)) _ _ _ _ _ s Hs)).
  - intros pre i. destruct (execAt p pre [] i) as [m|] eqn:E; [|reflexivity].
    destruct (f_safe _ _ _ _ E) as (Ht & _).
    pose proof (execAt_text_length _ _ _ _ _ E) as Hl. cbn in Hl.
    destruct (text m); [contradiction|cbn in Hl; lia].
  - intros _. split; [reflexivity|discriminate].
  - intros pre i c rest out _ IH Hr.
    change (c :: rest) with ([c] ++ rest) in Hr.
    rewrite noDoubleSpace_app, !andb_true_iff, negb_true_iff in Hr.
    destruct Hr as ((_ & Hrest) & Hb). destruct (IH Hrest) as (Hout & Hhd).
    split; [|exact (fun H => H)].
    change (c :: out) with ([c] ++ out).
    rewrite noDoubleSpace_app, Hout. cbn [noDoubleSpace noPair andb rev app isSpaceAt] in *.
    destruct (isSpace c); [|reflexivity]. cbn [andb] in *.
    destruct (isSpaceAt out); [|reflexivity]. rewrite (Hhd eq_refl) in Hb. discriminate.
  - intros pre i rest m tail out Hm Hr _ IH Hnd.
    destruct (f_safe _ _ _ _ Hm) as (Ht & Hrne & Hnr & Hfirst & Hlast).
    rewrite Hr in Hnd.
    rewrite noDoubleSpace_app, !andb_true_iff, negb_true_iff in Hnd.
    destruct Hnd as ((Hnt & Hntail) & Hb). destruct (IH Hntail) as (Hout & Hhd).
    split.
    + rewrite noDoubleSpace_app, (Hnr Hnt), Hout. cbn [andb].
      destruct (isSpaceAt (rev (fst (f m)))) eqn:E1; [|reflexivity].
      destruct (isSpaceAt out) eqn:E2; [|reflexivity].
      rewrite (Hlast eq_refl), (Hhd eq_refl) in Hb. discriminate.
    + rewrite isSpaceAt_app by exact Hrne. intros H.
      rewrite Hr, isSpaceAt_app by exact Ht. exact (Hfirst H).
  - intros pre rest i m Hm. exact (proj1 (f_safe _ _ _ _ Hm)).
Qed.

End SafePass.

(** *** The replacements of steps 3 to 8 *)

Lemma isSpace_toUpperCase (c : char) : isSpace (toUpperCase c) = isSpace c.
Proof.
  unfold toUpperCase. destruct (isLower c) eqn:E; [|reflexivity].
  apply isLower_spec in E.
  assert (H1 : isSpace c = false).
  { apply not_true_iff_false. intros H. apply isSpace_spec in H. lia. }
  assert (H2 : isSpace (c - 32)%N = false).
  { apply not_true_iff_false. intros H. apply isSpace_spec in H. lia. }
  rewrite H1, H2. reflexivity.
Qed.

Lemma noDoubleSpace_capitalize (s : jsstring) :
  noDoubleSpace (capitalize s) = noDoubleSpace s.
Proof.
  destruct s as [|c [|d s]]; try reflexivity.
  cbn. rewrite isSpace_toUpperCase. reflexivity.
Qed.

Lemma isSpaceAt_capitalize (s : jsstring) : isSpaceAt (capitalize s) = isSpaceAt s.
Proof. destruct s; [reflexivity|apply isSpace_toUpperCase]. Qed.

Lemma noDoubleSpace_words (w : jsstring) :
  Forall (fun c => isSpace c = false) w -> noDoubleSpace w = true.
Proof.
  induction 1 as [|c w Hc Hw IH]; [reflexivity|].
  change (c :: w) with ([c] ++ w). rewrite noDoubleSpace_app, IH.
  cbn. rewrite Hc. reflexivity.
Qed.

Lemma isSpaceAt_words (w : jsstring) :
  Forall (fun c => isSpace c = false) w -> isSpaceAt w = false.
Proof. destruct 1; [reflexivity|assumption]. Qed.

Lemma noDoubleSpace_cons (c : char) (s : jsstring) :
  noDoubleSpace (c :: s) = negb (isSpace c && isSpaceAt s) && noDoubleSpace s.
Proof. destruct s; [cbn; rewrite andb_false_r|]; reflexivity. Qed.

Lemma noDoubleSpace_snoc (s : jsstring) (c : char) :
  noDoubleSpace (s ++ [c]) = noDoubleSpace s && negb (isSpaceAt (rev s) && isSpace c).
Proof. rewrite noDoubleSpace_app. cbn. rewrite andb_true_r. reflexivity. Qed.

Lemma isSpaceAt_rev_capitalize (s : jsstring) :
  isSpaceAt (rev (capitalize s)) = isSpaceAt (rev s).
Proof.
  destruct s as [|x [|y s]]; [reflexivity|cbn; apply isSpace_toUpperCase|].
  cbn [capitalize].
  change (toUpperCase x :: y :: s) with ([toUpperCase x] ++ (y :: s)).
  change (x :: y :: s) with ([x] ++ (y :: s)).
  rewrite !isSpaceAt_rev_app by discriminate. reflexivity.
Qed.

(** Step 3: a trigger between two white space characters. *)
Lemma trigger_safe (trigger : string) (result : jsstring) :
  forall pre rest i m,
    execAt (triggerPattern trigger) pre rest i = Some m ->
    safe (text m) (fst (breakBefore result m)).
Proof.
  intros pre rest i m H.
  destruct (execAt_sound _ _ _ _ _ H) as (_ & post & _ & Hs).
  cbn [triggerPattern body ignoreCase Sem CorrectionEngine.ws] in Hs.
  destruct Hs as (t1 & t2 & cs1 & Ht & (cs0 & (c1 & -> & Hc1 & ->) & ->) &
                  word & t3 & cs2 & -> & (cs3 & Hl & ->) &
                  (c2 & -> & Hc2 & Hg)).
  apply Sem_lits in Hl. destruct Hl as (_ & ->).
  cbn [atomb] in Hc1, Hc2.
  assert (Hkeep : safe (text m) (text m)).
  { rewrite Ht. repeat split; auto; discriminate. }
  unfold breakBefore. cbv zeta.
  destruct (index m) as [|beforeIndex]; [exact Hkeep|].
  destruct (negb (punctuatedAt result beforeIndex)); [|exact Hkeep].
  unfold group. rewrite Hg. cbn [getcap Nat.eqb fst]. rewrite Ht.
  change (str ". ") with [N_of_ascii "."; N_of_ascii " "].
  change (str " ") with [N_of_ascii " "].
  change ([c1] ++ word ++ [c2]) with (c1 :: (word ++ [c2])).
  change ([N_of_ascii "."; N_of_ascii " "] ++ capitalize word ++ [N_of_ascii " "])
    with (N_of_ascii "." :: N_of_ascii " " :: (capitalize word ++ [N_of_ascii " "])).
  split; [discriminate|]. split; [discriminate|]. split; [|split].
  - rewrite !noDoubleSpace_cons, !noDoubleSpace_snoc, noDoubleSpace_capitalize.
    rewrite isSpaceAt_rev_capitalize, Hc1, Hc2.
    change (isSpace (N_of_ascii ".")) with false.
    change (isSpace (N_of_ascii " ")) with true.
    cbn [andb negb]. rewrite !andb_true_r.
    destruct word as [|x word].
    + cbn. rewrite Hc2. discriminate.
    + rewrite !isSpaceAt_app by discriminate. rewrite isSpaceAt_capitalize.
      rewrite !andb_true_iff. tauto.
  - cbn. discriminate.
  - intros _. change (c1 :: (word ++ [c2])) with ((c1 :: word) ++ [c2]).
    rewrite isSpaceAt_rev_app by discriminate. exact Hc2.
Qed.

(** Step 4: a period, white space, a lower-case letter. *)
Lemma afterPeriod_safe (position : nat) :
  forall pre rest i m,
    execAt afterPeriod pre rest i = Some m ->
    safe (text m) (fst (capitalizeAfterPeriod position m)).
Proof.
  intros pre rest i m H.
  destruct (execAt_sound _ _ _ _ _ H) as (_ & post & _ & Hs).
  cbn [afterPeriod body ignoreCase Sem lit] in Hs.
  destruct Hs as (t1 & t2 & cs1 & Ht & (c0 & -> & Hc0 & ->) &
                  sp & t3 & cs2 & -> & (Hsp & Hl & _ & ->) &
                  (cs3 & (l & -> & Hlow & ->) & Hg)).
  cbn [atomb] in Hlow.
  unfold capitalizeAfterPeriod, group. rewrite Hg. cbn [getcap Nat.eqb fst map].
  rewrite Ht. cbn [str map list_ascii_of_string app].
  assert (Hup : isSpace (toUpperCase l) = false).
  { rewrite isSpace_toUpperCase. apply not_true_iff_false. intros Hx.
    apply isLower_spec in Hlow. apply isSpace_spec in Hx. lia. }
  split; [discriminate|]. split; [discriminate|]. split; [|split].
  - intros _. cbn. rewrite Hup. reflexivity.
  - cbn. discriminate.
  - cbn. rewrite Hup. discriminate.
Qed.

(** A replacement by a fixed text without white space at its ends. *)
Lemma fixed_safe (t rep : jsstring) :
  t <> [] -> rep <> [] -> noDoubleSpace rep = true ->
  isSpaceAt rep = false -> isSpaceAt (rev rep) = false -> safe t rep.
Proof.
  intros Ht Hr Hn H1 H2. repeat split; auto.
  - rewrite H1. discriminate.
  - rewrite H2. discriminate.
Qed.

Lemma standaloneI_safe :
  forall pre rest i m,
    execAt standaloneI pre rest i = Some m ->
    safe (text m) (fst (str "I", @nil unit)).
Proof.
  intros pre rest i m H.
  destruct (execAt_sound _ _ _ _ _ H) as (_ & post & _ & Hs).
  cbn [standaloneI body ignoreCase Sem lit] in Hs.
  destruct Hs as (t1 & t2 & cs1 & Ht & (-> & -> & _) &
                  t3 & t4 & cs2 & -> & (c & -> & _ & ->) & (-> & _)).
  apply fixed_safe; try reflexivity; try discriminate.
  rewrite Ht. discriminate.
Qed.

Lemma wordPattern_safe (w : string) (rep : jsstring) :
  str w <> [] -> rep <> [] -> noDoubleSpace rep = true ->
  isSpaceAt rep = false -> isSpaceAt (rev rep) = false ->
  forall pre rest i m,
    execAt (wordPattern w) pre rest i = Some m ->
    safe (text m) (fst (rep, @nil unit)).
Proof.
  intros Hw Hr Hn H1 H2 pre rest i m H.
  destruct (execAt_sound _ _ _ _ _ H) as (_ & post & _ & Hs).
  cbn [wordPattern body ignoreCase Sem] in Hs.
  destruct Hs as (t1 & t2 & cs1 & Ht & (-> & -> & _) &
                  t3 & t4 & cs2 & -> & Hl & (-> & _)).
  apply Sem_lits in Hl. destruct Hl as (Hf & _).
  apply fixed_safe; auto.
  rewrite Ht. cbn [app]. rewrite app_nil_r. intros ->.
  inversion Hf as [E|]. apply Hw. unfold str. rewrite <- E. reflexivity.
Qed.

Lemma repeatedWord_safe :
  forall pre rest i m,
    execAt repeatedWord pre rest i = Some m ->
    safe (text m) (fst (group 1 m, @nil unit)).
Proof.
  intros pre rest i m H.
  destruct (execAt_sound _ _ _ _ _ H) as (_ & post & _ & Hs).
  cbn [repeatedWord body ignoreCase Sem] in Hs.
  destruct Hs as (t0 & tA & cs0 & Ht & (-> & -> & _) &
                  W & tB & csG & -> & (cs1 & (HW & HWlen & _ & ->) & ->) &
                  S & tC & csS & -> & (HS & _ & _ & ->) &
                  W' & tD & csR & -> & (HR & ->) & (-> & Hg & _)).
  unfold group. rewrite Hg. cbn [getcap Nat.eqb fst].
  assert (HWs : Forall (fun c => isSpace c = false) W).
  { apply Forall_impl with (2 := HW). intros c Hc. apply word_not_space, Hc. }
  apply fixed_safe.
  - rewrite Ht. destruct W; [cbn in HWlen; lia|discriminate].
  - destruct W; [cbn in HWlen; lia|discriminate].
  - apply noDoubleSpace_words, HWs.
  - apply isSpaceAt_words, HWs.
  - apply isSpaceAt_words, Forall_rev, HWs.
Qed.

Lemma spaceBeforeMark_safe :
  forall pre rest i m,
    execAt spaceBeforeMark pre rest i = Some m ->
    safe (text m) (fst (group 1 m, @nil unit)).
Proof.
  intros pre rest i m H.
  destruct (execAt_sound _ _ _ _ _ H) as (_ & post & _ & Hs).
  cbn [spaceBeforeMark body ignoreCase Sem] in Hs.
  destruct Hs as (S & t2 & cs1 & Ht & (HS & Hl & _ & ->) &
                  cs2 & (c & -> & Hc & ->) & Hg).
  cbn [atomb] in Hc.
  unfold group. rewrite Hg. cbn [getcap Nat.eqb fst].
  pose proof (commaDot_not_space _ Hc) as Hn.
  apply fixed_safe; try discriminate.
  - rewrite Ht. destruct S; discriminate.
  - reflexivity.
  - exact Hn.
  - exact Hn.
Qed.

Lemma spacesAfterMark_safe :
  forall pre rest i m,
    execAt spacesAfterMark pre rest i = Some m ->
    safe (text m) (fst (group 1 m ++ str " ", @nil unit)).
Proof.
  intros pre rest i m H.
  destruct (execAt_sound _ _ _ _ _ H) as (_ & post & _ & Hs).
  cbn [spacesAfterMark body ignoreCase Sem] in Hs.
  destruct Hs as (t1 & S & cs1 & Ht &
                  (cs2 & (c & -> & Hc & ->) & ->) & (HS & Hl & _ & Hg)).
  cbn [atomb] in Hc.
  unfold group. rewrite Hg. cbn [getcap Nat.eqb fst].
  pose proof (commaDot_not_space _ Hc) as Hn.
  rewrite Ht. cbn [str map list_ascii_of_string app].
  split; [discriminate|]. split; [discriminate|]. split; [|split].
  - intros _. cbn. rewrite Hn. reflexivity.
  - cbn. rewrite Hn. discriminate.
  - intros _. change (c :: S) with ([c] ++ S).
    destruct S as [|x S] using rev_ind; [cbn in Hl; lia|].
    rewrite app_assoc, isSpaceAt_rev_app by discriminate.
    apply Forall_app in HS. destruct HS as (_ & Hx). apply Forall_inv in Hx.
    exact Hx.
Qed.

(** *** White space in the corrected text *)

Lemma replaceAll_noDoubleSpace (p : pattern) (f : MatchResult -> jsstring) (s : jsstring) :
  (forall pre rest i m,
     execAt p pre rest i = Some m -> safe (text m) (fst (f m, @nil unit))) ->
  noDoubleSpace s = true -> noDoubleSpace (replaceAll p f s) = true.
Proof.
  intros Hf Hs. unfold replaceAll.
  apply (replaceWith_noDoubleSpace unit p (fun m => (f m, @nil unit)) Hf s Hs).
Qed.

Lemma triggers_noDoubleSpace (l : list string) :
  forall acc,
    noDoubleSpace (fst acc) = true ->
    noDoubleSpace (fst (fold_left applyTrigger l acc)) = true.
Proof.
  induction l as [|trigger l IH]; intros acc H; [exact H|].
  cbn [fold_left]. apply IH. destruct acc as [result changes]. cbn [fst] in H.
  unfold applyTrigger.
  pose proof (replaceWith_noDoubleSpace Change (triggerPattern trigger)
                (breakBefore result) (trigger_safe trigger result) result H) as Hr.
  destruct (replaceWith _ _ result) as [result' pushed]. exact Hr.
Qed.

Lemma inferSentenceBoundaries_noDoubleSpace (s : jsstring) :
  noDoubleSpace s = true -> noDoubleSpace (fst (inferSentenceBoundaries s)) = true.
Proof.
  intros H. unfold inferSentenceBoundaries.
  pose proof (triggers_noDoubleSpace BOUNDARY_TRIGGERS (s, []) H) as Hr.
  destruct (fold_left applyTrigger BOUNDARY_TRIGGERS (s, [])) as [result changes].
  exact Hr.
Qed.

Lemma capitalizeFirst_noDoubleSpace (s : jsstring) :
  noDoubleSpace s = true -> noDoubleSpace (fst (capitalizeFirst s)) = true.
Proof.
  intros H. unfold capitalizeFirst. destruct (_ && _); [|exact H].
  cbn [fst]. rewrite noDoubleSpace_capitalize. exact H.
Qed.

Lemma trim_factor (s : jsstring) :
  exists a b, s = a ++ trim s ++ b.
Proof.
  destruct (trimStart_split s) as (a & Ha & _).
  destruct (trimEnd_split (trimStart s)) as (b & Hb & _).
  exists a, b. unfold trim. rewrite <- Hb. exact Ha.
Qed.

Lemma trim_noDoubleSpace (s : jsstring) :
  noDoubleSpace s = true -> noDoubleSpace (trim s) = true.
Proof.
  intros H. destruct (trim_factor s) as (a & b & E). rewrite E in H.
  exact (noPair_factor _ _ _ _ H).
Qed.

Lemma addEndingPeriod_noDoubleSpace (s : jsstring) :
  noDoubleSpace s = true -> noDoubleSpace (fst (addEndingPeriod s)) = true.
Proof.
  intros H. unfold addEndingPeriod. destruct (_ && _); [|exact H].
  cbn [fst]. change (str ".") with [N_of_ascii "."].
  rewrite noDoubleSpace_snoc, (trim_noDoubleSpace s H).
  change (isSpace (N_of_ascii ".")) with false. rewrite andb_false_r. reflexivity.
Qed.

Lemma fixCommonArtifacts_noDoubleSpace (s : jsstring) :
  noDoubleSpace s = true -> noDoubleSpace (fixCommonArtifacts s) = true.
Proof.
  intros H. unfold fixCommonArtifacts. cbv zeta.
  apply (replaceAll_noDoubleSpace _ _ _ spacesAfterMark_safe).
  apply (replaceAll_noDoubleSpace _ _ _ spaceBeforeMark_safe).
  apply (replaceAll_noDoubleSpace _ _ _ repeatedWord_safe).
  apply replaceAll_noDoubleSpace;
    [apply wordPattern_safe; try reflexivity; discriminate|].
  apply replaceAll_noDoubleSpace;
    [apply wordPattern_safe; try reflexivity; discriminate|].
  apply replaceAll_noDoubleSpace;
    [apply wordPattern_safe; try reflexivity; discriminate|].
  exact H.
Qed.

Lemma beforePunctuation_noDoubleSpace (text : jsstring) :
  noDoubleSpace (fst (beforePunctuation text)) = true.
Proof.
  unfold beforePunctuation. cbv zeta.
  destruct (removeFillers text) as [r1 c1].
  pose proof (fixSpaces_noDoubleSpace r1) as H2.
  destruct (fixSpaces r1) as [r2 c2]. cbn [fst] in H2.
  pose proof (inferSentenceBoundaries_noDoubleSpace r2 H2) as H3.
  destruct (inferSentenceBoundaries r2) as [r3 c3]. cbn [fst] in H3.
  pose proof (replaceWith_noDoubleSpace Change afterPeriod (capitalizeAfterPeriod 0)
                (afterPeriod_safe 0) r3 H3) as H4.
  destruct (replaceWith afterPeriod (capitalizeAfterPeriod 0) r3) as [r4 c4].
  cbn [fst] in H4.
  pose proof (capitalizeFirst_noDoubleSpace r4 H4) as H5.
  destruct (capitalizeFirst r4) as [r5 c5]. cbn [fst] in *.
  apply (replaceAll_noDoubleSpace _ _ _ standaloneI_safe), H5.
Qed.

Lemma beforeArtifacts_noDoubleSpace (text : jsstring) :
  noDoubleSpace (fst (addEndingPeriod (fst (beforePunctuation text)))) = true.
Proof. apply addEndingPeriod_noDoubleSpace, beforePunctuation_noDoubleSpace. Qed.

Lemma corrected_unfold (text : jsstring) (similarities : list number) :
  corrected (applyCorrections text similarities) =
  trim (fixCommonArtifacts (fst (addEndingPeriod (fst (beforePunctuation text))))).
Proof.
  unfold applyCorrections.
  destruct (beforePunctuation text) as [r c]. cbn [fst].
  destruct (addEndingPeriod r) as [r' c']. reflexivity.
Qed.

(** X1. The corrected text of [applyCorrections] never holds two white-space
    characters in a row, whatever the input is. *)
Theorem corrected_has_no_double_space (text : jsstring) (similarities : list number) :
  noDoubleSpace (corrected (applyCorrections text similarities)) = true.
Proof.
  rewrite corrected_unfold.
  apply trim_noDoubleSpace, fixCommonArtifacts_noDoubleSpace,
    beforeArtifacts_noDoubleSpace.
Qed.

(** *** White space before a comma or a period *)

Lemma okAt_mark (x y : list char) :
  okAt (fun a b => isSpace a && oneOf ",." b) x y =
  negb (isSpaceAt (rev x) && isMarkAt y).
Proof.
  unfold okAt, isSpaceAt, isMarkAt. destruct (rev x) as [|a l]; [reflexivity|].
  destruct y as [|b y]; [rewrite andb_false_r|]; reflexivity.
Qed.

Lemma noSpaceBeforeMark_cons (c : char) (s : jsstring) :
  noSpaceBeforeMark (c :: s) = negb (isSpace c && isMarkAt s) && noSpaceBeforeMark s.
Proof. destruct s; [cbn; rewrite andb_false_r|]; reflexivity. Qed.

Lemma trimStart_run (sp tail : list char) :
  Forall (fun c => isSpace c = true) sp -> isSpaceAt tail = false ->
  trimStart (sp ++ tail) = tail.
Proof.
  induction 1 as [|c sp Hc _ IH]; intros Ht.
  - destruct tail as [|d tail]; [reflexivity|]. cbn in *. rewrite Ht. reflexivity.
  - cbn. rewrite Hc. exact (IH Ht).
Qed.

Lemma spaceBeforeMark_at_end (pre : list char) (i : nat) :
  execAt spaceBeforeMark pre [] i = None.
Proof. reflexivity. Qed.

(** White space, then a comma or a period: the pattern matches. *)
Lemma spaceBeforeMark_complete (pre sp : list char) (c : char) (t : list char) (i : nat) :
  Forall (fun c => isSpace c = true) sp -> sp <> [] -> oneOf ",." c = true ->
  execAt spaceBeforeMark pre (sp ++ c :: t) i <> None.
Proof.
  intros Hsp Hne Hc. unfold execAt.
  cbn [spaceBeforeMark body ignoreCase run before after caps].
  erewrite (repeatMatcher_longest false (Cls isSpace)); [discriminate| | | |].
  - exact Hsp.
  - cbn. apply commaDot_not_space, Hc.
  - destruct sp; [contradiction|cbn; lia].
  - cbn [run before after caps atomb]. rewrite Hc. reflexivity.
Qed.

Lemma spaceBeforeMark_match (pre rest : list char) (i : nat) (m : MatchResult) :
  execAt spaceBeforeMark pre rest i = Some m ->
  exists sp c,
    text m = sp ++ [c] /\ Forall (fun c => isSpace c = true) sp /\ sp <> [] /\
    oneOf ",." c = true /\ group 1 m = [c].
Proof.
  intros H.
  destruct (execAt_sound _ _ _ _ _ H) as (_ & post & _ & Hs).
  cbn [spaceBeforeMark body ignoreCase Sem] in Hs.
  destruct Hs as (S & t2 & cs1 & Ht & (HS & Hl & _ & ->) &
                  cs2 & (c & -> & Hc & ->) & Hg).
  cbn [atomb] in Hc. exists S, c. unfold group. rewrite Hg.
  repeat split; auto. destruct S; [cbn in Hl; lia|discriminate].
Qed.

Lemma spaceBeforeMark_pass (s : jsstring) :
  noSpaceBeforeMark (replaceAll spaceBeforeMark (group 1) s) = true.
Proof.
  unfold replaceAll.
  apply (replaceWith_invariant unit spaceBeforeMark (fun m => (group 1 m, @nil unit))
           (fun rest out =>
              noSpaceBeforeMark out = true /\
              (isMarkAt out = true -> isMarkAt (trimStart rest) = true))).
  - exact spaceBeforeMark_at_end.
  - split; [reflexivity|discriminate].
  - intros pre i c rest out Hn (Hout & Hhd). split.
    + rewrite noSpaceBeforeMark_cons, Hout, andb_true_r.
      destruct (isSpace c) eqn:Ec; [|reflexivity].
      destruct (isMarkAt out) eqn:Em; [|reflexivity]. exfalso.
      specialize (Hhd eq_refl).
      destruct (trimStart_split rest) as (w & Hw & Hsp).
      destruct (trimStart rest) as [|d t] eqn:Et; [discriminate|].
      cbn [isMarkAt] in Hhd. rewrite Hw in Hn.
      change (c :: w ++ d :: t) with ((c :: w) ++ d :: t) in Hn.
      apply (spaceBeforeMark_complete pre (c :: w) d t i); auto.
      discriminate.
    + cbn [isMarkAt]. intros Hc. cbn [trimStart].
      rewrite (commaDot_not_space _ Hc). exact Hc.
  - intros pre i rest m tail out Hm Hr _ (Hout & Hhd).
    destruct (spaceBeforeMark_match _ _ _ _ Hm) as (sp & c & Ht & Hsp & Hne & Hc & Hg).
    cbn [fst]. rewrite Hg. cbn [app]. split.
    + rewrite noSpaceBeforeMark_cons, Hout, (commaDot_not_space _ Hc). reflexivity.
    + intros _. rewrite Hr, Ht, <- app_assoc. cbn [app].
      rewrite trimStart_run; auto. cbn. apply commaDot_not_space, Hc.
  - intros pre rest i m Hm.
    destruct (spaceBeforeMark_match _ _ _ _ Hm) as (sp & c & Ht & _).
    rewrite Ht. destruct sp; discriminate.
Qed.

(** [/([,.])\s{2,}/] finds nothing where no white space is next to
    white space. *)
Lemma spacesAfterMark_absent (s : jsstring) (f : MatchResult -> jsstring) :
  noDoubleSpace s = true -> replaceAll spacesAfterMark f s = s.
Proof.
  intros Hs. unfold replaceAll, replaceWith.
  destruct (replaceFrom_no_match unit spacesAfterMark (fun m => (f m, @nil unit)) s [] 0)
    as [E _]; [|rewrite E; reflexivity].
  intros a b Hab.
  destruct (execAt spacesAfterMark (rev a ++ []) b (0 + length a)) as [m|] eqn:E;
    [|reflexivity]. exfalso.
  destruct (execAt_sound _ _ _ _ _ E) as (_ & post & Hb & Hsem).
  cbn [spacesAfterMark body ignoreCase Sem] in Hsem.
  destruct Hsem as (t1 & S & cs1 & Ht &
                  (cs2 & (c & -> & Hc & ->) & ->) & (HS & Hl & _ & Hg)).
  rewrite Hab, Hb, Ht in Hs.
  replace (a ++ ([c] ++ S) ++ post) with ((a ++ [c]) ++ S ++ post) in Hs
    by (rewrite <- !app_assoc; reflexivity).
  apply noPair_factor in Hs. fold noDoubleSpace in Hs.
  rewrite <- (app_nil_r S) in Hs.
  rewrite (noDoubleSpace_run S [] HS Hl) in Hs. discriminate.
Qed.

Lemma trim_noSpaceBeforeMark (s : jsstring) :
  noSpaceBeforeMark s = true -> noSpaceBeforeMark (trim s) = true.
Proof.
  intros H. destruct (trim_factor s) as (a & b & E). rewrite E in H.
  exact (noPair_factor _ _ _ _ H).
Qed.

(** X2. In the corrected text of [applyCorrections] no comma and no period
    comes right after a white-space character. *)
Theorem corrected_has_no_space_before_mark (text : jsstring)
    (similarities : list number) :
  noSpaceBeforeMark (corrected (applyCorrections text similarities)) = true.
Proof.
  rewrite corrected_unfold. apply trim_noSpaceBeforeMark.
  pose proof (beforeArtifacts_noDoubleSpace text) as H.
  set (s := fst (addEndingPeriod (fst (beforePunctuation text)))) in *.
  unfold fixCommonArtifacts. cbv zeta.
  rewrite spacesAfterMark_absent; [apply spaceBeforeMark_pass|].
  apply (replaceAll_noDoubleSpace _ _ _ spaceBeforeMark_safe).
  apply (replaceAll_noDoubleSpace _ _ _ repeatedWord_safe).
  apply replaceAll_noDoubleSpace;
    [apply wordPattern_safe; try reflexivity; discriminate|].
  apply replaceAll_noDoubleSpace;
    [apply wordPattern_safe; try reflexivity; discriminate|].
  apply replaceAll_noDoubleSpace;
    [apply wordPattern_safe; try reflexivity; discriminate|].
  exact H.
Qed.

(** X3. The corrected text of [applyCorrections] neither starts nor ends with
    white space. *)
Theorem corrected_is_trimmed (text : jsstring) (similarities : list number) :
  let c := corrected (applyCorrections text similarities) in
  isSpaceAt c = false /\ isSpaceAt (rev c) = false.
Proof.
  cbv zeta. rewrite corrected_unfold.
  set (s := fixCommonArtifacts _). split.
  - unfold trim. destruct (trimEnd_split (trimStart s)) as (w & Hw & Hsp).
    destruct (trimEnd (trimStart s)) as [|c t] eqn:E; [reflexivity|].
    cbn [isSpaceAt]. pose proof (find_trimStart s) as Hf. rewrite Hw in Hf.
    cbn [app hd_error] in Hf. symmetry in Hf. apply find_some in Hf.
    destruct Hf as (_ & Hc). apply negb_true_iff in Hc. exact Hc.
  - pose proof (lastChar_trim s) as Hl. unfold lastChar in Hl.
    destruct (rev (trim s)) as [|c t]; [reflexivity|].
    cbn [hd_error] in Hl. cbn [isSpaceAt]. symmetry in Hl.
    unfold lastNonSpace in Hl. apply find_some in Hl.
    destruct Hl as (_ & Hc). apply negb_true_iff in Hc. exact Hc.
Qed.

(** *** A text of white space *)

Lemma solid_sound (ic : bool) :
  forall r pre t post cs cs',
    solid ic r -> Sem ic r pre t post cs cs' ->
    Exists (fun c => isSpace c = false) t.
Proof.
  induction r as [|a|lo hi a|r1 IH1 r2 IH2|r1 IH1 r2 IH2|n r IH|n| | |];
    intros pre t post cs cs' Hr Hs; cbn [solid Sem] in *; try contradiction.
  - destruct Hs as (c & -> & Hc & _). constructor. apply Hr, Hc.
  - destruct Hr as (Hlo & Ha). destruct Hs as (Ht & Hl & _).
    destruct t as [|c t]; [cbn in Hl; lia|].
    constructor. apply Ha. apply (Forall_inv Ht).
  - destruct Hs as (t1 & t2 & cs1 & -> & H1 & H2). apply Exists_app.
    destruct Hr as [Hr|Hr]; [left; eapply IH1|right; eapply IH2]; eauto.
  - destruct Hr as (Hr1 & Hr2). destruct Hs as [Hs|Hs]; eauto.
  - destruct Hs as (cs1 & Hs & _). eauto.
Qed.

Lemma blank_suffix (a b s : list char) :
  s = a ++ b -> Forall (fun c => isSpace c = true) s ->
  Forall (fun c => isSpace c = true) b.
Proof. intros -> H. apply Forall_app in H. tauto. Qed.

Lemma solid_no_match (p : pattern) (pre rest : list char) (i : nat) :
  solid (ignoreCase p) (body p) -> Forall (fun c => isSpace c = true) rest ->
  execAt p pre rest i = None.
Proof.
  intros Hp Hrest. destruct (execAt p pre rest i) as [m|] eqn:E; [|reflexivity].
  exfalso. destruct (execAt_sound _ _ _ _ _ E) as (_ & post & Hr & Hs).
  apply (solid_sound _ _ _ _ _ _ _ Hp) in Hs.
  apply Exists_exists in Hs. destruct Hs as (c & Hin & Hc).
  rewrite Hr in Hrest. apply Forall_app in Hrest. destruct Hrest as (Ht & _).
  rewrite Forall_forall in Ht. rewrite (Ht c Hin) in Hc. discriminate.
Qed.

Lemma searchFrom_none (p : pattern) :
  forall rest pre i,
    (forall a b, rest = a ++ b ->
       execAt p (rev a ++ pre) b (i + length a) = None) ->
    searchFrom p pre rest i = None.
Proof.
  intros rest pre i H.
  destruct (searchFrom p pre rest i) as [m|] eqn:E; [|reflexivity].
  destruct (searchFrom_sound _ _ _ _ _ E) as (a & b & Hab & He).
  rewrite (H a b Hab) in He. discriminate.
Qed.

(** A solid pattern finds nothing in a text of white space. *)
Lemma blank_untouched (A : Type) (p : pattern)
    (f : MatchResult -> jsstring * list A) (s : jsstring) :
  solid (ignoreCase p) (body p) -> Forall (fun c => isSpace c = true) s ->
  replaceWith p f s = (s, []) /\ matchAll p s = [] /\ test p s = false.
Proof.
  intros Hp Hs.
  assert (Hno : forall a b, s = a ++ b ->
            execAt p (rev a ++ []) b (0 + length a) = None).
  { intros a b Hab. apply solid_no_match; [exact Hp|].
    exact (blank_suffix a b s Hab Hs). }
  destruct (replaceFrom_no_match A p f s [] 0 Hno) as [E1 E2].
  split; [exact E1|]. split; [exact E2|].
  unfold test. rewrite (searchFrom_none p s [] 0 Hno). reflexivity.
Qed.

Lemma replaceAll_blank (p : pattern) (f : MatchResult -> jsstring) (s : jsstring) :
  solid (ignoreCase p) (body p) -> Forall (fun c => isSpace c = true) s ->
  replaceAll p f s = s.
Proof.
  intros Hp Hs. unfold replaceAll.
  rewrite (proj1 (blank_untouched unit p (fun m => (f m, [])) s Hp Hs)).
  reflexivity.
Qed.

(** The patterns of the engine, [/\s{2,}/] apart, are solid. *)

Lemma lit_solid (ic : bool) (l : char) :
  isSpace l = false -> isSpace (canonicalize l) = false ->
  forall c, char_eqb ic l c = true -> isSpace c = false.
Proof.
  intros H1 H2 c Hc. unfold char_eqb in Hc. destruct ic.
  - apply N.eqb_eq in Hc. unfold canonicalize, toUpperCase in *.
    destruct (isLower c) eqn:Ec.
    + apply isLower_spec in Ec. apply not_true_iff_false. intros Hs.
      apply isSpace_spec in Hs. lia.
    + rewrite <- Hc. exact H2.
  - apply N.eqb_eq in Hc. rewrite <- Hc. exact H1.
Qed.

Lemma lits_solid (ic : bool) (a : ascii) (w : string) :
  isSpace (N_of_ascii a) = false -> isSpace (canonicalize (N_of_ascii a)) = false ->
  solid ic (lits (String a w)).
Proof.
  intros H1 H2. left. cbn [solid lit atomb chr]. apply lit_solid; assumption.
Qed.

Lemma lower_not_space (c : char) : isLower c = true -> isSpace c = false.
Proof.
  intros H. apply isLower_spec in H. apply not_true_iff_false. intros Hs.
  apply isSpace_spec in Hs. lia.
Qed.

Ltac solid_step :=
  match goal with
  | |- False \/ _ => right
  | |- (_ /\ _) \/ _ => left
  | |- _ /\ _ => split
  | |- solid _ (lits (String _ _)) \/ _ => left; apply lits_solid; reflexivity
  | |- solid _ (lits (String _ _)) => apply lits_solid; reflexivity
  | |- solid _ (lit _) \/ _ =>
      left; unfold lit; cbn [solid atomb chr]; apply lit_solid; reflexivity
  | |- solid _ (Seq _ _) => cbn [solid]
  | |- solid _ (Alt _ _) => cbn [solid]
  | |- solid _ (Grp _ _) => cbn [solid]
  | |- solid _ WordB \/ _ => right
  | |- solid _ (Seq _ _) \/ _ => left
  | |- solid _ (Grp _ _) \/ _ => left
  end.

Lemma fillers_solid :
  Forall (fun p => solid (ignoreCase p) (body p)) FILLER_PATTERNS.
Proof.
  unfold FILLER_PATTERNS.
  repeat (apply Forall_cons; [cbn [body ignoreCase]; do 12 try solid_step|]).
  apply Forall_nil.
Qed.

Lemma trigger_solid (trigger : string) :
  match trigger with
  | String a _ =>
    isSpace (N_of_ascii a) = false /\ isSpace (canonicalize (N_of_ascii a)) = false
  | EmptyString => False
  end ->
  solid true (body (triggerPattern trigger)).
Proof.
  destruct trigger as [|a w]; [contradiction|]. intros (H1 & H2).
  cbn [triggerPattern body solid]. right. left. apply lits_solid; assumption.
Qed.

Lemma triggers_solid :
  Forall (fun t => solid true (body (triggerPattern t))) BOUNDARY_TRIGGERS.
Proof.
  unfold BOUNDARY_TRIGGERS.
  repeat (apply Forall_cons; [apply trigger_solid; split; reflexivity|]).
  apply Forall_nil.
Qed.

Lemma afterPeriod_solid : solid false (body afterPeriod).
Proof. left. cbn [solid lit atomb chr]. apply lit_solid; reflexivity. Qed.

Lemma startsLower_solid : solid false (body startsLower).
Proof. right. cbn [solid atomb]. exact lower_not_space. Qed.

Lemma standaloneI_solid : solid false (body standaloneI).
Proof. right. left. cbn [solid lit atomb chr]. apply lit_solid; reflexivity. Qed.

Lemma removeFillers_blank (l : list pattern) (text : jsstring) (ch : list Change) :
  Forall (fun p => solid (ignoreCase p) (body p)) l ->
  Forall (fun c => isSpace c = true) text ->
  fold_left removeFiller l (text, ch) = (text, ch).
Proof.
  intros Hl Ht. revert ch. induction Hl as [|p l Hp _ IH]; intros ch; [reflexivity|].
  cbn [fold_left removeFiller].
  rewrite (replaceAll_blank p _ text Hp Ht).
  rewrite (proj1 (proj2 (blank_untouched unit p (fun m => ([], [])) text Hp Ht))).
  cbn [map]. rewrite app_nil_r. apply IH.
Qed.

Lemma triggers_blank (l : list string) (s : jsstring) (ch : list Change) :
  Forall (fun t => solid true (body (triggerPattern t))) l ->
  Forall (fun c => isSpace c = true) s ->
  fold_left applyTrigger l (s, ch) = (s, ch).
Proof.
  intros Hl Hs. revert ch. induction Hl as [|t l Ht _ IH]; intros ch; [reflexivity|].
  cbn [fold_left applyTrigger].
  rewrite (proj1 (blank_untouched Change (triggerPattern t) (breakBefore s) s Ht Hs)).
  rewrite app_nil_r. apply IH.
Qed.

Lemma matchesFrom_skip_all (p : pattern) :
  (forall pre i, execAt p pre [] i = None) ->
  forall rest pre i, matchesFrom p (length rest) pre rest i = [].
Proof.
  intros Hend. induction rest as [|c rest IH]; intros pre i.
  - cbn. rewrite Hend. reflexivity.
  - cbn [length matchesFrom]. apply IH.
Qed.

(** Step 2 on a text of white space. *)
Lemma fixSpaces_blank (text : jsstring) :
  Forall (fun c => isSpace c = true) text ->
  fixSpaces text =
  if 2 <=? length text
  then (str " ", [MkChange spacing (str "Fixed multiple spaces") 0])
  else (text, []).
Proof.
  intros Ht. destruct (Nat.leb_spec 2 (length text)) as [Hl|Hl].
  - pose proof (execAt_multiSpace [] text [] 0 Ht eq_refl) as E.
    rewrite app_nil_r in E. apply Nat.leb_le in Hl. rewrite Hl in E.
    destruct text as [|c rest]; [discriminate|].
    unfold fixSpaces, replaceAll, replaceWith, matchAll.
    cbn [replaceFrom matchesFrom]. rewrite E. cbn [text length pred].
    rewrite matchesFrom_skip_all by exact multiSpace_at_end.
    rewrite replaceFrom_skip by lia.
    rewrite skipn_all. cbn [replaceFrom]. rewrite multiSpace_at_end.
    reflexivity.
  - apply fixSpaces_clean.
    destruct text as [|c [|d text]]; try reflexivity. cbn in Hl. lia.
Qed.

Lemma trim_blank (s : jsstring) :
  Forall (fun c => isSpace c = true) s -> trim s = [].
Proof.
  intros H. unfold trim.
  assert (E : trimStart s = []).
  { induction H as [|c s Hc _ IH]; [reflexivity|]. cbn. rewrite Hc. exact IH. }
  rewrite E. reflexivity.
Qed.

(** X4. For a text that is not empty and holds white space only,
    [applyCorrections] gives the corrected text ["."]: no pattern but the
    one for multiple spaces finds a match, the trimmed result is empty,
    and the ending period is added to it.  The changes are the spacing
    entry (for two characters or more) and the ending-period entry, which
    carries the length 1 of the single space that steps 1 to 6 leave. *)
Theorem blank_text_becomes_a_period (text : jsstring) (similarities : list number) :
  text <> [] -> forallb isSpace text = true ->
  applyCorrections text similarities =
  MkCorrectionResult text (str ".")
    ((if 2 <=? length text
      then [MkChange spacing (str "Fixed multiple spaces") 0]
      else []) ++
     [MkChange punctuation (str "Added ending period") 1]).
Proof.
  intros Hne Hb0.
  assert (Hb : Forall (fun c => isSpace c = true) text).
  { apply Forall_forall. exact (proj1 (forallb_forall _ _) Hb0). }
  assert (Hstep2 : exists c,
            isSpace c = true /\
            fixSpaces text =
              ([c], if 2 <=? length text
                    then [MkChange spacing (str "Fixed multiple spaces") 0]
                    else [])).
  { rewrite (fixSpaces_blank text Hb).
    destruct (Nat.leb_spec 2 (length text)) as [Hl|Hl].
    - exists (N_of_ascii " "). split; reflexivity.
    - destruct text as [|c [|d text]]; [contradiction| |cbn in Hl; lia].
      exists c. split; [exact (Forall_inv Hb)|reflexivity]. }
  destruct Hstep2 as (c & Hc & E2).
  assert (Hs : Forall (fun x => isSpace x = true) [c]) by (constructor; auto).
  unfold applyCorrections, beforePunctuation. cbv zeta.
  unfold removeFillers. rewrite (removeFillers_blank _ text [] fillers_solid Hb).
  rewrite E2.
  unfold inferSentenceBoundaries.
  rewrite (triggers_blank _ [c] [] triggers_solid Hs).
  assert (Esplit : split (oneOf ".!?") [c] = [[c]]).
  { unfold split. cbn [splitOn].
    destruct (oneOf ".!?" c) eqn:Em; [|reflexivity].
    apply mark_not_space in Em. congruence. }
  rewrite Esplit. cbn [forEachIndexed longSegment length Nat.ltb Nat.leb app].
  rewrite (proj1 (blank_untouched Change afterPeriod (capitalizeAfterPeriod 0) [c]
                    afterPeriod_solid Hs)).
  unfold capitalizeFirst.
  rewrite (proj2 (proj2 (blank_untouched unit startsLower (fun m => ([], [])) [c]
                           startsLower_solid Hs))).
  rewrite andb_false_r.
  rewrite (replaceAll_blank standaloneI _ [c] standaloneI_solid Hs).
  unfold addEndingPeriod. rewrite (trim_blank [c] Hs).
  cbn [length Nat.ltb Nat.leb]. 
  change (test endsSentence []) with false. cbn [negb andb app].
  change (fixCommonArtifacts (str ".")) with (str ".").
  rewrite !app_nil_r. reflexivity.
Qed.

Lemma blank_text_becomes_a_period_witness :
  applyCorrections (str "  ") [] =
  MkCorrectionResult (str "  ") (str ".")
    [MkChange spacing (str "Fixed multiple spaces") 0;
     MkChange punctuation (str "Added ending period") 1].
Proof.
  apply (blank_text_becomes_a_period (str "  ") []); [discriminate|reflexivity].
Defined.

End RewriteFacts.

(* ================================================================= *)
(** ** Sentences *)

Module SentenceFacts.
Import JsString Regex CorrectionEngine Vocabulary Notions Sentences.
Import JsStringFacts RegexFacts ScanFacts CharFacts RewriteFacts.

Lemma gap_exec (pre sp tail : list char) (i : nat) :
  Forall (fun c => isSpace c = true) sp -> isSpaceAt tail = false ->
  execAt gap pre (sp ++ tail) i =
  if 1 <=? length sp then Some (MkMatch i sp []) else None.
Proof.
  intros Hsp Ht. unfold execAt. cbn [gap body ignoreCase run before after caps].
  assert (Hst : stops false (Cls isSpace) tail).
  { destruct tail; [exact I|exact Ht]. }
  destruct (Nat.leb_spec 1 (length sp)) as [Hle|Hlt].
  - rewrite (repeatMatcher_longest false (Cls isSpace) Some sp tail 1 pre []
               (MState (rev sp ++ pre) tail [])); auto.
    rewrite consumed_run. reflexivity.
  - rewrite repeatMatcher_none; auto. intros j Hj. lia.
Qed.

Lemma gapAt_match (pre rest : list char) (i : nat) (m : MatchResult) :
  gapAt pre rest i = Some m ->
  afterMark pre = true /\
  exists tail,
    rest = text m ++ tail /\ Forall (fun c => isSpace c = true) (text m) /\
    text m <> [] /\ isSpaceAt tail = false.
Proof.
  unfold gapAt. destruct (afterMark pre); [|discriminate]. intros H.
  split; [reflexivity|].
  destruct (space_split rest) as (sp & tail & -> & Hsp & Ht).
  rewrite (gap_exec pre sp tail i Hsp Ht) in H.
  destruct (Nat.leb_spec 1 (length sp)); [|discriminate].
  injection H as <-. exists tail. cbn [text]. repeat split; auto.
  destruct sp; [cbn in *; lia|discriminate].
Qed.

Lemma gapAt_none (pre rest : list char) (i : nat) :
  isSpaceAt rest = false -> gapAt pre rest i = None.
Proof.
  intros H. unfold gapAt. destruct (afterMark pre); [|reflexivity].
  apply (gap_exec pre [] rest i (Forall_nil _) H).
Qed.

(** *** What a split keeps *)

Lemma ink_app (x y : jsstring) : ink (x ++ y) = ink x ++ ink y.
Proof. apply filter_app. Qed.

Lemma ink_spaces (s : jsstring) : Forall (fun c => isSpace c = true) s -> ink s = [].
Proof.
  induction 1 as [|c s Hc _ IH]; [reflexivity|]. cbn. rewrite Hc. exact IH.
Qed.

Lemma splitFrom_ink :
  forall rest skip cur pre i,
    skip <= length rest ->
    Forall (fun c => isSpace c = true) (firstn skip rest) ->
    ink (concat (splitFrom gapAt skip cur pre rest i)) = ink (rev cur) ++ ink rest.
Proof.
  induction rest as [|c rest IH]; intros skip cur pre i Hk Hsp.
  - cbn. rewrite !app_nil_r. reflexivity.
  - destruct skip as [|k].
    + cbn [splitFrom].
      destruct (gapAt pre (c :: rest) i) as [m|] eqn:E.
      * destruct (gapAt_match _ _ _ _ E) as (_ & tail & Hr & Hm & Hne & Ht).
        destruct (text m) as [|c0 t] eqn:Etext; [contradiction|].
        cbn [length]. cbn [app] in Hr. injection Hr as <- Hr.
        cbn [concat]. rewrite ink_app, IH.
        -- cbn [rev ink filter]. inversion Hm as [|? ? Hc Hm']; subst.
           cbn [ink filter]. rewrite Hc. reflexivity.
        -- rewrite Hr, length_app. lia.
        -- rewrite Hr, firstn_app, Nat.sub_diag, firstn_all. cbn [firstn].
           rewrite app_nil_r. inversion Hm; assumption.
      * rewrite IH by (try constructor; cbn; lia).
        cbn [rev]. rewrite ink_app, <- app_assoc.
        change (c :: rest) with ([c] ++ rest). rewrite (ink_app [c] rest). reflexivity.
    + cbn [splitFrom]. cbn [firstn] in Hsp. inversion Hsp as [|? ? Hc Hsp']; subst.
      cbn [length] in Hk. rewrite IH by (auto; lia).
      cbn [ink filter]. rewrite Hc. reflexivity.
Qed.

Lemma blank_ink (s : jsstring) : trim s = [] -> ink s = [].
Proof.
  intros H. destruct (trimStart_split s) as (a & Ha & Hsa).
  destruct (trimEnd_split (trimStart s)) as (b & Hb & Hsb).
  fold (trim s) in Hb. rewrite H in Hb. cbn [app] in Hb.
  rewrite Ha, Hb, ink_app, (ink_spaces a Hsa), (ink_spaces b Hsb). reflexivity.
Qed.

Lemma ink_concat_filter (l : list jsstring) :
  ink (concat (filter (fun s => 0 <? length (trim s)) l)) = ink (concat l).
Proof.
  induction l as [|s l IH]; [reflexivity|].
  cbn [filter]. destruct (Nat.ltb_spec 0 (length (trim s))) as [Hlt|Hge].
  - cbn [concat]. rewrite !ink_app, IH. reflexivity.
  - cbn [concat]. rewrite ink_app, IH, (blank_ink s); [reflexivity|].
    destruct (trim s); [reflexivity|cbn in Hge; lia].
Qed.

(** X5. [splitIntoSentences] loses white space only: the characters of the
    sentences that are not white space are, in order, those of the
    text. *)
Theorem splitIntoSentences_keeps_ink (text : jsstring) :
  ink (concat (splitIntoSentences text)) = ink text.
Proof.
  unfold splitIntoSentences. rewrite ink_concat_filter.
  destruct text as [|c text]; [reflexivity|].
  unfold splitBy. rewrite splitFrom_ink; [reflexivity|cbn; lia|constructor].
Qed.

(** *** Where a split cuts *)

Lemma space_not_mark (c : char) : isSpace c = true -> oneOf ".!?" c = false.
Proof.
  intros H. destruct (oneOf ".!?" c) eqn:E; [|reflexivity].
  rewrite (mark_not_space c E) in H. discriminate.
Qed.

Lemma splitFrom_nonempty :
  forall sep rest skip cur pre i, splitFrom sep skip cur pre rest i <> [].
Proof.
  induction rest as [|c rest IH]; intros skip cur pre i; [discriminate|].
  cbn [splitFrom]. destruct skip; [|apply IH].
  destruct (sep pre (c :: rest) i) as [m|]; [|apply IH].
  destruct (length (text m)); [destruct cur; [apply IH|discriminate]|discriminate].
Qed.

Lemma removelast_cons (A : Type) (x : A) (l : list A) :
  l <> [] -> removelast (x :: l) = x :: removelast l.
Proof. destruct l; [contradiction|reflexivity]. Qed.

Lemma splitFrom_ends :
  forall rest skip cur pre i,
    (skip = 0 ->
     match cur with
     | c :: _ => exists pre', pre = c :: pre'
     | [] => afterMark pre = false
     end) ->
    (0 < skip ->
     cur = [] /\ skip <= length rest /\
     Forall (fun c => isSpace c = true) (firstn skip rest)) ->
    Forall (fun s => afterMark (rev s) = true)
      (removelast (splitFrom gapAt skip cur pre rest i)).
Proof.
  induction rest as [|c rest IH]; intros skip cur pre i H0 Hk.
  - cbn. constructor.
  - destruct skip as [|k].
    + specialize (H0 eq_refl). clear Hk. cbn [splitFrom].
      destruct (gapAt pre (c :: rest) i) as [m|] eqn:E.
      * destruct (gapAt_match _ _ _ _ E) as (Hmark & tail & Hr & Hm & Hne & Ht).
        destruct (text m) as [|c0 t] eqn:Etext; [contradiction|].
        cbn [length]. cbn [app] in Hr. injection Hr as <- Hr.
        rewrite removelast_cons by apply splitFrom_nonempty.
        inversion Hm as [|? ? Hc Hm']; subst.
        constructor.
        -- rewrite rev_involutive. destruct cur as [|c1 cur].
           ++ rewrite Hmark in H0. discriminate.
           ++ destruct H0 as (pre' & ->). exact Hmark.
        -- apply IH.
           ++ intros _. cbn [afterMark]. apply space_not_mark, Hc.
           ++ intros _. split; [reflexivity|]. split.
              ** rewrite length_app. lia.
              ** rewrite firstn_app, Nat.sub_diag, firstn_all. cbn [firstn].
                 rewrite app_nil_r. exact Hm'.
      * apply IH; [|lia]. intros _. exists pre. reflexivity.
    + cbn [splitFrom]. destruct Hk as (-> & Hle & Hsp); [lia|].
      cbn [firstn] in Hsp. inversion Hsp as [|? ? Hc Hsp']; subst.
      cbn [length] in Hle. apply IH.
      * intros _. cbn [afterMark]. apply space_not_mark, Hc.
      * intros Hpos. split; [reflexivity|]. split; [lia|exact Hsp'].
Qed.

Lemma splitFrom_first :
  forall rest cur pre i,
    exists t l, splitFrom gapAt 0 cur pre rest i = (rev cur ++ t) :: l.
Proof.
  induction rest as [|c rest IH]; intros cur pre i.
  - exists [], []. cbn. rewrite app_nil_r. reflexivity.
  - cbn [splitFrom]. destruct (gapAt pre (c :: rest) i) as [m|] eqn:E.
    + destruct (gapAt_match _ _ _ _ E) as (_ & tail & _ & _ & Hne & _).
      destruct (text m) as [|c0 t]; [contradiction|]. cbn [length].
      eexists [], _. rewrite app_nil_r. reflexivity.
    + destruct (IH (c :: cur) (c :: pre) (S i)) as (t & l & ->).
      exists (c :: t), l. cbn [rev]. rewrite <- app_assoc. reflexivity.
Qed.

Lemma splitFrom_starts :
  forall rest skip cur pre i,
    (0 < skip ->
     skip <= length rest /\
     Forall (fun c => isSpace c = true) (firstn skip rest) /\
     isSpaceAt (skipn skip rest) = false) ->
    Forall (fun s => isSpaceAt s = false) (tl (splitFrom gapAt skip cur pre rest i)) /\
    (cur = [] -> isSpaceAt (skipn skip rest) = false ->
     Forall (fun s => isSpaceAt s = false) (splitFrom gapAt skip cur pre rest i)).
Proof.
  induction rest as [|c rest IH]; intros skip cur pre i Hk.
  - cbn [splitFrom tl]. split; [constructor|].
    intros -> _. constructor; [reflexivity|constructor].
  - destruct skip as [|k].
    + clear Hk. cbn [splitFrom skipn].
      destruct (gapAt pre (c :: rest) i) as [m|] eqn:E.
      * destruct (gapAt_match _ _ _ _ E) as (Hmark & tail & Hr & Hm & Hne & Ht).
        destruct (text m) as [|c0 t] eqn:Etext; [contradiction|].
        cbn [length]. cbn [app] in Hr. injection Hr as <- Hr.
        inversion Hm as [|? ? Hc Hm']; subst.
        split.
        -- cbn [tl]. apply IH.
           ++ intros _. rewrite length_app. split; [lia|]. split.
              ** rewrite firstn_app, Nat.sub_diag, firstn_all. cbn [firstn].
                 rewrite app_nil_r. exact Hm'.
              ** rewrite skipn_app, Nat.sub_diag, skipn_all. exact Ht.
           ++ reflexivity.
           ++ rewrite skipn_app, Nat.sub_diag, skipn_all. exact Ht.
        -- intros _ Hs. cbn [isSpaceAt] in Hs. rewrite Hc in Hs. discriminate.
      * destruct (IH 0 (c :: cur) (c :: pre) (S i)) as (IH1 & _); [lia|].
        split; [exact IH1|]. intros -> Hs.
        destruct (splitFrom_first rest [c] (c :: pre) (S i)) as (t & l & Heq).
        rewrite Heq in *. cbn [tl] in IH1. constructor; [exact Hs|exact IH1].
    + cbn [splitFrom]. destruct Hk as (Hle & Hsp & Hs); [lia|].
      cbn [firstn] in Hsp. inversion Hsp as [|? ? Hc Hsp']; subst.
      cbn [length] in Hle. cbn [skipn] in Hs |- *.
      destruct (IH k cur (c :: pre) (S i)) as (IH1 & IH2).
      * intros _. split; [lia|]. split; assumption.
      * split; assumption.
Qed.

Lemma Forall_removelast_filter (A : Type) (P : A -> Prop) (f : A -> bool) (l : list A) :
  Forall P (removelast l) -> Forall P (removelast (filter f l)).
Proof.
  induction l as [|x l IH]; intros H; [constructor|].
  destruct l as [|y l].
  - cbn. destruct (f x); constructor.
  - rewrite removelast_cons in H by discriminate.
    inversion H as [|? ? Hx Hl]; subst. specialize (IH Hl).
    cbn [filter] in *. destruct (f x); [|exact IH].
    destruct (if f y then y :: filter f l else filter f l) eqn:E.
    + constructor.
    + rewrite removelast_cons by discriminate. constructor; assumption.
Qed.

Lemma Forall_tl_filter (A : Type) (P : A -> Prop) (f : A -> bool) (l : list A) :
  Forall P (tl l) -> Forall P (tl (filter f l)).
Proof.
  destruct l as [|x l]; intros H; [constructor|]. cbn [tl] in H.
  assert (Hf : Forall P (filter f l)).
  { apply Forall_forall. intros y Hy. apply filter_In in Hy.
    exact (proj1 (Forall_forall _ _) H y (proj1 Hy)). }
  cbn [filter]. destruct (f x); [exact Hf|].
  destruct (filter f l); [constructor|]. inversion Hf; assumption.
Qed.

(** X6. Of the sentences that [splitIntoSentences] returns, every one but the
    last ends with one of [. ! ?], every one but the first starts with a
    character that is not white space, and none is blank. *)
Theorem sentences_are_cut_after_marks (text : jsstring) :
  let sentences := splitIntoSentences text in
  Forall (fun s => afterMark (rev s) = true) (removelast sentences) /\
  Forall (fun s => isSpaceAt s = false) (tl sentences) /\
  Forall (fun s => trim s <> []) sentences.
Proof.
  cbv zeta. unfold splitIntoSentences. repeat split.
  - apply Forall_removelast_filter. destruct text as [|c text].
    + cbn. constructor.
    + unfold splitBy. apply splitFrom_ends; [reflexivity|lia].
  - apply Forall_tl_filter. destruct text as [|c text].
    + cbn. constructor.
    + unfold splitBy. apply (splitFrom_starts (c :: text) 0 [] [] 0). lia.
  - apply Forall_forall. intros s Hs. apply filter_In in Hs.
    destruct Hs as (_ & Hs). destruct (trim s); [discriminate|discriminate].
Qed.

(** Text without a mark before white space is one sentence *)
Lemma splitFrom_whole :
  forall rest cur pre i,
    (forall a b, rev pre ++ rest = a ++ b -> a <> [] ->
       afterMark (rev a) = true -> isSpaceAt b = false) ->
    splitFrom gapAt 0 cur pre rest i = [rev cur ++ rest].
Proof.
  induction rest as [|c rest IH]; intros cur pre i H.
  - cbn. rewrite app_nil_r. reflexivity.
  - cbn [splitFrom]. destruct (gapAt pre (c :: rest) i) as [m|] eqn:E.
    + exfalso. destruct (gapAt_match _ _ _ _ E) as (Hmark & tail & Hr & Hm & Hne & Ht).
      destruct (text m) as [|c0 t]; [contradiction|].
      cbn [app] in Hr. injection Hr as <- Hr. inversion Hm as [|? ? Hc _]; subst.
      destruct pre as [|p pre]; [discriminate|].
      specialize (H (rev (p :: pre)) (c :: t ++ tail) eq_refl).
      rewrite rev_involutive in H. cbn [isSpaceAt] in H. rewrite Hc in H.
      assert (true = false); [|discriminate].
      apply H; [|exact Hmark]. cbn [rev]. destruct (rev pre); discriminate.
    + rewrite IH.
      * cbn [rev]. rewrite <- app_assoc. reflexivity.
      * intros a b Hab. apply H. cbn [rev] in Hab. rewrite <- app_assoc in Hab. exact Hab.
Qed.

Lemma okAt_cut (x y : list char) :
  okAt (fun a b => oneOf ".!?" a && isSpace b) x y =
  negb (afterMark (rev x) && isSpaceAt y).
Proof.
  unfold okAt, afterMark, isSpaceAt. destruct (rev x) as [|a l]; [reflexivity|].
  destruct y as [|b y]; [rewrite andb_false_r|]; reflexivity.
Qed.

(** X7. A text in which no [. ! ?] is followed by white space is not split:
    [splitIntoSentences] returns the text itself, untrimmed, as the one
    sentence, or no sentence when the text is blank. *)
Theorem text_without_cut_is_one_sentence (text : jsstring) :
  noPair (fun a b => oneOf ".!?" a && isSpace b) text = true ->
  splitIntoSentences text = if 0 <? length (trim text) then [text] else [].
Proof.
  intros H. unfold splitIntoSentences. destruct text as [|c text]; [reflexivity|].
  unfold splitBy. rewrite splitFrom_whole; [reflexivity|].
  cbn [rev app]. intros a b Hab _ Hmark. rewrite Hab, noPair_app, okAt_cut, Hmark in H.
  apply andb_true_iff in H. destruct H as (_ & H).
  destruct (isSpaceAt b); [discriminate|reflexivity].
Qed.

Lemma text_without_cut_is_one_sentence_witness :
  splitIntoSentences (str "um hello.world") = [str "um hello.world"].
Proof. exact (text_without_cut_is_one_sentence (str "um hello.world") eq_refl). Defined.

End SentenceFacts.

(* ================================================================= *)
(** ** Similarity of embeddings *)

Module SimilarityFacts.
Import Float Similarity Vocabulary.

Lemma mul_comm (x y : number) : mul x y = mul y x.
Proof.
  unfold mul.
  destruct x as [sx|sx| |sx mx ex]; destruct y as [sy|sy| |sy my ey];
    cbn [SFmul]; try reflexivity; try (rewrite xorb_comm; reflexivity).
  rewrite xorb_comm, Pos.mul_comm, Z.add_comm. reflexivity.
Qed.

Lemma accumulate_swap (a b : list number) :
  forall d na nb,
    accumulate b a d nb na =
    let '(d', na', nb') := accumulate a b d na nb in (d', nb', na').
Proof.
  revert b. induction a as [|x a IH]; intros [|y b] d na nb; cbn [accumulate];
    try reflexivity.
  rewrite (mul_comm y x). apply IH.
Qed.

(** X8. [cosineSimilarity] is symmetric: the two vectors can be swapped,
    whatever their lengths and their elements (infinities and NaN
    included) are. *)
Theorem cosineSimilarity_symmetric (a b : list number) :
  cosineSimilarity a b = cosineSimilarity b a.
Proof.
  unfold cosineSimilarity. rewrite (Nat.eqb_sym (length b) (length a)).
  destruct (length a =? length b); [|reflexivity]. cbn [negb].
  rewrite (accumulate_swap a b).
  destruct (accumulate a b zero zero zero) as [[d na] nb].
  rewrite (mul_comm (sqrt nb) (sqrt na)). reflexivity.
Qed.

Lemma accumulate_zeros (a b : list number) :
  allZero a = true -> allZero b = true ->
  accumulate a b zero zero zero = (zero, zero, zero).
Proof.
  revert b. induction a as [|x a IH]; intros [|y b] Ha Hb; try reflexivity.
  cbn [allZero forallb] in Ha, Hb.
  apply andb_true_iff in Ha. destruct Ha as (Hx & Ha).
  apply andb_true_iff in Hb. destruct Hb as (Hy & Hb).
  destruct x as [sx| | |]; try discriminate.
  destruct y as [sy| | |]; try discriminate.
  cbn [accumulate].
  replace (add zero (mul (S754_zero sx) (S754_zero sy))) with zero
    by (destruct sx, sy; reflexivity).
  replace (add zero (mul (S754_zero sx) (S754_zero sx))) with zero
    by (destruct sx; reflexivity).
  replace (add zero (mul (S754_zero sy) (S754_zero sy))) with zero
    by (destruct sy; reflexivity).
  apply IH; assumption.
Qed.

(** X9. For two vectors of zeros (of either sign, of any lengths)
    [cosineSimilarity] returns 0: the guard on the zero denominator keeps
    the quotient 0 / 0, which is NaN, from being computed. *)
Theorem cosineSimilarity_of_zero_vectors (a b : list number) :
  allZero a = true -> allZero b = true -> cosineSimilarity a b = zero.
Proof.
  intros Ha Hb. unfold cosineSimilarity.
  destruct (negb (length a =? length b)); [reflexivity|].
  rewrite (accumulate_zeros a b Ha Hb). reflexivity.
Qed.

Lemma cosineSimilarity_of_zero_vectors_witness :
  cosineSimilarity [zero; S754_zero true] [S754_zero true; zero] = zero.
Proof.
  exact (cosineSimilarity_of_zero_vectors [zero; S754_zero true]
           [S754_zero true; zero] eq_refl eq_refl).
Defined.

End SimilarityFacts.

(* ================================================================= *)
(** ** The peak of a buffer *)

Module PeakFacts.
Import JsString Float Protocol HookCommon Vocabulary Notions FloatFacts.

(** X10. The peak that the normalization computes over binary32 samples is
    their largest absolute value: no sample compares above it in absolute
    value, and it is 0 or the absolute value of one of the samples. *)
Theorem peak_is_maximum (data : Float32Array) :
  Forall isFloat32 data ->
  let peak := peakFrom zero data in
  Forall (fun x => gt (abs x) peak = false) data /\
  (peak = zero \/ exists x, In x data /\ abs x = peak).
Proof.
  intros Hdata. cbv zeta.
  assert (Hst : Forall stored data).
  { apply Forall_impl with (2 := Hdata). exact isFloat32_stored. }
  destruct (peakFrom_spec data Hst zero eq_refl) as (Hl & _ & Hall & Hex).
  split; [|exact Hex].
  rewrite Forall_forall in *. intros x Hx.
  destruct x as [s|s| |s m e] eqn:Ex; try apply gt_nan;
    (unfold gt; rewrite ltb_mag;
     [rewrite mag_abs; apply Z.ltb_ge, Hall, Hx
     |exact Hl
     |apply abs_level; [apply Hst, Hx|discriminate]]).
Qed.

Lemma peak_is_maximum_witness :
  Forall (fun x => gt (abs x) (peakFrom zero [div (ofZ 1) (ofZ 2); div (ofZ (-3)) (ofZ 4)]) = false)
    [div (ofZ 1) (ofZ 2); div (ofZ (-3)) (ofZ 4)].
Proof.
  exact (proj1 (peak_is_maximum [div (ofZ 1) (ofZ 2); div (ofZ (-3)) (ofZ 4)]
                  (Forall_cons _ eq_refl (Forall_cons _ eq_refl (Forall_nil _))))).
Defined.

(** *** Samples that are not finite *)

Lemma gt_infinity (q : number) :
  q <> S754_nan -> q <> S754_infinity false -> gt (S754_infinity false) q = true.
Proof. destruct q as [s|[|]| |s m e]; intros H1 H2; try reflexivity; congruence. Qed.

Lemma gt_over_infinity (x : number) : gt x (S754_infinity false) = false.
Proof. destruct x as [s|[|]| |[|] m e]; reflexivity. Qed.

Lemma peakFrom_infinity (data : Float32Array) :
  peakFrom (S754_infinity false) data = S754_infinity false.
Proof.
  induction data as [|x data IH]; cbn [peakFrom]; [reflexivity|].
  cbv zeta. rewrite gt_over_infinity. exact IH.
Qed.

Lemma abs_not_nan_gt (x q : number) : gt (abs x) q = true -> abs x <> S754_nan.
Proof. intros H E. rewrite E, gt_nan in H. discriminate. Qed.

Lemma peakFrom_infinite_sample (data : Float32Array) (s : bool) :
  In (S754_infinity s) data ->
  forall q, q <> S754_nan -> peakFrom q data = S754_infinity false.
Proof.
  induction data as [|x data IH]; intros Hin q Hq; [contradiction|].
  cbn [peakFrom]. cbv zeta. destruct Hin as [->|Hin].
  - cbn [abs SFabs].
    destruct (gt (S754_infinity false) q) eqn:Hgt; [apply peakFrom_infinity|].
    assert (E : q = S754_infinity false).
    { destruct q as [s'|[|]| |s' m e]; try discriminate; try reflexivity.
      congruence. }
    rewrite E. apply peakFrom_infinity.
  - destruct (gt (abs x) q) eqn:Hgt.
    + apply (IH Hin). exact (abs_not_nan_gt _ _ Hgt).
    + apply (IH Hin). exact Hq.
Qed.

Lemma applyGain_zero (data : Float32Array) :
  applyGain zero data = map silenced data.
Proof.
  unfold applyGain. apply map_ext. intros x.
  destruct x as [s|s| |s m e]; cbn; try reflexivity; destruct s; reflexivity.
Qed.

(** X11. A buffer with an infinite sample has the peak [Infinity].
    [normalizeAudio] then returns the samples unchanged with the gain 1
    and logs the error entry; the streaming variant multiplies by the
    gain 0.95 / Infinity = 0 instead, which turns every finite sample into
    a zero of its sign and every other sample into NaN. *)
Theorem infinite_sample (data : Float32Array) (v : View) (s : bool) :
  In (S754_infinity s) data ->
  TranscribeHook.normalizeAudio data v =
    (TranscribeHook.MkNormalized data (S754_infinity false) one,
     addLog "Audio peak is zero or invalid." [] Log.error v) /\
  StreamingHook.normalize data = map silenced data.
Proof.
  intros Hin.
  assert (Hp : peakFrom zero data = S754_infinity false).
  { apply (peakFrom_infinite_sample data s Hin). discriminate. }
  split.
  - unfold TranscribeHook.normalizeAudio. rewrite Hp. reflexivity.
  - unfold StreamingHook.normalize. rewrite Hp.
    change (gt (S754_infinity false) zero) with true. cbv iota.
    change (div lit_0_95 (S754_infinity false)) with zero.
    apply applyGain_zero.
Qed.

Lemma infinite_sample_witness :
  StreamingHook.normalize [one; S754_infinity true; S754_nan] =
  [zero; S754_nan; S754_nan].
Proof.
  exact (proj2 (infinite_sample [one; S754_infinity true; S754_nan] initialView
                  true (or_intror (or_introl eq_refl)))).
Defined.

(** *** Samples that are NaN *)
Lemma peakFrom_zeroOrNaN (data : Float32Array) :
  zeroOrNaN data = true -> peakFrom zero data = zero.
Proof.
  induction data as [|x data IH]; cbn; intros H; [reflexivity|].
  apply andb_true_iff in H. destruct H as (Hx & Hd).
  destruct x; try discriminate; cbn; exact (IH Hd).
Qed.

Lemma applyGain_one_zeroOrNaN (data : Float32Array) :
  zeroOrNaN data = true -> applyGain one data = data.
Proof.
  unfold applyGain.
  induction data as [|x data IH]; cbn [map zeroOrNaN forallb]; intros H;
    [reflexivity|].
  apply andb_true_iff in H. destruct H as (Hx & Hd).
  fold (zeroOrNaN data) in Hd. rewrite (IH Hd). f_equal.
  destruct x as [[|]| | |]; try discriminate; reflexivity.
Qed.

(** X12. NaN samples never raise the peak: a buffer of zeros and NaN has the
    peak 0, so [normalizeAudio] returns it unchanged with the gain 1 and
    the error entry, and the streaming variant leaves it unchanged as
    well. *)
Theorem nan_samples_do_not_count (data : Float32Array) (v : View) :
  zeroOrNaN data = true ->
  TranscribeHook.normalizeAudio data v =
    (TranscribeHook.MkNormalized data zero one,
     addLog "Audio peak is zero or invalid." [] Log.error v) /\
  StreamingHook.normalize data = data.
Proof.
  intros H. split.
  - unfold TranscribeHook.normalizeAudio. rewrite (peakFrom_zeroOrNaN _ H). reflexivity.
  - unfold StreamingHook.normalize. rewrite (peakFrom_zeroOrNaN _ H).
    change (gt zero zero) with false. cbv iota. apply applyGain_one_zeroOrNaN, H.
Qed.

Lemma nan_samples_do_not_count_witness :
  StreamingHook.normalize [S754_nan; zero; S754_nan] = [S754_nan; zero; S754_nan].
Proof.
  exact (proj2 (nan_samples_do_not_count [S754_nan; zero; S754_nan] initialView eq_refl)).
Defined.

End PeakFacts.

(* ================================================================= *)
(** ** The streaming hook: log, requests and chunks *)

Module StreamingFacts.
Import JsString Float Protocol HookCommon Vocabulary Notions.

(** *** The debug log *)

Lemma lastn_length (A : Type) (n : nat) (l : list A) :
  length (lastn n l) = Nat.min n (length l).
Proof. unfold lastn. rewrite length_skipn. lia. Qed.

Lemma addLog_length (msg : string) (vals : list number) (t : Log.LogType) (v : View) :
  length (logs (addLog msg vals t v)) = Nat.min 50 (S (length (logs v))).
Proof.
  unfold addLog. cbn [logs]. rewrite lastn_length, length_app. cbn [length]. lia.
Qed.

Lemma addLog_bounded (msg : string) (vals : list number) (t : Log.LogType) (v : View) :
  length (logs (addLog msg vals t v)) <= 50.
Proof. rewrite addLog_length. lia. Qed.

Lemma isModelLoaded_addLog (msg : string) (vals : list number) (t : Log.LogType)
    (v : View) : isModelLoaded (addLog msg vals t v) = isModelLoaded v.
Proof. reflexivity. Qed.

Lemma onDownload_logs (data : Progress) (v : View) : logs (onDownload data v) = logs v.
Proof. unfold onDownload. destruct (_ && _); reflexivity. Qed.

Lemma onReady_bounded (v : View) : length (logs (onReady v)) <= 50.
Proof. unfold onReady. cbn [setProgress setIsModelLoaded setIsModelLoading logs]. apply addLog_bounded. Qed.

Lemma onError_bounded (data : ErrorData) (v : View) : length (logs (onError data v)) <= 50.
Proof. unfold onError. cbn [setError setIsTranscribing setIsModelLoading logs]. apply addLog_bounded. Qed.

Import StreamingHook.

Ltac hook_simpl :=
  cbn [onView postMessage setAudioBuffer setRendering view worker posted
       mediaStream audioContext audioBuffer loadedAtStart rendering
       setIsModelLoading setIsModelLoaded setIsRecording setIsTranscribing
       setTranscription setProgress setError setLogs
       isModelLoading isModelLoaded isRecording isTranscribing
       transcription HookCommon.progress HookCommon.error logs].

Lemma onComplete_bounded (data : Output) (v : View) : length (logs (onComplete data v)) <= 50.
Proof.
  unfold onComplete.
  destruct data as [[text|]|l|]; cbn zeta; try destruct (nonEmpty text);
    cbn [setTranscription setIsTranscribing logs]; apply addLog_bounded.
Qed.

Lemma onmessage_bounded (ev : WorkerEvent) (st : Hook) :
  length (logs (view st)) <= 50 -> length (logs (view (onmessage ev st))) <= 50.
Proof.
  intros H. destruct ev; cbn [onmessage onView view].
  - rewrite onDownload_logs. exact H.
  - apply onReady_bounded.
  - apply onComplete_bounded.
  - apply onError_bounded.
Qed.

Lemma normalizeAndSendAudio_bounded (loaded : bool) (a : Float32Array) (st : Hook) :
  length (logs (view st)) <= 50 ->
  length (logs (view (normalizeAndSendAudio loaded a st))) <= 50.
Proof.
  intros H. unfold normalizeAndSendAudio.
  destruct (_ || _); cbn [onView setRendering view]; [apply addLog_bounded|exact H].
Qed.

Lemma step_bounded (e : Event) (st : Hook) :
  length (logs (view st)) <= 50 -> length (logs (view (step e st))) <= 50.
Proof.
  intros H. destruct e as [ev|granted|inputData| |i outcome|]; cbn [step].
  - apply onmessage_bounded, H.
  - unfold startRecording. destruct granted; cbn zeta; hook_simpl; apply addLog_bounded.
  - destruct (audioContext st); [|exact H]. unfold onaudioprocess. cbn zeta.
    destruct (_ <=? _); [apply normalizeAndSendAudio_bounded|]; exact H.
  - unfold stopRecording. destruct (mediaStream st); [|exact H].
    hook_simpl. apply addLog_bounded.
  - destruct (takeOut i (rendering st)) as [[x rest]|]; [|exact H].
    unfold afterRendering. destruct outcome; cbn zeta; hook_simpl.
    + destruct (worker st); hook_simpl; apply addLog_bounded.
    + apply addLog_bounded.
  - unfold resetTranscription. hook_simpl. cbn [length]. lia.
Qed.

Lemma mounted_bounded : length (logs (view mounted)) <= 50.
Proof. vm_compute. lia. Qed.

Lemma run_app (t : list Event) (e : Event) : run (t ++ [e]) = step e (run t).
Proof. unfold run. rewrite fold_left_app. reflexivity. Qed.

Lemma fold_step_bounded (t : list Event) (st : Hook) :
  length (logs (view st)) <= 50 ->
  length (logs (view (fold_left (fun st e => step e st) t st))) <= 50.
Proof.
  revert st. induction t as [|e t IH]; intros st H; [exact H|].
  apply IH, step_bounded, H.
Qed.

(** X13. The debug log keeps the newest 50 entries: [addLog] appends the entry
    to the last 49 of the log, so a log of [n] entries has
    [min 50 (n + 1)] entries afterwards, and after any sequence of events
    of the streaming hook the log holds 50 entries at most. *)
Theorem log_never_exceeds_50 :
  (forall msg vals ty v,
     length (logs (addLog msg vals ty v)) = Nat.min 50 (S (length (logs v))) /\
     logs (addLog msg vals ty v) =
       lastn 49 (logs v) ++ [MkLog (str msg) vals ty]) /\
  (forall t, length (logs (view (run t))) <= 50).
Proof.
  split.
  - intros msg vals ty v. split; [apply addLog_length|].
    unfold addLog. cbn [logs]. unfold lastn.
    rewrite skipn_app, length_app. cbn [length].
    replace (length (logs v) + 1 - 50) with (length (logs v) - 49) by lia.
    replace (length (logs v) - 49 - length (logs v)) with 0 by lia.
    reflexivity.
  - intros t. unfold run. apply fold_step_bounded, mounted_bounded.
Qed.

(** *** What the hook posts *)

Lemma step_posted (e : Event) (st : Hook) :
  posted (step e st) = posted st \/
  exists r, settled e = Some r /\
            posted (step e st) = posted st ++ [transcribe (normalize r)].
Proof.
  destruct e as [ev|granted|inputData| |i outcome|]; cbn [step].
  - left. destruct ev; reflexivity.
  - left. unfold startRecording. destruct granted; reflexivity.
  - left. destruct (audioContext st); [|reflexivity].
    unfold onaudioprocess, normalizeAndSendAudio. cbn zeta. hook_simpl.
    destruct (_ <=? _); [|reflexivity]. destruct (_ || _); reflexivity.
  - left. unfold stopRecording, normalizeAndSendAudio.
    destruct (mediaStream st); [|reflexivity].
    destruct (0 <? _); [|reflexivity]. hook_simpl.
    destruct (_ || _); reflexivity.
  - destruct (takeOut i (rendering st)) as [[x rest]|]; [|left; reflexivity].
    unfold afterRendering. destruct outcome as [r|]; cbn zeta; hook_simpl.
    + destruct (worker st); hook_simpl; [|left; reflexivity].
      right. exists r. split; reflexivity.
    + left. reflexivity.
  - left. reflexivity.
Qed.

Lemma fold_step_posted (t : list Event) (st : Hook) :
  exists rs,
    posted (fold_left (fun st e => step e st) t st) =
      posted st ++ map (fun r => transcribe (normalize r)) rs /\
    forall r, In r rs -> exists i, In (Rendered i (Some r)) t.
Proof.
  revert st. induction t as [|e t IH]; intros st; cbn [fold_left].
  - exists []. split; [cbn; rewrite app_nil_r; reflexivity|intros r []].
  - destruct (IH (step e st)) as (rs & E & Hrs).
    destruct (step_posted e st) as [E0|(r & Hr & E0)].
    + exists rs. rewrite E, E0. split; [reflexivity|].
      intros r Hin. destruct (Hrs r Hin) as (i & Hi). exists i. right. exact Hi.
    + exists (r :: rs). rewrite E, E0, <- app_assoc. split; [reflexivity|].
      intros r' [<-|Hin].
      * destruct e as [| | | |i [r0|]|]; try discriminate.
        injection Hr as ->. exists i. left. reflexivity.
      * destruct (Hrs r' Hin) as (i & Hi). exists i. right. exact Hi.
Qed.

Lemma step_cold (e : Event) (st : Hook) :
  e <> WorkerMessage ready -> cold st -> cold (step e st).
Proof.
  intros He (Hl & Hs & Hr & Hp). unfold cold.
  destruct e as [ev|granted|inputData| |i outcome|]; cbn [step].
  - destruct ev as [data| |data|data]; [| congruence | |];
      cbn [onmessage]; hook_simpl; repeat split; auto.
    + unfold onDownload. destruct (_ && _); hook_simpl; exact Hl.
    + unfold onComplete. destruct data as [[text|]|l|]; cbn zeta;
        try destruct (nonEmpty text); hook_simpl; exact Hl.
  - unfold startRecording. destruct granted; cbn zeta; hook_simpl; auto.
  - destruct (audioContext st); [|auto].
    unfold onaudioprocess, normalizeAndSendAudio. cbn zeta. hook_simpl.
    destruct (_ <=? _); [|hook_simpl; auto].
    rewrite Hs, orb_true_r. hook_simpl. auto.
  - unfold stopRecording, normalizeAndSendAudio.
    destruct (mediaStream st); [|auto].
    destruct (0 <? _); hook_simpl; [|auto].
    rewrite !isModelLoaded_addLog, Hl, orb_true_r. hook_simpl.
    rewrite !isModelLoaded_addLog. auto.
  - rewrite Hr. cbn [takeOut]. destruct i; auto.
  - unfold resetTranscription. hook_simpl. auto.
Qed.

Lemma fold_step_cold (t : list Event) (st : Hook) :
  ~ In (WorkerMessage ready) t -> cold st ->
  cold (fold_left (fun st e => step e st) t st).
Proof.
  revert st. induction t as [|e t IH]; intros st Hn Hc; [exact Hc|].
  cbn [fold_left]. apply IH.
  - intros H. apply Hn. right. exact H.
  - apply step_cold; [|exact Hc]. intros ->. apply Hn. left. reflexivity.
Qed.

(** X14. After any sequence of events the streaming hook has posted the one
    [configure] message of its mount, followed only by [transcribe]
    messages, each carrying the normalized result of a rendering that
    settled among the events; as long as no [ready] message has arrived
    it has posted nothing but the [configure] message. *)
Theorem posted_requests (t : list Event) :
  (exists rs,
     posted (run t) = configure :: map (fun r => transcribe (normalize r)) rs /\
     forall r, In r rs -> exists i, In (Rendered i (Some r)) t) /\
  (~ In (WorkerMessage ready) t -> posted (run t) = [configure]).
Proof.
  split.
  - destruct (fold_step_posted t mounted) as (rs & E & Hrs).
    exists rs. split; [exact E|exact Hrs].
  - intros Hn. apply (fold_step_cold t mounted Hn). repeat split.
Qed.

(** *** A recording that starts before the model is ready *)




(** *** Chunking *)

Lemma onaudioprocess_chunks (sr : nat) (f : Float32Array) (st : Hook) :
  0 < sr -> worker st = true -> loadedAtStart st = true ->
  length (audioBuffer st) < sr * CHUNK_DURATION_SEC ->
  let st' := onaudioprocess sr f st in
  worker st' = true /\ loadedAtStart st' = true /\
  length (audioBuffer st') < sr * CHUNK_DURATION_SEC /\
  posted st' = posted st /\
  exists chunks,
    rendering st' = rendering st ++ chunks /\
    concat chunks ++ audioBuffer st' = audioBuffer st ++ f /\
    Forall (fun c => sr * CHUNK_DURATION_SEC <= length c <
                     sr * CHUNK_DURATION_SEC + length f) chunks.
Proof.
  intros Hsr Hw Hl Hb. unfold onaudioprocess, normalizeAndSendAudio.
  cbn zeta. hook_simpl.
  destruct (Nat.leb_spec (sr * CHUNK_DURATION_SEC) (length (audioBuffer st ++ f)))
    as [Hge|Hlt]; hook_simpl.
  - rewrite Hw, Hl. cbn [negb orb]. hook_simpl.
    repeat split; auto. { cbn [length]. unfold CHUNK_DURATION_SEC. lia. }
    exists [audioBuffer st ++ f]. split; [reflexivity|].
    split; [cbn [concat]; rewrite !app_nil_r; reflexivity|].
    constructor; [|constructor]. rewrite length_app in *. lia.
  - repeat split; auto.
    exists []. split; [rewrite app_nil_r; reflexivity|].
    split; [reflexivity|constructor].
Qed.

(** X16. While a recording started with a loaded model receives audio frames,
    no sample is lost, repeated or reordered: the chunks handed to the
    renderer, followed by the samples still buffered, are the samples
    buffered before followed by the frames.  Each chunk holds at least
    four seconds of samples and less than four seconds and one frame,
    less than four seconds stay buffered, and nothing is posted by the
    frames themselves. *)
Theorem chunking_keeps_samples (sr size : nat) (frames : list Float32Array)
    (st : Hook) :
  0 < sr -> worker st = true -> loadedAtStart st = true ->
  length (audioBuffer st) < sr * CHUNK_DURATION_SEC ->
  Forall (fun f => length f <= size) frames ->
  let st' := fold_left (fun st f => onaudioprocess sr f st) frames st in
  length (audioBuffer st') < sr * CHUNK_DURATION_SEC /\
  posted st' = posted st /\
  exists chunks,
    rendering st' = rendering st ++ chunks /\
    concat chunks ++ audioBuffer st' = audioBuffer st ++ concat frames /\
    Forall (fun c => sr * CHUNK_DURATION_SEC <= length c <
                     sr * CHUNK_DURATION_SEC + size) chunks.
Proof.
  intros Hsr. revert st. induction frames as [|f frames IH];
    intros st Hw Hl Hb Hsz; cbn [fold_left].
  - split; [exact Hb|]. split; [reflexivity|].
    exists []. cbn [concat]. rewrite !app_nil_r. repeat split. constructor.
  - destruct (onaudioprocess_chunks sr f st Hsr Hw Hl Hb)
      as (Hw' & Hl' & Hb' & Hp' & c1 & Hr1 & Hc1 & Hf1).
    cbv zeta in *. inversion Hsz as [|f0 fs Hf Hfs]; subst.
    destruct (IH (onaudioprocess sr f st) Hw' Hl' Hb' Hfs)
      as (Hb2 & Hp2 & c2 & Hr2 & Hc2 & Hf2).
    cbv zeta in *.
    split; [exact Hb2|]. split; [congruence|].
    exists (c1 ++ c2). split; [rewrite Hr2, Hr1, app_assoc; reflexivity|].
    split.
    + rewrite concat_app, <- app_assoc, Hc2, app_assoc, Hc1.
      cbn [concat]. rewrite app_assoc. reflexivity.
    + apply Forall_app. split; [|exact Hf2].
      apply Forall_impl with (2 := Hf1). intros c Hc. lia.
Qed.

Lemma chunking_keeps_samples_witness :
  let st := run [WorkerMessage ready; StartRecording (Some 2)] in
  let frames := [[zero; zero; zero]; [one; zero; zero]; [zero; one; zero]] in
  let st' := fold_left (fun st f => onaudioprocess 2 f st) frames st in
  length (audioBuffer st') < 2 * CHUNK_DURATION_SEC /\
  posted st' = posted st /\
  exists chunks,
    rendering st' = rendering st ++ chunks /\
    concat chunks ++ audioBuffer st' = audioBuffer st ++ concat frames /\
    Forall (fun c => 2 * CHUNK_DURATION_SEC <= length c <
                     2 * CHUNK_DURATION_SEC + 3) chunks.
Proof.
  apply (chunking_keeps_samples 2 3
           [[zero; zero; zero]; [one; zero; zero]; [zero; one; zero]]
           (run [WorkerMessage ready; StartRecording (Some 2)])).
  - lia.
  - reflexivity.
  - reflexivity.
  - cbn. lia.
  - repeat constructor.
Defined.

(** *** Stopping *)

Lemma stopRecording_shape (st : Hook) :
  mediaStream st = true ->
  exists st1,
    audioBuffer st1 = [] /\
    stopRecording st =
      onView (addLog "Recording stopped" [] Log.info)
        (onView (setIsRecording false)
           (MkHook (view st1) (worker st1) (posted st1) false None
              (audioBuffer st1) (loadedAtStart st1) (rendering st1))).
Proof.
  intros Hm. unfold stopRecording. rewrite Hm.
  eexists. split; [|reflexivity].
  destruct (audioBuffer st) eqn:Eb; cbn [length Nat.ltb Nat.leb]; [exact Eb|].
  reflexivity.
Qed.

(** X17. [stopRecording] of the streaming hook is idempotent and leaves no
    media stream; when there was one, the sample buffer is empty
    afterwards, the audio context is released and [isRecording] is
    false. *)
Theorem stopRecording_idempotent (st : Hook) :
  stopRecording (stopRecording st) = stopRecording st /\
  mediaStream (stopRecording st) = false /\
  (mediaStream st = true ->
   audioBuffer (stopRecording st) = [] /\
   audioContext (stopRecording st) = None /\
   isRecording (view (stopRecording st)) = false).
Proof.
  destruct (mediaStream st) eqn:Hm.
  - destruct (stopRecording_shape st Hm) as (st1 & Hb & E). rewrite E.
    split; [reflexivity|]. split; [reflexivity|]. intros _.
    hook_simpl. split; [exact Hb|]. split; reflexivity.
  - assert (E : stopRecording st = st) by (unfold stopRecording; rewrite Hm; reflexivity).
    rewrite !E. split; [reflexivity|]. split; [exact Hm|discriminate].
Qed.

End StreamingFacts.

(* ================================================================= *)
(** ** The worker: replies *)

Module WorkerReplies.
Import JsString Float Protocol Worker Vocabulary Notions.

Section Listener.

Variable Pipeline : Type.
Variable pipeline : list Progress * Completion Pipeline.
Variable call : Pipeline -> Float32Array -> jsstring -> Completion Output.
Variable cloneable : Output -> bool.
Variable dataCloneMessage : jsstring.
Variable typeErrorMessage : jsstring.



(** X19. Once the worker holds a pipeline it keeps it: whatever message
    arrives, the instance stays the same, no download event is posted,
    and a [configure] message is answered by [ready] alone. *)
Theorem loaded_model_is_kept (ev : Request) (st : State Pipeline) (p : Pipeline) :
  instance st = Some p ->
  let st' := snd (listener pipeline call cloneable dataCloneMessage
                    typeErrorMessage ev st) in
  instance st' = Some p /\
  Forall (fun m => isDownload m = false) (skipn (length (outbox st)) (outbox st')) /\
  (hasType ev "configure" = true -> outbox st' = outbox st ++ [ready]).
Proof.
  intros Hi. cbv zeta. unfold listener.
  destruct (hasType ev "configure").
  - unfold tryCatch, bind, Worker.getInstance; unfold bind. rewrite Hi. cbn.
    rewrite skipn_app, Nat.sub_diag, skipn_all. cbn.
    repeat split; auto.
  - destruct (hasType ev "transcribe").
    + destruct (audio ev) as [a|].
      * unfold tryCatch, bind, Worker.getInstance; unfold bind. rewrite Hi.
        destruct (call p a _) as [output|e]; cbn.
        -- destruct (cloneable output); cbn;
             rewrite skipn_app, Nat.sub_diag, skipn_all; cbn;
             repeat split; auto; discriminate.
        -- destruct e as [m| | |]; cbn;
             rewrite ?skipn_app, ?Nat.sub_diag, ?skipn_all; cbn;
             repeat split; auto; discriminate.
      * cbn. rewrite skipn_app, Nat.sub_diag, skipn_all; cbn.
        repeat split; auto; discriminate.
    + cbn. rewrite skipn_all. repeat split; auto; discriminate.
Qed.

End Listener.


Lemma loaded_model_is_kept_witness :
  instance (snd (listener (@nil Progress, Normal tt)
                   (fun (_ : unit) _ _ => Normal Other) (fun _ => true)
                   (str "could not be cloned") (str "not an object")
                   configure (MkState (Some tt) [ready]))) = Some tt.
Proof.
  exact (proj1 (loaded_model_is_kept unit (@nil Progress, Normal tt)
                  (fun _ _ _ => Normal Other) (fun _ => true)
                  (str "could not be cloned") (str "not an object")
                  configure (MkState (Some tt) [ready]) tt eq_refl)).
Defined.

End WorkerReplies.
